(** * Bandwidth allocation: the greedy and the exact (dynamic programming) allocator

    A shallow embedding of [greedy_bandwidth_allocation] and
    [optimal_bandwidth_allocation] of [bandwidth_allocation.py].

    Python integers are [Z]; Python lists are [list]s read and written through
    [getitem] and [setitem], which raise [IndexError] the way Python does
    (negative indices count from the end); exceptions are the [Raise] case of
    [result].  Utilities are Python floats: the two functions are written once,
    over an interface [PyFloat] of the float operations they use, and are run
    on IEEE binary64 ([float], the kernel's primitive floats) and on exact
    rationals ([Qc]).  An int that meets a float is converted to one, which
    raises [OverflowError] when the int is beyond the float range.  The
    builtin [list.sort] is a parameter, [PySort], of which the proofs use
    what [SortLaws] states.  The instance generators,
    [compare_solution_quality] and [measure_runtime] are modelled on
    binary64, over the operations of [random], the clock and numpy they
    call. *)

From Stdlib Require Import ZArith List Bool Lia Floats QArith Qcanon Sorted.
From stdpp Require Import base list sorting.

#[local] Open Scope Z_scope.

(** ** Exceptions and the error monad *)

Inductive exn : Type :=
| IndexError
| ZeroDivisionError
| OverflowError.

Inductive result (A : Type) : Type :=
| Ok (a : A)
| Raise (e : exn).

Arguments Ok {A} a.
Arguments Raise {A} e.

Definition bind {A B : Type} (m : result A) (k : A -> result B) : result B :=
  match m with
  | Ok a => k a
  | Raise e => Raise e
  end.

Notation "x <- m ;; k" := (bind m (fun x => k))
  (at level 100, m at next level, right associativity).

(** [for x in xs: st = body(st, x)], stopping at the first exception. *)
Fixpoint foldM {A S : Type} (body : S -> A -> result S) (xs : list A) (st : S)
  : result S :=
  match xs with
  | [] => Ok st
  | x :: xs' => st' <- body st x ;; foldM body xs' st'
  end.

(** [[f(x) for x in xs]], stopping at the first exception. *)
Fixpoint mapM {A B : Type} (f : A -> result B) (xs : list A) : result (list B) :=
  match xs with
  | [] => Ok []
  | x :: xs' => y <- f x ;; ys <- mapM f xs' ;; Ok (y :: ys)
  end.

(** ** Python lists *)

Definition len {A : Type} (l : list A) : Z := Z.of_nat (length l).

(** [range(a, b)] *)
Definition range (a b : Z) : list Z :=
  map (fun k => a + Z.of_nat k) (seq 0 (Z.to_nat (b - a))).

(** [range(a, b, -1)] *)
Definition range_down (a b : Z) : list Z :=
  map (fun k => a - Z.of_nat k) (seq 0 (Z.to_nat (a - b))).

(** The position an index denotes: a negative index counts from the end. *)
Definition position {A : Type} (l : list A) (i : Z) : option nat :=
  let j := if i <? 0 then i + len l else i in
  if (0 <=? j) && (j <? len l) then Some (Z.to_nat j) else None.

(** [l[i]] *)
Definition getitem {A : Type} (l : list A) (i : Z) : result A :=
  match position l i with
  | Some j => match l !! j with Some x => Ok x | None => Raise IndexError end
  | None => Raise IndexError
  end.

(** [l[i] = v] *)
Definition setitem {A : Type} (l : list A) (i : Z) (v : A) : result (list A) :=
  match position l i with
  | Some j => Ok (<[j := v]> l)
  | None => Raise IndexError
  end.

(** ** The stable descending arrangement

    What [list.sort(key=..., reverse=True)] returns on keys that [<] orders:
    the list is reversed, sorted stably (insertion sort here; a stable sort
    has one result on such keys) and reversed again, which keeps equal keys
    in their original order.  The builtin itself is a parameter of the
    model, [sort_reverse] below. *)

Section Sort.
Context {A K : Type} (lt : K -> K -> bool) (key : A -> K).

Fixpoint insert_sorted (x : A) (l : list A) : list A :=
  match l with
  | [] => [x]
  | y :: l' => if lt (key y) (key x) then y :: insert_sorted x l' else x :: y :: l'
  end.

Fixpoint list_sort (l : list A) : list A :=
  match l with
  | [] => []
  | x :: l' => insert_sorted x (list_sort l')
  end.

Definition list_sort_reverse (l : list A) : list A := rev (list_sort (rev l)).

End Sort.

(** [<] orders the keys [ks]: it is irreflexive and asymmetric on them, and
    "not less than" is transitive. *)
Definition ordered_by {K : Type} (lt : K -> K -> bool) (ks : list K) : Prop :=
  forall a b c : K, In a ks -> In b ks -> In c ks ->
    lt a a = false /\
    (lt a b = true -> lt b a = false) /\
    (lt b a = false -> lt c b = false -> lt c a = false).

(** [ordered_by], decided. *)
Definition orderedb {K : Type} (lt : K -> K -> bool) (ks : list K) : bool :=
  forallb (fun a =>
    forallb (fun b =>
      forallb (fun c =>
        negb (lt a a) &&
        implb (lt a b) (negb (lt b a)) &&
        implb (negb (lt b a) && negb (lt c b)) (negb (lt c a))) ks) ks) ks.

(** ** The float operations the allocators use *)

Class PyFloat (U : Type) : Type := {
  f_zero : U;                  (* 0.0 *)
  f_add : U -> U -> U;         (* a + b *)
  f_div : U -> U -> U;         (* a / b, b not zero *)
  f_of_int : Z -> option U;    (* the float nearest to an int, if in range *)
  f_lt : U -> U -> bool;       (* a < b *)
  f_eq : U -> U -> bool        (* a == b *)
}.

(** An int where a float is needed: it is converted, and one beyond the
    float range raises [OverflowError]. *)
Definition int_to_float {U : Type} `{PyFloat U} (d : Z) : result U :=
  match f_of_int d with
  | Some x => Ok x
  | None => Raise OverflowError
  end.

(** The float an int converts to (0.0 stands in where there is none). *)
Definition to_float {U : Type} `{PyFloat U} (d : Z) : U :=
  match f_of_int d with
  | Some x => x
  | None => f_zero
  end.

(** The int [d] is within the float range. *)
Definition converts (U : Type) `{PyFloat U} (d : Z) : Prop :=
  f_of_int d = Some (to_float d).

(** The builtin [l.sort(key=..., reverse=True)], for keys compared with
    [lt].  The model leaves it open: [SortLaws] further down states what is
    known of it. *)
Class PySort : Type := {
  sort_reverse : forall {A K : Type}, (K -> K -> bool) -> (A -> K) -> list A -> list A
}.

(** The stable descending arrangement as a sort. *)
Definition stable_sort : PySort :=
  {| sort_reverse := fun A K lt key l => list_sort_reverse lt key l |}.

Section Allocators.
Context {U : Type} {F : PyFloat U} {Srt : PySort}.

(** [u / d] for a float [u] and an int [d]: the int is converted to a float,
    which raises [OverflowError] when it is beyond the float range; then a
    zero divisor raises [ZeroDivisionError] (the converted divisor is zero
    exactly when [d] is). *)
Definition truediv (u : U) (d : Z) : result U :=
  x <- int_to_float d ;;
  if d =? 0 then Raise ZeroDivisionError else Ok (f_div u x).

(** [max(a, b)]: the first argument, unless the second is greater. *)
Definition py_max (a b : U) : U := if f_lt a b then b else a.

(** [a != b] *)
Definition f_ne (a b : U) : bool := negb (f_eq a b).

(** *** The greedy allocator *)

Record greedy_state : Type := {
  allocations : list Z;
  used_capacity : Z;
  total_utility : U
}.

(** [users = [(i, utilities[i] / demands[i]) for i in range(n)]] *)
Definition make_users (demands : list Z) (utilities : list U) : result (list (Z * U)) :=
  mapM (fun i =>
          u <- getitem utilities i ;;
          d <- getitem demands i ;;
          e <- truediv u d ;;
          Ok (i, e))
       (range 0 (len demands)).

(** The body of [for idx, _ in users]. *)
Definition greedy_step (demands : list Z) (utilities : list U) (capacity : Z)
    (st : greedy_state) (user : Z * U) : result greedy_state :=
  let idx := fst user in
  d <- getitem demands idx ;;
  if used_capacity st + d <=? capacity then
    allocs <- setitem (allocations st) idx 1 ;;
    d' <- getitem demands idx ;;
    u <- getitem utilities idx ;;
    Ok {| allocations := allocs;
          used_capacity := used_capacity st + d';
          total_utility := f_add (total_utility st) u |}
  else Ok st.

Definition greedy_init (n : Z) : greedy_state :=
  {| allocations := replicate (Z.to_nat n) 0;
     used_capacity := 0;
     total_utility := f_zero |}.

Definition greedy_bandwidth_allocation (demands : list Z) (utilities : list U)
    (capacity : Z) : result (list Z * U) :=
  let n := len demands in
  users <- make_users demands utilities ;;
  let users := sort_reverse f_lt snd users in
  st <- foldM (greedy_step demands utilities capacity) users (greedy_init n) ;;
  Ok (allocations st, total_utility st).

(** *** The exact allocator *)

(** [dp[i][c]] *)
Definition dp_get (dp : list (list U)) (i c : Z) : result U :=
  row <- getitem dp i ;; getitem row c.

(** [dp[i][c] = v]: the rows are distinct lists, so only row [i] changes. *)
Definition dp_set (dp : list (list U)) (i c : Z) (v : U) : result (list (list U)) :=
  row <- getitem dp i ;;
  row' <- setitem row c v ;;
  setitem dp i row'.

(** [[[0.0 for _ in range(capacity + 1)] for _ in range(n + 1)]] *)
Definition dp_init (n capacity : Z) : list (list U) :=
  replicate (Z.to_nat (n + 1)) (replicate (Z.to_nat (capacity + 1)) f_zero).

(** The body of [for c in range(capacity + 1)]. *)
Definition fill_cell (demands : list Z) (utilities : list U) (i : Z)
    (dp : list (list U)) (c : Z) : result (list (list U)) :=
  v <- dp_get dp (i - 1) c ;;
  dp <- dp_set dp i c v ;;
  d <- getitem demands (i - 1) ;;
  if d <=? c then
    a <- dp_get dp i c ;;
    d' <- getitem demands (i - 1) ;;
    b <- dp_get dp (i - 1) (c - d') ;;
    u <- getitem utilities (i - 1) ;;
    dp_set dp i c (py_max a (f_add b u))
  else Ok dp.

(** The body of [for i in range(1, n + 1)]. *)
Definition fill_row (demands : list Z) (utilities : list U) (capacity : Z)
    (dp : list (list U)) (i : Z) : result (list (list U)) :=
  foldM (fill_cell demands utilities i) (range 0 (capacity + 1)) dp.

Definition fill_table (demands : list Z) (utilities : list U) (capacity : Z)
  : result (list (list U)) :=
  let n := len demands in
  foldM (fill_row demands utilities capacity) (range 1 (n + 1)) (dp_init n capacity).

(** The body of [for i in range(n, 0, -1)]; the state is [(allocations, c)]. *)
Definition backtrack_step (demands : list Z) (dp : list (list U))
    (st : list Z * Z) (i : Z) : result (list Z * Z) :=
  let '(allocs, c) := st in
  a <- dp_get dp i c ;;
  b <- dp_get dp (i - 1) c ;;
  if f_ne a b then
    allocs <- setitem allocs (i - 1) 1 ;;
    d <- getitem demands (i - 1) ;;
    Ok (allocs, c - d)
  else Ok (allocs, c).

Definition backtrack (demands : list Z) (dp : list (list U)) (capacity : Z)
  : result (list Z * Z) :=
  let n := len demands in
  foldM (backtrack_step demands dp) (range_down n 0)
        (replicate (Z.to_nat n) 0, capacity).

Definition optimal_bandwidth_allocation (demands : list Z) (utilities : list U)
    (capacity : Z) : result (list Z * U) :=
  let n := len demands in
  dp <- fill_table demands utilities capacity ;;
  st <- backtrack demands dp capacity ;;
  v <- dp_get dp n capacity ;;
  Ok (fst st, v).

(** *** Allocations as the specification reads them *)

(** Every entry is 0 or 1. *)
Definition binary (x : list Z) : Prop := Forall (fun a => a = 0 \/ a = 1) x.

(** The sum of [demands[i]] over the indices marked 1. *)
Fixpoint allocation_demand (demands x : list Z) : Z :=
  match demands, x with
  | d :: demands', a :: x' =>
      (if a =? 1 then d else 0) + allocation_demand demands' x'
  | _, _ => 0
  end.

(** The sum of [utilities[i]] over the indices marked 1, accumulated from
    [acc] in index order: [sum(utilities[i] for i in range(n) if x[i] == 1)]. *)
Fixpoint utility_from (acc : U) (utilities : list U) (x : list Z) : U :=
  match utilities, x with
  | u :: utilities', a :: x' =>
      utility_from (if a =? 1 then f_add acc u else acc) utilities' x'
  | _, _ => acc
  end.

Definition allocation_utility (utilities : list U) (x : list Z) : U :=
  utility_from f_zero utilities x.

(** A 0/1 allocation of the instance that stays within the capacity. *)
Definition feasible (demands : list Z) (capacity : Z) (x : list Z) : Prop :=
  length x = length demands /\ binary x /\ allocation_demand demands x <= capacity.

End Allocators.

(** ** The two arithmetics *)

(** IEEE binary64, Python's [float].  An int is converted by rounding to the
    nearest float, ties to even; there is none when that is beyond the finite
    floats (from 2^1024 - 2^970 on). *)
Definition float_of_int (d : Z) : option float :=
  match binary_normalize prec emax d 0 false with
  | S754_infinity _ => None
  | x => Some (SF2Prim x)
  end.

(** The least positive int without a float: half an ulp above the largest
    finite float. *)
Definition float_limit : Z := 2 ^ 1024 - 2 ^ 970.

#[export] Instance float_PyFloat : PyFloat float := {
  f_zero := 0%float;
  f_add := PrimFloat.add;
  f_div := PrimFloat.div;
  f_of_int := float_of_int;
  f_lt := PrimFloat.ltb;
  f_eq := PrimFloat.eqb
}.

(** Exact rational arithmetic: no rounding. *)
Definition Qc_ltb (a b : Qc) : bool :=
  match (a ?= b)%Qc with Lt => true | _ => false end.

#[export] Instance Qc_PyFloat : PyFloat Qc := {
  f_zero := 0%Qc;
  f_add := Qcplus;
  f_div := Qcdiv;
  f_of_int := fun d => Some (Q2Qc (inject_Z d));
  f_lt := Qc_ltb;
  f_eq := Qc_eq_bool
}.

(** ** The instance generators and the experiment drivers

    The rest of [bandwidth_allocation.py] that computes: the three literal
    instances, the random instance generator, the comparison of the two
    allocators on a generated instance and the runtime measurement.  The
    utilities are binary64 floats here, as in the source. *)

(** [generate_worst_case_for_greedy()] *)
Definition generate_worst_case_for_greedy : list Z * list float * Z :=
  ([6; 5; 5], [60; 45; 45]%float, 10).

(** [generate_pathological_case()] *)
Definition generate_pathological_case : list Z * list float * Z :=
  ([1; 2], [1; 2]%float, 2).

(** [generate_another_bad_case()] *)
Definition generate_another_bad_case : list Z * list float * Z :=
  ([7; 6; 6], [35; 24; 24]%float, 12).

(** The module [random], as far as the generator uses it.  [G] is the state
    of the module's generator; [seed s] is the state [random.seed(s)] leaves,
    [randint a b] and [uniform a b] draw a number and advance the state. *)
Record random_module (G : Type) : Type := {
  seed : Z -> G;
  randint : Z -> Z -> G -> Z * G;
  uniform : float -> float -> G -> float * G
}.

Arguments seed {G} _ _.
Arguments randint {G} _ _ _ _.
Arguments uniform {G} _ _ _ _.

(** What the documentation of [random] promises: [randint(a, b)] returns an
    integer N with a <= N <= b, and [uniform(a, b)] a float N with
    a <= N <= b.  ([randint] raises [ValueError] when b < a; the generator
    never calls it so.) *)
Record random_contract {G : Type} (R : random_module G) : Prop := {
  randint_range : forall (a b : Z) (g : G),
    a <= b -> a <= fst (randint R a b g) <= b;
  uniform_range : forall (a b : float) (g : G),
    (a <=? b)%float = true ->
    (a <=? fst (uniform R a b g))%float = true /\
    (fst (uniform R a b g) <=? b)%float = true
}.

(** [[f(x) for x in xs]] for an [f] that draws random numbers and may
    raise: the first exception ends it, and the draws made stay made. *)
Fixpoint map_drawing {A B G : Type} (f : A -> G -> result B * G) (xs : list A) (g : G)
  : result (list B) * G :=
  match xs with
  | [] => (Ok [], g)
  | x :: xs' =>
      match f x g with
      | (Ok y, g1) =>
          match map_drawing f xs' g1 with
          | (Ok ys, g2) => (Ok (y :: ys), g2)
          | (Raise e, g2) => (Raise e, g2)
          end
      | (Raise e, g1) => (Raise e, g1)
      end
  end.

(** [generate_random_instance(n, capacity, seed)]: [seed] is [None] or an
    int.  In [d * random.uniform(0.5, 2.0)] the number is drawn first, then
    the int [d] is converted to a float, which may raise [OverflowError].
    The result comes with the state of [random] the call leaves. *)
Definition generate_random_instance {G : Type} (R : random_module G)
    (n capacity : Z) (s : option Z) (g : G)
  : result (list Z * list float * Z) * G :=
  let g := match s with Some s' => seed R s' | None => g end in
  let max_demand := Z.max 1 (capacity / 10) in
  match map_drawing (fun _ g' => let '(d, g'') := randint R 1 max_demand g' in (Ok d, g''))
                    (range 0 n) g with
  | (Raise e, g) => (Raise e, g)
  | (Ok demands, g) =>
      match map_drawing (fun d g' => let '(x, g'') := uniform R 0.5 2 g' in
                                     (y <- int_to_float d ;; Ok (y * x)%float, g''))
                        demands g with
      | (Raise e, g) => (Raise e, g)
      | (Ok utilities, g) => (Ok (demands, utilities, capacity), g)
      end
  end.

(** A Python number that is a float or an int. *)
Inductive number : Type :=
| Float (x : float)
| Int (z : Z).

(** [a / b] on floats: a zero divisor raises [ZeroDivisionError]. *)
Definition float_truediv (a b : float) : result float :=
  if (b =? 0)%float then Raise ZeroDivisionError else Ok (a / b)%float.

(** [a / b * 100], the percentage the drivers report: [100] is converted to
    a float. *)
Definition percent_of (a b : float) : result float :=
  q <- float_truediv a b ;; h <- int_to_float 100 ;; Ok (q * h)%float.

(** [compare_solution_quality(n)]: the result, and the state of [random]
    the call leaves.  The ratio is a float, or the int 0 when the optimal
    utility is not above zero. *)
Definition compare_solution_quality {G : Type} {Srt : PySort}
    (R : random_module G) (n : Z) (g : G)
  : result (float * float * number) * G :=
  let capacity := n * 5 in
  let '(instance, g) := generate_random_instance R n capacity (Some 42) g in
  (inst <- instance ;;
   let '(demands, utilities, cap) := inst in
   greedy <- greedy_bandwidth_allocation demands utilities cap ;;
   let greedy_utility := snd greedy in
   optimal_utility <-
     (if n <=? 100
      then optimal <- optimal_bandwidth_allocation demands utilities cap ;;
           Ok (snd optimal)
      else Ok greedy_utility) ;;
   ratio <-
     (if (0 <? optimal_utility)%float
      then r <- percent_of greedy_utility optimal_utility ;; Ok (Float r)
      else Ok (Int 0)) ;;
   Ok (optimal_utility, greedy_utility, ratio),
   g).

(** [measure_runtime(n, num_trials)].  [perf_counter] is [time.perf_counter]
    on a clock state [T]; [np_mean] and [np_std] are numpy's [mean] and
    [std], which the model leaves open.  The result comes with the states
    of [random] and of the clock the call leaves. *)
Definition measure_runtime {G T : Type} {Srt : PySort} (R : random_module G)
    (perf_counter : T -> float * T) (np_mean np_std : list float -> float)
    (n num_trials : Z) (g : G) (t : T) : result (float * float * G * T) :=
  let capacity := n * 50 in
  st <- foldM (fun (st : list float * G * T) (trial : Z) =>
                 let '(times, g, t) := st in
                 let '(instance, g) :=
                   generate_random_instance R n capacity (Some trial) g in
                 inst <- instance ;;
                 let '(demands, utilities, cap) := inst in
                 let '(start, t) := perf_counter t in
                 _ <- greedy_bandwidth_allocation demands utilities cap ;;
                 let '(finish, t) := perf_counter t in
                 Ok (times ++ [(finish - start)%float], g, t))
              (range 0 num_trials) ([], g, t) ;;
  let '(times, g, t) := st in
  Ok (np_mean times, np_std times, g, t).

(** ** Laws of the arithmetic and of the sort

    [CmpLaws] is what the comparisons [<] and [==] give on every float, NaN
    included.  [OrderLaws U ok] says that on the values that satisfy [ok],
    which contain zero and are closed under addition, [<] is a strict total
    order that addition respects: it holds for every exact rational, and on
    binary64 for the floats that are neither NaN nor negative.  [ExactLaws]
    says that addition is associative and commutative and that every int
    has its float: it holds in exact arithmetic only, rounding breaks it. *)

Class CmpLaws (U : Type) `{PyFloat U} : Prop := {
  f_eq_zero : f_eq f_zero f_zero = true;
  f_lt_valid : forall a b : U, f_lt a b = true -> f_eq b b = true;
  f_lt_ne : forall a b : U, f_lt a b = true -> f_eq b a = false
}.

(** [a <= b], read off [<]: [b] is not below [a]. *)
Definition f_le {U : Type} `{PyFloat U} (a b : U) : Prop := f_lt b a = false.

Class OrderLaws (U : Type) `{PyFloat U} (ok : U -> Prop) : Prop := {
  f_ok_zero : ok f_zero;
  f_ok_add : forall a b : U, ok a -> ok b -> ok (f_add a b);
  f_lt_irrefl : forall a : U, ok a -> f_lt a a = false;
  f_lt_asym : forall a b : U, ok a -> ok b -> f_lt a b = true -> f_lt b a = false;
  f_le_trans : forall a b c : U, ok a -> ok b -> ok c -> f_le a b -> f_le b c -> f_le a c;
  f_add_mono : forall a b u : U,
    ok a -> ok b -> ok u -> f_le a b -> f_le (f_add a u) (f_add b u)
}.

(** No restriction: the carrier of exact arithmetic. *)
Definition every {U : Type} (a : U) : Prop := True.

Class ExactLaws (U : Type) `{PyFloat U} : Prop := {
  f_add_comm : forall a b : U, f_add a b = f_add b a;
  f_add_assoc : forall a b c : U, f_add a (f_add b c) = f_add (f_add a b) c;
  f_of_int_exact : forall d : Z, converts U d
}.

(** What is known of [list.sort]: it rearranges the list, whatever the
    comparisons answer, and it is stable, so that on keys that [<] orders it
    returns the stable descending arrangement. *)
Class SortLaws {Srt : PySort} : Prop := {
  sort_permutes : forall (A K : Type) (lt : K -> K -> bool) (key : A -> K) (l : list A),
    Permutation (sort_reverse lt key l) l;
  sort_stable : forall (A K : Type) (lt : K -> K -> bool) (key : A -> K) (l : list A),
    ordered_by lt (map key l) -> sort_reverse lt key l = list_sort_reverse lt key l
}.

(** ** What the proofs speak about

    The functions below are not in the source: they name what the loops
    compute, so that the theorems can say it. *)

(** *** The greedy loop *)

(** [utilities[k] / demands[k]], the key the greedy allocator sorts by. *)
Definition efficiency {U : Type} `{PyFloat U} (demands : list Z) (utilities : list U)
    (k : nat) : U :=
  f_div (nth k utilities f_zero) (to_float (nth k demands 0)).

(** The list [users] before it is sorted. *)
Definition users_of {U : Type} `{PyFloat U} (demands : list Z) (utilities : list U)
  : list (Z * U) :=
  map (fun k => (Z.of_nat k, efficiency demands utilities k)) (seq 0 (length demands)).

(** The order in which the greedy loop visits the candidates: the one the
    sort leaves them in. *)
Definition greedy_order {U : Type} {F : PyFloat U} {Srt : PySort}
    (demands : list Z) (utilities : list U) : list nat :=
  map (fun user => Z.to_nat (fst user))
      (sort_reverse f_lt snd (users_of demands utilities)).

(** The candidates the loop accepts, in the order it accepts them. *)
Fixpoint greedy_accept (demands : list Z) (capacity used : Z) (idxs : list nat) : list nat :=
  match idxs with
  | [] => []
  | k :: rest =>
      let d := nth k demands 0 in
      if used + d <=? capacity
      then k :: greedy_accept demands capacity (used + d) rest
      else greedy_accept demands capacity used rest
  end.

(** [allocations[k] = 1] for each [k] of [acc]. *)
Definition mark (acc : list nat) (a : list Z) : list Z :=
  fold_left (fun a k => <[k := 1]> a) acc a.

(** The demands of the candidates [acc], summed. *)
Definition demand_of (demands : list Z) (acc : list nat) : Z :=
  fold_right (fun k s => nth k demands 0 + s) 0 acc.

(** The utilities of the candidates [acc], added to [t] in the order of [acc]. *)
Definition utility_in_order {U : Type} `{PyFloat U} (utilities : list U)
    (acc : list nat) (t : U) : U :=
  fold_left (fun t k => f_add t (nth k utilities f_zero)) acc t.

(** *** The table of the exact allocator *)

(** The value the recurrence gives [dp[i][c]]. *)
Fixpoint best {U : Type} `{PyFloat U} (demands : list Z) (utilities : list U)
    (i : nat) (c : Z) : U :=
  match i with
  | O => f_zero
  | S i' =>
      let d := nth i' demands 0 in
      if d <=? c
      then py_max (best demands utilities i' c)
                  (f_add (best demands utilities i' (c - d)) (nth i' utilities f_zero))
      else best demands utilities i' c
  end.

(** The entries the backtracking walk gives the first [i] candidates when it
    reaches them with remaining capacity [c]. *)
Fixpoint picked {U : Type} `{PyFloat U} (demands : list Z) (utilities : list U)
    (i : nat) (c : Z) : list Z :=
  match i with
  | O => []
  | S i' =>
      if f_ne (best demands utilities (S i') c) (best demands utilities i' c)
      then picked demands utilities i' (c - nth i' demands 0) ++ [1]
      else picked demands utilities i' c ++ [0]
  end.

(** [dp[k][c]] as a lookup. *)
Definition cell {U : Type} (dp : list (list U)) (k c : nat) : option U :=
  match dp !! k with
  | Some row => row !! c
  | None => None
  end.

(** [dp] has [rows] rows of [cols] entries. *)
Definition table_shape {U : Type} (dp : list (list U)) (rows cols : nat) : Prop :=
  length dp = rows /\ Forall (fun row => length row = cols) dp.

(** Row [k] of the table holds the values of the recurrence, for the
    capacities 0 to [cap]. *)
Definition row_done {U : Type} `{PyFloat U} (demands : list Z) (utilities : list U)
    (cap : nat) (dp : list (list U)) (k : nat) : Prop :=
  forall c, (c <= cap)%nat -> cell dp k c = Some (best demands utilities k (Z.of_nat c)).

(** *** Brute force *)

(** All sequences of [n] values 0 and 1. *)
Fixpoint all_allocations (n : nat) : list (list Z) :=
  match n with
  | O => [[]]
  | S n' => flat_map (fun x => [0 :: x; 1 :: x]) (all_allocations n')
  end.

(** [feasible], decided. *)
Definition feasibleb (demands : list Z) (capacity : Z) (x : list Z) : bool :=
  (length x =? length demands)%nat &&
  forallb (fun a => (a =? 0) || (a =? 1)) x &&
  (allocation_demand demands x <=? capacity).

(** The brute-force maximum of the specification: the largest total utility
    among all feasible 0/1 allocations, by enumeration. *)
Definition brute_force_max {U : Type} `{PyFloat U} (demands : list Z)
    (utilities : list U) (capacity : Z) : U :=
  fold_left (fun best x => py_max best (allocation_utility utilities x))
            (List.filter (feasibleb demands capacity) (all_allocations (length demands)))
            f_zero.

(** *** Further notions for the greedy allocator *)

(** The demands of all candidates, summed. *)
Definition total_demand (demands : list Z) : Z := fold_right Z.add 0 demands.

(** No element of [l] has a smaller key than the one after it. *)
Definition never_rising {A K : Type} (lt : K -> K -> bool) (key : A -> K)
    (l : list A) : Prop :=
  forall (i : nat) (a b : A),
    l !! i = Some a -> l !! S i = Some b -> lt (key a) (key b) = false.

(** First fit in input order, for the first [m] candidates: a candidate is
    marked when its demand fits beside the demands marked before it. *)
Fixpoint first_fit (demands : list Z) (capacity : Z) (m : nat) : list Z :=
  match m with
  | O => []
  | S m' =>
      let x := first_fit demands capacity m' in
      x ++ [if allocation_demand demands x + nth m' demands 0 <=? capacity
            then 1 else 0]
  end.

(** *** The runtime measurement *)

(** The differences of [k] successive pairs of clock readings taken from the
    clock state [t] on, and the state the clock is left in. *)
Fixpoint clock_differences {T : Type} (perf_counter : T -> float * T) (k : nat) (t : T)
  : list float * T :=
  match k with
  | O => ([], t)
  | S k' =>
      let '(start, t) := perf_counter t in
      let '(finish, t) := perf_counter t in
      let '(rest, t) := clock_differences perf_counter k' t in
      ((finish - start)%float :: rest, t)
  end.

(** *** Binary64 floats that are not negative, read as integers

    A float that is neither NaN nor negative is a whole multiple of 2^-1074,
    the smallest subnormal.  The functions below read it as that multiple,
    infinity as [TOP], the first power of two beyond the finite floats, and
    say what float addition does to these integers. *)

(** The number of binary digits of a positive integer. *)
Definition digits (n : Z) : Z := Z.log2 n + 1.

(** [m / 2 ^ n] rounded to the nearest integer, ties to even. *)
Definition rne (m n : Z) : Z :=
  let q := m / 2 ^ n in
  let r := 2 * (m mod 2 ^ n) in
  if (2 ^ n <? r) || ((r =? 2 ^ n) && Z.odd q) then q + 1 else q.

(** [N] rounded to 53 significant bits. *)
Definition rnd (N : Z) : Z :=
  let S := Z.max (digits N - 53) 0 in rne N S * 2 ^ S.

(** What infinity reads as: [2 ^ 1024] in units of [2 ^ -1074]. *)
Definition TOP : Z := 2 ^ 2098.

(** The float as a multiple of [2 ^ -1074]; the sign is left out. *)
Definition Zval (x : spec_float) : Z :=
  match x with
  | S754_zero _ => 0
  | S754_finite _ m e => Z.pos m * 2 ^ (e + 1074)
  | S754_infinity _ => TOP
  | S754_nan => 0
  end.

(** Not NaN, and zero or of positive sign. *)
Definition nonneg (x : spec_float) : bool :=
  match x with
  | S754_zero _ => true
  | S754_finite s _ _ => negb s
  | S754_infinity s => negb s
  | S754_nan => false
  end.

(** A float of the format (not just a mantissa and an exponent) that is not
    negative. *)
Definition okSF (x : spec_float) : Prop :=
  nonneg x = true /\ valid_binary x = true.

(** Float addition on these floats, as a function on integers. *)
Definition addv (a b : Z) : Z := Z.min (rnd (a + b)) TOP.

(** The floats the optimality proof covers: not NaN, and not below zero. *)
Definition nonneg_float (x : float) : Prop := nonneg (Prim2SF x) = true.

(** *** Instances used as examples *)

(** Scenario 4 of the specification in exact arithmetic. *)
Definition scenario4_utilities : list Qc :=
  map (fun z => Q2Qc (inject_Z z)) [10; 6; 8; 15; 5].

(** The same utilities as binary64 floats. *)
Definition scenario4_floats : list float := [10; 6; 8; 15; 5]%float.

(** The utilities 0.3, 0.2 and 0.1 as binary64 floats. *)
Definition rounding_utilities : list float :=
  [0x1.3333333333333p-2; 0x1.999999999999ap-3; 0x1.999999999999ap-4]%float.

(** A [random] that always draws the least value allowed; it keeps no
    state. *)
Definition least_random : random_module unit := {|
  seed := fun _ => tt;
  randint := fun a _ g => (a, g);
  uniform := fun a _ g => (a, g)
|}.

(** * Proofs *)

(** ** The comparison laws on binary64 *)

Lemma SFcompare_Lt_swap (a b : spec_float) :
  SFcompare a b = Some Lt -> SFcompare b a = Some Gt.
Proof.
  destruct a as [sa| sa | |sa ma ea], b as [sb|sb| |sb mb eb]; simpl;
    try discriminate; try (destruct sa; try destruct sb; simpl; congruence).
  change (PosDef.Pos.compare_cont Eq ma mb) with (ma ?= mb)%positive.
  change (PosDef.Pos.compare_cont Eq mb ma) with (mb ?= ma)%positive.
  rewrite (Z.compare_antisym ea eb), (Pos.compare_antisym ma mb).
  destruct sa, sb, (ea ?= eb)%Z, (ma ?= mb)%positive; simpl; congruence.
Qed.

Lemma SFcompare_Lt_refl (a b : spec_float) :
  SFcompare a b = Some Lt -> SFcompare b b = Some Eq.
Proof.
  destruct a as [sa| sa | |sa ma ea], b as [sb|sb| |sb mb eb]; simpl;
    try discriminate; intros _; try (destruct sb; reflexivity).
  all: change (PosDef.Pos.compare_cont Eq mb mb) with (mb ?= mb)%positive;
    rewrite Z.compare_refl, Pos.compare_refl; destruct sb; reflexivity.
Qed.

#[export] Instance float_CmpLaws : CmpLaws float.
Proof.
  split.
  - reflexivity.
  - intros a b. simpl. rewrite FloatAxioms.ltb_spec, FloatAxioms.eqb_spec. unfold SFltb, SFeqb.
    destruct (SFcompare (Prim2SF a) (Prim2SF b)) as [[]|] eqn:E; try discriminate.
    intros _. now rewrite (SFcompare_Lt_refl _ _ E).
  - intros a b. simpl. rewrite FloatAxioms.ltb_spec, FloatAxioms.eqb_spec. unfold SFltb, SFeqb.
    destruct (SFcompare (Prim2SF a) (Prim2SF b)) as [[]|] eqn:E; try discriminate.
    intros _. now rewrite (SFcompare_Lt_swap _ _ E).
Qed.

(** ** Addition of binary64 floats that are not negative is monotone

    [binary_round], the rounding step of the float addition, is followed
    through its shifts: on integers it is [rnd], which is monotone. *)

(** *** Powers of two and binary digits *)

Lemma pow2_pos (n : Z) : 0 <= n -> 0 < 2 ^ n.
Proof. intros Hn. now apply Z.pow_pos_nonneg. Qed.

Lemma pow2_le (a b : Z) : 0 <= a <= b -> 2 ^ a <= 2 ^ b.
Proof. intros H. apply Z.pow_le_mono_r; lia. Qed.

Lemma pow2_lt (a b : Z) : 0 <= a < b -> 2 ^ a < 2 ^ b.
Proof. intros H. apply Z.pow_lt_mono_r; lia. Qed.

Lemma pow2_split (a b : Z) : 0 <= a <= b -> 2 ^ b = 2 ^ (b - a) * 2 ^ a.
Proof. intros H. rewrite <- Z.pow_add_r by lia. f_equal. lia. Qed.

Lemma digits2_pos_size (p : positive) : digits2_pos p = Pos.size p.
Proof. induction p; simpl; congruence. Qed.

Lemma Zdigits2_digits (p : positive) : Zpos (digits2_pos p) = digits (Zpos p).
Proof.
  unfold digits. rewrite digits2_pos_size. destruct p; simpl; lia.
Qed.

Lemma digits_bounds (n : Z) : 0 < n -> 2 ^ (digits n - 1) <= n < 2 ^ digits n.
Proof.
  intros Hn. unfold digits. replace (Z.log2 n + 1 - 1) with (Z.log2 n) by lia.
  replace (Z.log2 n + 1) with (Z.succ (Z.log2 n)) by lia. now apply Z.log2_spec.
Qed.

Lemma digits_unique (n d : Z) : 0 < d -> 2 ^ (d - 1) <= n < 2 ^ d -> digits n = d.
Proof.
  intros Hd Hn. unfold digits.
  rewrite (Z.log2_unique n (d - 1)); [lia|lia|].
  now replace (Z.succ (d - 1)) with d by lia.
Qed.

Lemma digits_pos (n : Z) : 0 < digits n.
Proof. unfold digits. pose proof (Z.log2_nonneg n). lia. Qed.

Lemma digits_le (a b : Z) : a <= b -> digits a <= digits b.
Proof. intros H. unfold digits. pose proof (Z.log2_le_mono a b H). lia. Qed.

(** *** Shifting right and rounding to nearest, ties to even *)

Lemma iter_pos_nat {A : Type} (f : A -> A) (p : positive) (x : A) :
  SpecFloat.iter_pos f p x = Nat.iter (Pos.to_nat p) f x.
Proof.
  revert x. induction p as [p IH|p IH|]; intros x; cbn [SpecFloat.iter_pos].
  - rewrite !IH. rewrite Pos2Nat.inj_xI.
    replace (S (2 * Pos.to_nat p)) with (Pos.to_nat p + (Pos.to_nat p + 1))%nat by lia.
    rewrite !Nat.iter_add. reflexivity.
  - rewrite !IH. rewrite Pos2Nat.inj_xO.
    replace (2 * Pos.to_nat p)%nat with (Pos.to_nat p + Pos.to_nat p)%nat by lia.
    now rewrite Nat.iter_add.
  - reflexivity.
Qed.

Lemma shr_1_nonneg (m : Z) (r s : bool) :
  0 <= m ->
  shr_1 {| shr_m := m; shr_r := r; shr_s := s |} =
  {| shr_m := m / 2; shr_r := Z.odd m; shr_s := r || s |}.
Proof.
  intros Hm. destruct m as [|p|p]; [reflexivity| |lia].
  destruct p as [p|p|]; simpl.
  - f_equal. rewrite Pos2Z.inj_xI. apply Z.div_unique with 1; lia.
  - f_equal. rewrite Pos2Z.inj_xO. apply Z.div_unique with 0; lia.
  - reflexivity.
Qed.

(** The record after [n] right shifts of [m]: quotient, round bit, sticky bit. *)
Lemma shr_iter (m : Z) (n : nat) :
  0 <= m ->
  Nat.iter n shr_1 {| shr_m := m; shr_r := false; shr_s := false |} =
  {| shr_m := m / 2 ^ Z.of_nat n;
     shr_r := 2 ^ Z.of_nat n <=? 2 * (m mod 2 ^ Z.of_nat n);
     shr_s := negb (m mod 2 ^ Z.of_nat n =? 0)
              && negb (2 * (m mod 2 ^ Z.of_nat n) =? 2 ^ Z.of_nat n) |}.
Proof.
  intros Hm. induction n as [|n IH].
  - simpl. rewrite Z.div_1_r, Z.mod_1_r. reflexivity.
  - rewrite Nat.iter_succ, IH.
    assert (Hp : 0 < 2 ^ Z.of_nat n) by (apply pow2_pos; lia).
    rewrite shr_1_nonneg by (apply Z.div_pos; lia).
    rewrite Nat2Z.inj_succ, Z.pow_succ_r by lia.
    set (P := 2 ^ Z.of_nat n) in *.
    pose proof (Z.div_mod m P ltac:(lia)) as Hdm.
    pose proof (Z.mod_pos_bound m P Hp) as Hrem.
    set (q := m / P) in *. set (r := m mod P) in *.
    pose proof (Z.div_mod q 2 ltac:(lia)) as Hq2.
    pose proof (Z.mod_pos_bound q 2 ltac:(lia)) as Hq2b.
    assert (Hdiv : m / (2 * P) = q / 2).
    { symmetry. apply Z.div_unique with (r + (q mod 2) * P); nia. }
    assert (Hmod : m mod (2 * P) = r + (q mod 2) * P).
    { symmetry. apply Z.mod_unique with (q / 2); nia. }
    rewrite Hdiv, Hmod. rewrite Zodd_mod.
    assert (Hb : q mod 2 = 0 \/ q mod 2 = 1) by lia.
    destruct Hb as [-> | ->]; rewrite ?Z.mul_0_l, ?Z.mul_1_l, ?Z.add_0_r; f_equal.
    + cbn. destruct (Z.leb_spec (2 * P) (2 * r)); [lia|reflexivity].
    + destruct (Z.leb_spec P (2 * r)), (Z.eqb_spec r 0), (Z.eqb_spec (2 * r) P),
        (Z.eqb_spec (2 * r) (2 * P)); simpl; try reflexivity; lia.
    + cbn. destruct (Z.leb_spec (2 * P) (2 * (r + P))); [reflexivity|lia].
    + destruct (Z.leb_spec P (2 * r)), (Z.eqb_spec r 0), (Z.eqb_spec (2 * r) P),
        (Z.eqb_spec (r + P) 0), (Z.eqb_spec (2 * (r + P)) (2 * P));
        simpl; try reflexivity; lia.
Qed.

Lemma round_shr (m : Z) (n : nat) :
  0 <= m ->
  let R := Nat.iter n shr_1 {| shr_m := m; shr_r := false; shr_s := false |} in
  round_nearest_even (shr_m R) (loc_of_shr_record R) = rne m (Z.of_nat n).
Proof.
  intros Hm R. unfold R. rewrite shr_iter by assumption. unfold rne. simpl.
  assert (Hp : 0 < 2 ^ Z.of_nat n) by (apply pow2_pos; lia).
  set (P := 2 ^ Z.of_nat n) in *.
  pose proof (Z.mod_pos_bound m P Hp) as Hrem.
  set (q := m / P) in *. set (r := m mod P) in *.
  rewrite <- Z.negb_even.
  destruct (Z.leb_spec P (2 * r)), (Z.eqb_spec r 0), (Z.eqb_spec (2 * r) P),
    (Z.ltb_spec P (2 * r)); simpl; try reflexivity; try lia.
  all: destruct (Z.even q); reflexivity.
Qed.

Lemma rne_0 (m : Z) : rne m 0 = m.
Proof.
  unfold rne. rewrite Z.pow_0_r, Z.div_1_r, Z.mod_1_r. reflexivity.
Qed.

Lemma rne_bounds (m n : Z) : m / 2 ^ n <= rne m n <= m / 2 ^ n + 1.
Proof.
  unfold rne. destruct (_ || _); lia.
Qed.

Lemma rne_scale (m n k : Z) :
  0 <= n -> 0 <= k -> rne (m * 2 ^ k) (n + k) = rne m n.
Proof.
  intros Hn Hk. unfold rne. rewrite Z.pow_add_r by assumption.
  pose proof (pow2_pos n Hn) as HP. pose proof (pow2_pos k Hk) as HK.
  rewrite Z.div_mul_cancel_r by lia.
  rewrite Z.mul_mod_distr_r by lia.
  set (P := 2 ^ n) in *. set (K := 2 ^ k) in *. set (r := m mod P).
  replace (P * K <? 2 * (r * K)) with (P <? 2 * r)
    by (destruct (Z.ltb_spec P (2 * r)), (Z.ltb_spec (P * K) (2 * (r * K))); try reflexivity; nia).
  replace (2 * (r * K) =? P * K) with (2 * r =? P)
    by (destruct (Z.eqb_spec (2 * r) P), (Z.eqb_spec (2 * (r * K)) (P * K)); try reflexivity; nia).
  reflexivity.
Qed.

Lemma rne_multiple (m k : Z) : 0 <= k -> rne (m * 2 ^ k) k = m.
Proof.
  intros Hk. rewrite <- (rne_0 m) at 2. now apply (rne_scale m 0 k).
Qed.

(** Rounding to nearest keeps the order. *)
Lemma rne_mono (m m' n : Z) : 0 <= n -> m <= m' -> rne m n <= rne m' n.
Proof.
  intros Hn Hm. pose proof (pow2_pos n Hn) as HP.
  assert (Hq : m / 2 ^ n <= m' / 2 ^ n) by (apply Z.div_le_mono; lia).
  destruct (Z.eq_dec (m / 2 ^ n) (m' / 2 ^ n)) as [Heq|Hne].
  - unfold rne. rewrite <- Heq.
    pose proof (Z.div_mod m (2 ^ n) ltac:(lia)) as H1.
    pose proof (Z.div_mod m' (2 ^ n) ltac:(lia)) as H2.
    rewrite <- Heq in H2.
    set (P := 2 ^ n) in *. set (q := m / P) in *.
    set (r := m mod P) in *. set (r' := m' mod P) in *.
    assert (Hr : r <= r') by nia.
    destruct (Z.ltb_spec P (2 * r)), (Z.ltb_spec P (2 * r')),
      (Z.eqb_spec (2 * r) P), (Z.eqb_spec (2 * r') P), (Z.odd q); simpl; lia.
  - pose proof (rne_bounds m n). pose proof (rne_bounds m' n). lia.
Qed.

(** *** Rounding an integer to 53 significant bits *)

Lemma digits_shift (m k : Z) : 0 < m -> 0 <= k -> digits (m * 2 ^ k) = digits m + k.
Proof.
  intros Hm Hk. pose proof (digits_bounds m Hm) as Hb. pose proof (digits_pos m) as Hd.
  apply digits_unique; [lia|].
  replace (digits m + k - 1) with (digits m - 1 + k) by lia.
  rewrite !Z.pow_add_r by lia. pose proof (pow2_pos k Hk). nia.
Qed.

(** A value of at most 53 significant bits is left alone. *)
Lemma rnd_fix (m k : Z) :
  0 < m -> digits m <= 53 -> 0 <= k -> rnd (m * 2 ^ k) = m * 2 ^ k.
Proof.
  intros Hm Hd Hk. unfold rnd. rewrite digits_shift by assumption.
  set (S := Z.max (digits m + k - 53) 0).
  assert (HS : 0 <= S <= k) by lia.
  rewrite (pow2_split S k) by lia. rewrite Z.mul_assoc.
  rewrite rne_multiple by lia. reflexivity.
Qed.

Lemma rnd_range (N d : Z) :
  0 < d -> 2 ^ (d - 1) <= N < 2 ^ d -> 2 ^ (d - 1) <= rnd N <= 2 ^ d.
Proof.
  intros Hd HN.
  assert (HNpos : 0 < N) by (pose proof (pow2_pos (d - 1)); lia).
  unfold rnd. rewrite (digits_unique N d Hd HN).
  set (S := Z.max (d - 53) 0). assert (HS : 0 <= S <= d - 1) by lia.
  pose proof (pow2_pos S ltac:(lia)) as HP.
  split.
  - rewrite (pow2_split S (d - 1)) by lia.
    apply Z.mul_le_mono_nonneg_r; [lia|].
    rewrite <- (rne_multiple (2 ^ (d - 1 - S)) S) by lia.
    apply rne_mono; [lia|]. rewrite <- pow2_split by lia. lia.
  - rewrite (pow2_split S d) by lia.
    apply Z.mul_le_mono_nonneg_r; [lia|].
    pose proof (rne_bounds N S) as Hb.
    assert (N / 2 ^ S < 2 ^ (d - S)); [|lia].
    apply Z.div_lt_upper_bound; [lia|]. rewrite Z.mul_comm, <- pow2_split by lia. lia.
Qed.

(** Rounding to 53 significant bits keeps the order. *)
Lemma rnd_mono (N N' : Z) : 0 < N -> N <= N' -> rnd N <= rnd N'.
Proof.
  intros HN Hle.
  pose proof (digits_bounds N HN) as Hb. pose proof (digits_bounds N' ltac:(lia)) as Hb'.
  pose proof (digits_pos N) as Hd. pose proof (digits_pos N') as Hd'.
  pose proof (digits_le N N' Hle) as Hdd.
  destruct (Z.eq_dec (digits N) (digits N')) as [Heq|Hne].
  - unfold rnd. rewrite <- Heq.
    apply Z.mul_le_mono_nonneg_r; [apply Z.lt_le_incl, pow2_pos; lia|].
    apply rne_mono; lia.
  - pose proof (rnd_range N (digits N) Hd Hb) as H1.
    pose proof (rnd_range N' (digits N') Hd' Hb') as H2.
    pose proof (pow2_le (digits N) (digits N' - 1) ltac:(lia)). lia.
Qed.

(** *** What [binary_round] computes *)

Lemma shl_align_spec (mx : positive) (ex ex' : Z) :
  let '(mz, ez) := shl_align mx ex ex' in
  ez = Z.min ex ex' /\ Z.pos mz = Z.pos mx * 2 ^ (ex - ez).
Proof.
  unfold shl_align. destruct (ex' - ex) as [|d|d] eqn:Hd.
  - split; [lia|]. replace (ex - ex) with 0 by lia. lia.
  - split; [lia|]. replace (ex - ex) with 0 by lia. lia.
  - split; [lia|]. replace (ex - ex') with (Z.pos d) by lia.
    change (PosDef.Pos.iter xO mx d) with (shift_pos d mx).
    rewrite shift_pos_correct, Z.pow_pos_fold. lia.
Qed.

(** [shr_fexp] drops the bits below the exponent [fexp] asks for; rounding
    what it leaves is [rne]. *)
Lemma shr_fexp_spec (m e : Z) :
  0 < m ->
  let '(R, e') := shr_fexp prec emax m e loc_Exact in
  let n := Z.max (Z.max (digits m + e - 53) (-1074) - e) 0 in
  e' = e + n /\ shr_m R = m / 2 ^ n /\
  round_nearest_even (shr_m R) (loc_of_shr_record R) = rne m n.
Proof.
  intros Hm. unfold shr_fexp, fexp.
  change (SpecFloat.emin prec emax) with (-1074). change prec with 53.
  replace (Zdigits2 m) with (digits m)
    by (destruct m as [|p|p]; try lia; symmetry; apply Zdigits2_digits).
  change (IntDef.Z.max) with Z.max.
  set (k := Z.max (digits m + e - 53) (-1074) - e).
  unfold shr. destruct k as [|p|p] eqn:Hk.
  - cbn [Z.max Z.compare]. rewrite Z.add_0_r, Z.pow_0_r, Z.div_1_r, rne_0. now cbn.
  - replace (Z.max (Z.pos p) 0) with (Z.pos p) by lia.
    rewrite iter_pos_nat. cbn [shr_record_of_loc].
    rewrite <- (positive_nat_Z p).
    pose proof (round_shr m (Pos.to_nat p) ltac:(lia)) as Hr. cbn zeta in Hr.
    rewrite shr_iter in Hr |- * by lia.
    split; [reflexivity|]. split; [reflexivity|]. exact Hr.
  - replace (Z.max (Z.neg p) 0) with 0 by lia.
    rewrite Z.add_0_r, Z.pow_0_r, Z.div_1_r, rne_0. now cbn.
Qed.

Lemma rne_range (m n d : Z) :
  0 <= n -> n < d -> 2 ^ (d - 1) <= m < 2 ^ d ->
  2 ^ (d - 1 - n) <= rne m n <= 2 ^ (d - n).
Proof.
  intros Hn Hd Hm. pose proof (pow2_pos n Hn) as HP. split.
  - rewrite <- (rne_multiple (2 ^ (d - 1 - n)) n) by lia.
    apply rne_mono; [lia|]. rewrite <- pow2_split by lia. lia.
  - pose proof (rne_bounds m n) as Hb.
    assert (m / 2 ^ n < 2 ^ (d - n)); [|lia].
    apply Z.div_lt_upper_bound; [lia|]. rewrite Z.mul_comm, <- pow2_split by lia. lia.
Qed.

Lemma TOP_split (a : Z) : 0 <= a <= 2098 -> TOP = 2 ^ a * 2 ^ (2098 - a).
Proof.
  intros Ha. unfold TOP. rewrite <- Z.pow_add_r by lia. f_equal. lia.
Qed.

Lemma below_TOP (m e : Z) : 0 < m < 2 ^ 53 -> -1074 <= e <= 971 -> m * 2 ^ (e + 1074) < TOP.
Proof.
  intros Hm He. rewrite (TOP_split 53) by lia.
  pose proof (pow2_le (e + 1074) (2098 - 53) ltac:(lia)).
  pose proof (pow2_pos (e + 1074) ltac:(lia)). nia.
Qed.

Lemma above_TOP (m e : Z) : 2 ^ 52 <= m -> 971 < e -> TOP <= m * 2 ^ (e + 1074).
Proof.
  intros Hm He. rewrite (TOP_split 52) by lia.
  pose proof (pow2_le (2098 - 52) (e + 1074) ltac:(lia)).
  pose proof (pow2_pos (2098 - 52) ltac:(lia)). pose proof (pow2_pos 52 ltac:(lia)). nia.
Qed.

Lemma bounded_intro (m : Z) (p : positive) (e : Z) :
  Z.pos p = m -> 0 < m < 2 ^ 53 -> (-1074 < e -> 2 ^ 52 <= m) -> -1074 <= e <= 971 ->
  bounded prec emax p e = true.
Proof.
  intros Hp Hm Hnorm He. unfold bounded, canonical_mantissa, fexp.
  rewrite Zdigits2_digits, Hp.
  change (SpecFloat.emin prec emax) with (-1074). change prec with 53.
  change emax with 1024. change (IntDef.Z.max) with Z.max.
  apply andb_true_iff. split; [apply Z.eqb_eq|apply Z.leb_le; lia].
  assert (Hd : digits m <= 53).
  { pose proof (digits_bounds m ltac:(lia)) as Hb. pose proof (digits_pos m).
    destruct (Z_le_gt_dec (digits m) 53) as [Hle|Hgt]; [exact Hle|].
    pose proof (pow2_le 53 (digits m - 1) ltac:(lia)). lia. }
  destruct (Z_le_gt_dec e (-1074)) as [Hmin|Hmin]; [lia|].
  rewrite (digits_unique m 53); [lia|lia|]. split; [apply Hnorm; lia|lia].
Qed.

(** [binary_round] of [mx * 2 ^ ex], read as an integer: the value rounded
    to 53 significant bits, or infinity when that is beyond the finite
    floats; the result is a float of the format. *)
Lemma binary_round_full (mx : positive) (ex : Z) :
  -1074 <= ex ->
  let r := binary_round prec emax false mx ex in
  nonneg r = true /\ Zval r = Z.min (rnd (Z.pos mx * 2 ^ (ex + 1074))) TOP /\
  valid_binary r = true.
Proof.
  intros Hex. cbn zeta. unfold binary_round.
  pose proof (shl_align_spec mx ex (fexp prec emax (Z.pos (digits2_pos mx) + ex))) as Hal.
  destruct (shl_align _ _ _) as [mz ez].
  rewrite Zdigits2_digits in Hal. unfold fexp in Hal.
  change (SpecFloat.emin prec emax) with (-1074) in Hal. change prec with 53 in Hal.
  change (IntDef.Z.max) with Z.max in Hal.
  destruct Hal as [Hez Hmz].
  pose proof (digits_pos (Z.pos mx)) as Hdpos.
  set (d := digits (Z.pos mx)) in *.
  set (E := Z.max (d + ex - 53) (-1074)) in *.
  assert (Hdz : digits (Z.pos mz) = d + (ex - ez))
    by (rewrite Hmz; apply digits_shift; lia).
  unfold binary_round_aux.
  pose proof (shr_fexp_spec (Z.pos mz) ez ltac:(lia)) as H1.
  destruct (shr_fexp _ _ _ _ _) as [R1 e1]. cbn zeta in H1.
  rewrite Hdz in H1.
  replace (Z.max (Z.max (d + (ex - ez) + ez - 53) (-1074) - ez) 0) with (E - ez) in H1 by lia.
  destruct H1 as (He1 & _ & Hr1). rewrite Hr1.
  replace e1 with E by lia. clear He1 Hr1 R1 e1.
  set (n1 := E - ez) in *. set (m1 := rne (Z.pos mz) n1).
  set (d1 := d + ex - E).
  assert (Hd1 : 1 <= d1 <= 53) by lia.
  assert (Hm1 : 2 ^ (d1 - 1) <= m1 <= 2 ^ d1).
  { pose proof (digits_bounds (Z.pos mz) ltac:(lia)) as Hb. rewrite Hdz in Hb.
    pose proof (rne_range (Z.pos mz) n1 (d + (ex - ez)) ltac:(lia) ltac:(lia) Hb) as Hr.
    replace (d + (ex - ez) - 1 - n1) with (d1 - 1) in Hr by lia.
    replace (d + (ex - ez) - n1) with d1 in Hr by lia. exact Hr. }
  assert (Hm1pos : 0 < m1) by (pose proof (pow2_pos (d1 - 1)); lia).
  assert (Hrnd : rnd (Z.pos mx * 2 ^ (ex + 1074)) = m1 * 2 ^ (E + 1074)).
  { unfold rnd. rewrite digits_shift by lia. fold d.
    replace (Z.max (d + (ex + 1074) - 53) 0) with (E + 1074) by lia.
    f_equal.
    replace (Z.pos mx * 2 ^ (ex + 1074)) with (Z.pos mz * 2 ^ (ez + 1074))
      by (rewrite Hmz, <- Z.mul_assoc, <- Z.pow_add_r by lia; do 2 f_equal; lia).
    replace (E + 1074) with (n1 + (ez + 1074)) by lia.
    apply rne_scale; lia. }
  rewrite Hrnd. clear Hrnd.
  pose proof (shr_fexp_spec m1 E Hm1pos) as H2.
  destruct (shr_fexp _ _ _ _ _) as [R2 e2]. cbn zeta in H2.
  destruct H2 as (He2 & Hm2 & _).
  assert (Hcases : (e2 = E /\ shr_m R2 = m1 /\ m1 < 2 ^ 53 /\ (-1074 < E -> 2 ^ 52 <= m1))
                   \/ (e2 = E + 1 /\ shr_m R2 = 2 ^ 52 /\ m1 = 2 ^ 53)).
  { destruct (Z.eq_dec m1 (2 ^ d1)) as [Heq|Hne].
    - assert (Hdm : digits m1 = d1 + 1).
      { apply digits_unique; [lia|]. rewrite Heq. replace (d1 + 1 - 1) with d1 by lia.
        split; [lia|]. apply pow2_lt; lia. }
      rewrite Hdm in He2, Hm2.
      destruct (Z.eq_dec d1 53) as [H53|H53].
      + right. replace (Z.max (Z.max (d1 + 1 + E - 53) (-1074) - E) 0) with 1 in * by lia.
        split; [lia|]. split; [|now rewrite Heq, H53].
        rewrite Hm2, Heq, H53. reflexivity.
      + left. replace (Z.max (Z.max (d1 + 1 + E - 53) (-1074) - E) 0) with 0 in * by lia.
        rewrite Z.pow_0_r, Z.div_1_r in Hm2. split; [lia|]. split; [assumption|].
        split; [|lia]. rewrite Heq. apply pow2_lt; lia.
    - assert (Hdm : digits m1 = d1) by (apply digits_unique; lia).
      rewrite Hdm in He2, Hm2.
      left. replace (Z.max (Z.max (d1 + E - 53) (-1074) - E) 0) with 0 in * by lia.
      rewrite Z.pow_0_r, Z.div_1_r in Hm2. split; [lia|]. split; [assumption|]. split.
      + pose proof (pow2_le d1 53 ltac:(lia)). lia.
      + intros HE. replace d1 with 53 in Hm1 by lia. apply Hm1. }
  change (emax - prec) with 971.
  destruct Hcases as [(-> & Hs & Hlt & Hge) | (-> & Hs & Heq)].
  - destruct (shr_m R2) as [|p|p]; try lia. fold m1 in Hs.
    destruct (Z.leb_spec E 971) as [HE|HE]; cbn [nonneg negb Zval].
    + split; [reflexivity|]. rewrite Hs. split.
      * pose proof (below_TOP m1 E ltac:(lia) ltac:(lia)). lia.
      * apply (bounded_intro m1); [exact Hs|lia|exact Hge|lia].
    + split; [reflexivity|]. split; [|reflexivity].
      pose proof (above_TOP m1 E ltac:(lia) ltac:(lia)). lia.
  - destruct (shr_m R2) as [|p|p]; try (pose proof (pow2_pos 52); lia).
    assert (Hval : m1 * 2 ^ (E + 1074) = Z.pos p * 2 ^ (E + 1 + 1074)).
    { rewrite Hs, Heq. replace (E + 1 + 1074) with (1 + (E + 1074)) by lia.
      rewrite (Z.pow_add_r 2 1) by lia. replace 53 with (52 + 1) by lia.
      rewrite (Z.pow_add_r 2 52 1) by lia. lia. }
    rewrite Hval.
    destruct (Z.leb_spec (E + 1) 971) as [HE|HE]; cbn [nonneg negb Zval].
    + assert (Hp : 0 < Z.pos p < 2 ^ 53)
        by (rewrite Hs; split; [apply pow2_pos|apply pow2_lt]; lia).
      split; [reflexivity|]. split.
      * pose proof (below_TOP (Z.pos p) (E + 1) Hp ltac:(lia)). lia.
      * apply (bounded_intro (Z.pos p)); [reflexivity|exact Hp|lia|lia].
    + split; [reflexivity|]. split; [|reflexivity].
      pose proof (above_TOP (Z.pos p) (E + 1) ltac:(lia) ltac:(lia)). lia.
Qed.

Lemma binary_round_spec (mx : positive) (ex : Z) :
  -1074 <= ex ->
  let r := binary_round prec emax false mx ex in
  nonneg r = true /\ Zval r = Z.min (rnd (Z.pos mx * 2 ^ (ex + 1074))) TOP.
Proof.
  intros Hex. destruct (binary_round_full mx ex Hex) as (Hn & Hv & _). now split.
Qed.

(** *** Non-negative floats as integers *)

(** A valid finite float: exponent in range, at most 53 significant bits,
    exactly 53 unless the exponent is the least one. *)
Lemma bounded_spec (m : positive) (e : Z) :
  bounded prec emax m e = true ->
  -1074 <= e <= 971 /\ digits (Z.pos m) <= 53 /\ (-1074 < e -> digits (Z.pos m) = 53).
Proof.
  unfold bounded, canonical_mantissa, fexp. rewrite Zdigits2_digits.
  change (SpecFloat.emin prec emax) with (-1074). change prec with 53.
  change emax with 1024. change (IntDef.Z.max) with Z.max.
  intros H. apply andb_true_iff in H as [H1 H2].
  apply Z.eqb_eq in H1. apply Z.leb_le in H2. lia.
Qed.

Lemma TOP_pos : 0 < TOP.
Proof. apply pow2_pos. lia. Qed.

Lemma rnd_TOP : rnd TOP = TOP.
Proof.
  unfold TOP. rewrite <- (Z.mul_1_l (2 ^ 2098)). apply rnd_fix; [lia|cbv; congruence|lia].
Qed.

Lemma rnd_0 : rnd 0 = 0.
Proof. reflexivity. Qed.

Lemma Zval_finite (s : bool) (m : positive) (e : Z) :
  bounded prec emax m e = true ->
  0 < Zval (S754_finite s m e) < TOP /\
  rnd (Zval (S754_finite s m e)) = Zval (S754_finite s m e).
Proof.
  intros Hb. apply bounded_spec in Hb as (He & Hd & _). cbn [Zval].
  pose proof (digits_bounds (Z.pos m) ltac:(lia)) as Hm.
  pose proof (pow2_le (digits (Z.pos m)) 53 ltac:(pose proof (digits_pos (Z.pos m)); lia)).
  split; [split|].
  - pose proof (pow2_pos (e + 1074) ltac:(lia)). nia.
  - apply below_TOP; lia.
  - apply rnd_fix; lia.
Qed.

Lemma Zval_range (x : spec_float) : okSF x -> 0 <= Zval x <= TOP /\ rnd (Zval x) = Zval x.
Proof.
  intros [Hn Hv]. pose proof TOP_pos. destruct x as [s|s| |s m e]; cbn [Zval].
  - split; [lia|apply rnd_0].
  - split; [lia|apply rnd_TOP].
  - discriminate Hn.
  - pose proof (Zval_finite s m e Hv) as [H1 H2]. cbn [Zval] in H1, H2. split; [lia|assumption].
Qed.

(** Rounded addition keeps the order. *)
Lemma addv_mono (a b u : Z) : 0 <= a -> 0 <= u -> a <= b -> addv a u <= addv b u.
Proof.
  intros Ha Hu Hab. unfold addv.
  destruct (Z.eq_dec (a + u) 0) as [H0|H0].
  - rewrite H0, rnd_0. pose proof TOP_pos.
    destruct (Z.eq_dec (b + u) 0) as [H1|H1]; [rewrite H1, rnd_0; lia|].
    pose proof (rnd_mono 1 (b + u) ltac:(lia) ltac:(lia)) as Hm.
    change (rnd 1) with 1 in Hm. lia.
  - pose proof (rnd_mono (a + u) (b + u) ltac:(lia) ltac:(lia)). lia.
Qed.

Lemma addv_TOP_r (a : Z) : 0 <= a -> addv a TOP = TOP.
Proof.
  intros Ha. unfold addv. pose proof TOP_pos as HT.
  pose proof (rnd_mono TOP (a + TOP) HT ltac:(lia)) as H1.
  rewrite rnd_TOP in H1. lia.
Qed.

Lemma addv_TOP_l (a : Z) : 0 <= a -> addv TOP a = TOP.
Proof.
  intros Ha. unfold addv. rewrite Z.add_comm. now apply addv_TOP_r.
Qed.

Lemma addv_0_l (a : Z) : 0 <= a <= TOP -> rnd a = a -> addv 0 a = a.
Proof. intros Ha Hr. unfold addv. rewrite Z.add_0_l, Hr. lia. Qed.

Lemma addv_0_r (a : Z) : 0 <= a <= TOP -> rnd a = a -> addv a 0 = a.
Proof. intros Ha Hr. unfold addv. rewrite Z.add_0_r, Hr. lia. Qed.

Lemma SFadd_finite (mx my : positive) (ex ey : Z) :
  -1074 <= ex -> -1074 <= ey ->
  let r := SFadd prec emax (S754_finite false mx ex) (S754_finite false my ey) in
  nonneg r = true /\
  Zval r = addv (Z.pos mx * 2 ^ (ex + 1074)) (Z.pos my * 2 ^ (ey + 1074)).
Proof.
  intros Hex Hey. cbn zeta. cbn [SFadd cond_Zopp].
  change (IntDef.Z.min) with Z.min. set (ez := Z.min ex ey).
  pose proof (shl_align_spec mx ex ez) as Hax. pose proof (shl_align_spec my ey ez) as Hay.
  destruct (shl_align mx ex ez) as [ax ex']. destruct (shl_align my ey ez) as [ay ey'].
  destruct Hax as [Hex' Hax], Hay as [Hey' Hay]. cbn [fst].
  change (Z.pos ax + Z.pos ay) with (Z.pos (ax + ay)). cbn [binary_normalize].
  pose proof (binary_round_spec (ax + ay) ez ltac:(lia)) as [Hn Hv]. cbn zeta in Hn, Hv.
  split; [exact Hn|]. rewrite Hv. unfold addv. do 2 f_equal.
  rewrite Pos2Z.inj_add, Z.mul_add_distr_r, Hax, Hay, <- !Z.mul_assoc, <- !Z.pow_add_r by lia.
  do 3 f_equal; lia.
Qed.

(** The sum of two floats that are not negative is not negative, and reads
    as [addv] of what they read as. *)
Lemma SFadd_spec (x y : spec_float) :
  okSF x -> okSF y ->
  nonneg (SFadd prec emax x y) = true /\
  Zval (SFadd prec emax x y) = addv (Zval x) (Zval y).
Proof.
  intros Hx Hy. pose proof (Zval_range x Hx) as [Hrx Hfx].
  pose proof (Zval_range y Hy) as [Hry Hfy].
  destruct Hx as [Hnx Hvx], Hy as [Hny Hvy].
  destruct x as [sx|sx| |sx mx ex], y as [sy|sy| |sy my ey];
    try discriminate Hnx; try discriminate Hny; cbn [nonneg] in Hnx, Hny.
  - split; [destruct sx, sy; reflexivity|]. destruct sx, sy; reflexivity.
  - destruct sy; [discriminate Hny|]. split; [reflexivity|].
    cbn [SFadd Zval]. symmetry. apply addv_TOP_r. lia.
  - destruct sy; [discriminate Hny|]. split; [reflexivity|].
    cbn [SFadd]. symmetry. now apply addv_0_l.
  - destruct sx; [discriminate Hnx|]. split; [reflexivity|].
    cbn [SFadd Zval]. symmetry. apply addv_TOP_l. lia.
  - destruct sx, sy; try discriminate Hnx; try discriminate Hny. split; [reflexivity|].
    cbn [SFadd Zval]. symmetry. apply addv_TOP_l. apply Z.lt_le_incl, TOP_pos.
  - destruct sx; [discriminate Hnx|]. split; [reflexivity|].
    cbn [SFadd]. symmetry. apply addv_TOP_l. apply Hry.
  - destruct sx; [discriminate Hnx|]. split; [reflexivity|].
    cbn [SFadd]. symmetry. now apply addv_0_r.
  - destruct sy; [discriminate Hny|]. split; [reflexivity|].
    cbn [SFadd]. symmetry. apply addv_TOP_r. apply Hrx.
  - destruct sx, sy; try discriminate Hnx; try discriminate Hny.
    apply bounded_spec in Hvx as (Hex & _). apply bounded_spec in Hvy as (Hey & _).
    apply SFadd_finite; lia.
Qed.

Lemma scaled_lt (m m' d e e' : Z) :
  0 <= d <= 53 -> m < 2 ^ d -> 2 ^ (53 - 1) <= m' -> 0 <= e + 1074 -> e < e' ->
  m * 2 ^ (e + 1074) < m' * 2 ^ (e' + 1074).
Proof.
  intros Hd Hm Hm' He Hlt.
  pose proof (pow2_le d 53 ltac:(lia)) as H53.
  replace 53 with (52 + 1) in H53 by lia. rewrite Z.pow_add_r in H53 by lia.
  replace (53 - 1) with 52 in Hm' by lia.
  change (2 ^ 1) with 2 in H53.
  rewrite (pow2_split (e + 1074) (e' + 1074)) by lia.
  pose proof (pow2_pos (e + 1074) He) as HP.
  pose proof (pow2_le 1 (e' + 1074 - (e + 1074)) ltac:(lia)) as Hk.
  change (2 ^ 1) with 2 in Hk.
  set (T := 2 ^ 52) in *. set (K := 2 ^ (e' + 1074 - (e + 1074))) in *.
  set (P := 2 ^ (e + 1074)) in *.
  assert (HT : 0 < T) by (apply pow2_pos; lia).
  assert (H1 : m < m' * K) by nia.
  rewrite Z.mul_assoc. apply Z.mul_lt_mono_pos_r; assumption.
Qed.

(** Floats that are not negative compare as the integers they read as. *)
Lemma SFcompare_spec (x y : spec_float) :
  okSF x -> okSF y -> SFcompare x y = Some (Zval x ?= Zval y).
Proof.
  intros [Hnx Hvx] [Hny Hvy]. pose proof TOP_pos as HT.
  destruct x as [sx|sx| |sx mx ex], y as [sy|sy| |sy my ey];
    try discriminate Hnx; try discriminate Hny; cbn [nonneg] in Hnx, Hny;
    repeat match goal with
           | s : bool |- _ => destruct s; try discriminate Hnx; try discriminate Hny
           end;
    try (pose proof (Zval_finite false mx ex Hvx) as [Hfx _]);
    try (pose proof (Zval_finite false my ey Hvy) as [Hfy _]);
    cbn [SFcompare]; f_equal; symmetry.
  all: try (apply Z.compare_eq_iff; reflexivity).
  all: try (apply Z.compare_lt_iff; cbn [Zval] in *; lia).
  all: try (apply Z.compare_gt_iff; cbn [Zval] in *; lia).
  cbn [Zval] in *.
  apply bounded_spec in Hvx as (Hex & Hdx & Hnx').
  apply bounded_spec in Hvy as (Hey & Hdy & Hny').
  pose proof (digits_bounds (Z.pos mx) ltac:(lia)) as Hbx.
  pose proof (digits_bounds (Z.pos my) ltac:(lia)) as Hby.
  change (PosDef.Pos.compare_cont Eq mx my) with (mx ?= my)%positive.
  destruct (Z.compare_spec ex ey) as [Heq|Hlt|Hgt].
  - subst ey. rewrite Pos2Z.inj_compare.
    pose proof (pow2_pos (ex + 1074) ltac:(lia)).
    destruct (Z.compare_spec (Z.pos mx) (Z.pos my)) as [H1|H1|H1].
    + apply Z.compare_eq_iff. now rewrite H1.
    + apply Z.compare_lt_iff. nia.
    + apply Z.compare_gt_iff. nia.
  - apply Z.compare_lt_iff. rewrite Hny' in Hby by lia.
    apply (scaled_lt (Z.pos mx) (Z.pos my) (digits (Z.pos mx))); try lia.
    pose proof (digits_pos (Z.pos mx)). lia.
  - apply Z.compare_gt_iff. rewrite Hnx' in Hbx by lia.
    apply (scaled_lt (Z.pos my) (Z.pos mx) (digits (Z.pos my))); try lia.
    pose proof (digits_pos (Z.pos my)). lia.
Qed.

(** *** The order laws on binary64 floats that are not negative *)

Lemma nonneg_float_ok (x : float) : nonneg_float x -> okSF (Prim2SF x).
Proof. intros Hx. split; [exact Hx|apply Prim2SF_valid]. Qed.

Lemma float_ltb_Zval (a b : float) :
  nonneg_float a -> nonneg_float b ->
  (a <? b)%float = (Zval (Prim2SF a) <? Zval (Prim2SF b)).
Proof.
  intros Ha Hb. rewrite FloatAxioms.ltb_spec. unfold SFltb.
  now rewrite (SFcompare_spec _ _ (nonneg_float_ok a Ha) (nonneg_float_ok b Hb)).
Qed.

Lemma float_add_Zval (a b : float) :
  nonneg_float a -> nonneg_float b ->
  nonneg_float (a + b) /\
  Zval (Prim2SF (a + b)) = addv (Zval (Prim2SF a)) (Zval (Prim2SF b)).
Proof.
  intros Ha Hb. unfold nonneg_float. rewrite FloatAxioms.add_spec.
  apply SFadd_spec; now apply nonneg_float_ok.
Qed.

#[export] Instance float_OrderLaws : OrderLaws float nonneg_float.
Proof.
  split; unfold f_le; simpl.
  - reflexivity.
  - intros a b Ha Hb. now apply float_add_Zval.
  - intros a Ha. rewrite float_ltb_Zval by assumption. apply Z.ltb_irrefl.
  - intros a b Ha Hb. rewrite !float_ltb_Zval by assumption. lia.
  - intros a b c Ha Hb Hc. rewrite !float_ltb_Zval by assumption. lia.
  - intros a b u Ha Hb Hu.
    destruct (float_add_Zval a u Ha Hu) as [Hau Hvau].
    destruct (float_add_Zval b u Hb Hu) as [Hbu Hvbu].
    rewrite !float_ltb_Zval by assumption. rewrite Hvau, Hvbu. intros Hab.
    apply Z.ltb_ge. apply Z.ltb_ge in Hab.
    apply addv_mono; [apply Zval_range; now apply nonneg_float_ok ..|assumption].
Qed.

(** *** The laws on exact rationals *)

Lemma Qc_ltb_lt (a b : Qc) : Qc_ltb a b = true <-> (a < b)%Qc.
Proof.
  unfold Qc_ltb, Qclt, Qccompare. rewrite Qlt_alt.
  destruct (a ?= b)%Q; split; congruence.
Qed.

Lemma Qc_ltb_ge (a b : Qc) : Qc_ltb a b = false <-> (b <= a)%Qc.
Proof.
  split; intros Hab.
  - apply Qcnot_lt_le. intros Hlt. apply Qc_ltb_lt in Hlt. congruence.
  - destruct (Qc_ltb a b) eqn:E; [|reflexivity].
    apply Qc_ltb_lt in E. now apply Qcle_not_lt in Hab.
Qed.

#[export] Instance Qc_CmpLaws : CmpLaws Qc.
Proof.
  split.
  - reflexivity.
  - intros a b _. simpl. unfold Qc_eq_bool. destruct (Qcanon.Qc_eq_dec b b); [reflexivity|congruence].
  - intros a b Hab. simpl. apply Qc_ltb_lt in Hab.
    destruct (Qc_eq_bool b a) eqn:E; [|reflexivity].
    apply Qc_eq_bool_correct in E. apply Qclt_not_eq in Hab. congruence.
Qed.

#[export] Instance Qc_OrderLaws : OrderLaws Qc every.
Proof.
  split; unfold f_le, every; simpl.
  - exact I.
  - intros a b _ _. exact I.
  - intros a _. apply Qc_ltb_ge, Qcle_refl.
  - intros a b _ _ Hab. apply Qc_ltb_ge, Qclt_le_weak. now apply Qc_ltb_lt.
  - intros a b c _ _ _ Hab Hbc. apply Qc_ltb_ge. apply Qc_ltb_ge in Hab, Hbc.
    now apply Qcle_trans with b.
  - intros a b u _ _ _ Hab. apply Qc_ltb_ge. apply Qc_ltb_ge in Hab.
    now apply Qcplus_le_compat; [|apply Qcle_refl].
Qed.

#[export] Instance Qc_ExactLaws : ExactLaws Qc.
Proof.
  split; simpl.
  - apply Qcplus_comm.
  - apply Qcplus_assoc.
  - intros d. reflexivity.
Qed.

(** ** Python lists: the in-range cases *)

Lemma position_nat {A : Type} (l : list A) (k : nat) :
  (k < length l)%nat -> position l (Z.of_nat k) = Some k.
Proof.
  intros Hk. unfold position, len.
  destruct (Z.ltb_spec (Z.of_nat k) 0); [lia|].
  destruct (Z.leb_spec 0 (Z.of_nat k)); [|lia].
  destruct (Z.ltb_spec (Z.of_nat k) (Z.of_nat (length l))); [|lia].
  simpl. now rewrite Nat2Z.id.
Qed.

Lemma getitem_nat {A : Type} (l : list A) (k : nat) (x : A) :
  l !! k = Some x -> getitem l (Z.of_nat k) = Ok x.
Proof.
  intros Hx. unfold getitem.
  rewrite position_nat by (eapply lookup_lt_Some; eauto). now rewrite Hx.
Qed.

Lemma setitem_nat {A : Type} (l : list A) (k : nat) (v : A) :
  (k < length l)%nat -> setitem l (Z.of_nat k) v = Ok (<[k := v]> l).
Proof. intros Hk. unfold setitem. now rewrite position_nat. Qed.

Lemma getitem_nth (l : list Z) (k : nat) :
  (k < length l)%nat -> getitem l (Z.of_nat k) = Ok (nth k l 0).
Proof.
  intros Hk. apply getitem_nat. rewrite nth_lookup.
  apply lookup_lt_is_Some in Hk. destruct Hk as [x Hx]. now rewrite Hx.
Qed.

Lemma range_nat (n : nat) : range 0 (Z.of_nat n) = map Z.of_nat (seq 0 n).
Proof.
  unfold range. rewrite Z.sub_0_r, Nat2Z.id. apply map_ext. intros k. lia.
Qed.

Lemma range_empty (a b : Z) : b <= a -> range a b = [].
Proof.
  intros Hab. unfold range. now replace (Z.to_nat (b - a)) with 0%nat by lia.
Qed.

Lemma foldM_app {A S : Type} (body : S -> A -> result S) (xs ys : list A) (st : S) :
  foldM body (xs ++ ys) st = (st' <- foldM body xs st ;; foldM body ys st').
Proof.
  revert st. induction xs as [|x xs IH]; intros st; simpl; [reflexivity|].
  destruct (body st x); simpl; [apply IH|reflexivity].
Qed.

Lemma mapM_map {A B C : Type} (f : B -> result C) (h : A -> B) (g : A -> C)
    (xs : list A) :
  Forall (fun x => f (h x) = Ok (g x)) xs -> mapM f (map h xs) = Ok (map g xs).
Proof.
  induction 1 as [|x xs Hx _ IH]; simpl; [reflexivity|].
  now rewrite Hx, IH.
Qed.

(** ** The sort permutes its input *)

Section SortFacts.
Context {A K : Type} (lt : K -> K -> bool) (key : A -> K).

Lemma insert_sorted_perm (x : A) (l : list A) :
  Permutation (insert_sorted lt key x l) (x :: l).
Proof.
  induction l as [|y l IH]; simpl; [reflexivity|].
  destruct (lt (key y) (key x)); [|reflexivity].
  rewrite IH. apply perm_swap.
Qed.

Lemma list_sort_perm (l : list A) : Permutation (list_sort lt key l) l.
Proof.
  induction l as [|x l IH]; simpl; [reflexivity|].
  rewrite insert_sorted_perm. now constructor.
Qed.

Lemma list_sort_reverse_perm (l : list A) :
  Permutation (list_sort_reverse lt key l) l.
Proof.
  unfold list_sort_reverse.
  rewrite <- Permutation_rev, list_sort_perm. symmetry. apply Permutation_rev.
Qed.

End SortFacts.

(** The stable descending arrangement has the properties of [SortLaws]. *)
Lemma stable_sort_laws : SortLaws (Srt := stable_sort).
Proof.
  split; intros A K lt key l.
  - apply list_sort_reverse_perm.
  - reflexivity.
Qed.

(** ** The greedy allocator *)

Section Greedy.
Context {U : Type} {F : PyFloat U} {Srt : PySort} {HS : SortLaws}.

Lemma getitem_nth_U (l : list U) (k : nat) :
  (k < length l)%nat -> getitem l (Z.of_nat k) = Ok (nth k l f_zero).
Proof.
  intros Hk. apply getitem_nat. rewrite nth_lookup.
  apply lookup_lt_is_Some in Hk. destruct Hk as [x Hx]. now rewrite Hx.
Qed.

Lemma truediv_ok (u : U) (d : Z) :
  d <> 0 -> converts U d -> truediv u d = Ok (f_div u (to_float d)).
Proof.
  intros Hd Hconv. unfold truediv, int_to_float. rewrite Hconv. simpl.
  destruct (Z.eqb_spec d 0); [contradiction|reflexivity].
Qed.

Lemma make_users_ok (demands : list Z) (utilities : list U) :
  (length demands <= length utilities)%nat ->
  Forall (fun d => d <> 0) demands ->
  Forall (converts U) demands ->
  make_users demands utilities = Ok (users_of demands utilities).
Proof.
  intros Hlen Hnz Hconv. unfold make_users, users_of, len. rewrite range_nat.
  apply mapM_map. apply List.Forall_forall. intros k Hk. apply in_seq in Hk.
  rewrite getitem_nth_U by lia. simpl. rewrite getitem_nth by lia. simpl.
  rewrite List.Forall_forall in Hnz, Hconv.
  rewrite truediv_ok by (first [apply Hnz|apply Hconv]; apply nth_In; lia).
  reflexivity.
Qed.

Lemma greedy_loop (demands : list Z) (utilities : list U) (capacity : Z)
    (users : list (Z * U)) (st : greedy_state) :
  (length demands <= length utilities)%nat ->
  length (allocations st) = length demands ->
  Forall (fun user => exists k, fst user = Z.of_nat k /\ (k < length demands)%nat) users ->
  foldM (greedy_step demands utilities capacity) users st =
  Ok (let acc := greedy_accept demands capacity (used_capacity st)
                   (map (fun user => Z.to_nat (fst user)) users) in
      {| allocations := mark acc (allocations st);
         used_capacity := used_capacity st + demand_of demands acc;
         total_utility := utility_in_order utilities acc (total_utility st) |}).
Proof.
  intros Hlen Hst Husers. revert st Hst.
  induction Husers as [|user users [k [Hk Hkn]] _ IH]; intros st Hst.
  - destruct st; simpl. now rewrite Z.add_0_r.
  - simpl. unfold greedy_step at 1. rewrite Hk, Nat2Z.id.
    rewrite getitem_nth by assumption. simpl.
    destruct (used_capacity st + nth k demands 0 <=? capacity).
    + rewrite setitem_nat by lia. simpl.
      rewrite getitem_nth_U by lia. simpl.
      rewrite IH by (simpl; now rewrite length_insert).
      simpl. f_equal. f_equal. lia.
    + simpl. now rewrite IH.
Qed.

Lemma greedy_accept_sublist (demands : list Z) (capacity used : Z) (idxs : list nat) :
  sublist (greedy_accept demands capacity used idxs) idxs.
Proof.
  revert used. induction idxs as [|k idxs IH]; intros used; simpl; [constructor|].
  destruct (used + nth k demands 0 <=? capacity).
  - apply sublist_skip, IH.
  - apply sublist_cons, IH.
Qed.

Lemma greedy_accept_fits (demands : list Z) (capacity used : Z) (idxs : list nat) :
  used <= capacity ->
  used + demand_of demands (greedy_accept demands capacity used idxs) <= capacity.
Proof.
  revert used. induction idxs as [|k idxs IH]; intros used Hused; simpl; [lia|].
  destruct (Z.leb_spec (used + nth k demands 0) capacity) as [Hfit|_].
  - simpl. specialize (IH _ Hfit). lia.
  - now apply IH.
Qed.

Lemma greedy_order_perm (demands : list Z) (utilities : list U) :
  Permutation (greedy_order demands utilities) (seq 0 (length demands)).
Proof.
  unfold greedy_order, users_of. rewrite sort_permutes, map_map. simpl.
  erewrite map_ext; [now rewrite map_id|]. intros k. simpl. apply Nat2Z.id.
Qed.

Lemma greedy_run (demands : list Z) (utilities : list U) (capacity : Z) :
  (length demands <= length utilities)%nat ->
  Forall (fun d => d <> 0) demands ->
  Forall (converts U) demands ->
  greedy_bandwidth_allocation demands utilities capacity =
  Ok (let acc := greedy_accept demands capacity 0 (greedy_order demands utilities) in
      (mark acc (replicate (length demands) 0), utility_in_order utilities acc f_zero)).
Proof.
  intros Hlen Hnz Hconv. unfold greedy_bandwidth_allocation.
  rewrite make_users_ok by assumption. simpl.
  rewrite greedy_loop.
  - simpl. unfold len. now rewrite Nat2Z.id.
  - assumption.
  - simpl. unfold len. now rewrite Nat2Z.id, length_replicate.
  - apply List.Forall_forall. intros user Huser.
    apply (Permutation_in _ (sort_permutes _ _ _ _ _)) in Huser.
    apply in_map_iff in Huser. destruct Huser as [k [<- Hk]].
    apply in_seq in Hk. exists k. simpl. split; [reflexivity|lia].
Qed.

End Greedy.

(** *** Marking accepted candidates *)

Lemma length_mark (acc : list nat) (a : list Z) : length (mark acc a) = length a.
Proof.
  revert a. induction acc as [|k acc IH]; intros a; simpl; [reflexivity|].
  unfold mark in IH. now rewrite IH, length_insert.
Qed.

Lemma binary_mark (acc : list nat) (a : list Z) : binary a -> binary (mark acc a).
Proof.
  revert a. induction acc as [|k acc IH]; intros a Ha; simpl; [assumption|].
  apply IH. apply Forall_insert; [assumption|now right].
Qed.

Lemma mark_lookup_notin (acc : list nat) (a : list Z) (k : nat) :
  ~ In k acc -> mark acc a !! k = a !! k.
Proof.
  revert a. induction acc as [|j acc IH]; intros a Hin; simpl; [reflexivity|].
  unfold mark in IH. rewrite IH by (intros Hk; apply Hin; now right).
  apply list_lookup_insert_ne. intros ->. apply Hin. now left.
Qed.

Lemma mark_lookup_in (acc : list nat) (a : list Z) (k : nat) :
  In k acc -> (k < length a)%nat -> mark acc a !! k = Some 1.
Proof.
  revert a. induction acc as [|j acc IH]; intros a Hin Hk; [destruct Hin|].
  simpl. destruct (in_dec Nat.eq_dec k acc) as [Hacc|Hacc].
  - apply IH; [assumption|now rewrite length_insert].
  - destruct Hin as [->|Hin]; [|contradiction].
    fold (mark acc (<[k := 1]> a)). rewrite mark_lookup_notin by assumption.
    now apply list_lookup_insert_eq.
Qed.

Lemma allocation_demand_insert (demands a : list Z) (k : nat) :
  a !! k = Some 0 ->
  allocation_demand demands (<[k := 1]> a) = allocation_demand demands a + nth k demands 0.
Proof.
  revert a k. induction demands as [|d demands IH]; intros a k Hk.
  - destruct (<[k := 1]> a), a, k; simpl; reflexivity.
  - destruct a as [|x a]; [discriminate|]. destruct k as [|k]; simpl in *.
    + injection Hk as ->. simpl. lia.
    + rewrite IH by assumption. lia.
Qed.

Lemma mark_demand (demands : list Z) (acc : list nat) (a : list Z) :
  NoDup acc -> (forall k, In k acc -> a !! k = Some 0) ->
  allocation_demand demands (mark acc a) = allocation_demand demands a + demand_of demands acc.
Proof.
  intros Hnd. revert a. induction Hnd as [|k acc Hk Hnd IH]; intros a Ha; simpl; [lia|].
  fold (mark acc (<[k := 1]> a)). rewrite IH.
  - rewrite allocation_demand_insert by (apply Ha; now left). lia.
  - intros j Hj. rewrite list_lookup_insert_ne.
    + apply Ha. now right.
    + intros ->. apply Hk. now apply list_elem_of_In.
Qed.

Lemma allocation_demand_zeros (demands : list Z) (n : nat) :
  allocation_demand demands (replicate n 0) = 0.
Proof.
  revert n. induction demands as [|d demands IH]; intros [|n]; simpl; try reflexivity.
  now rewrite IH.
Qed.

(** *** What the greedy allocator returns *)

Section GreedyResult.
Context {U : Type} {F : PyFloat U} {Srt : PySort} {HS : SortLaws}.

Lemma greedy_accepted (demands : list Z) (utilities : list U) (capacity used : Z) :
  let acc := greedy_accept demands capacity used (greedy_order demands utilities) in
  NoDup acc /\ (forall k, In k acc -> (k < length demands)%nat).
Proof.
  intros acc.
  assert (Hsub : sublist acc (greedy_order demands utilities))
    by apply greedy_accept_sublist.
  pose proof (greedy_order_perm demands utilities) as Hperm. split.
  - eapply sublist_NoDup; [|exact Hsub]. rewrite Hperm. apply NoDup_seq.
  - intros k Hk. apply list_elem_of_In in Hk.
    eapply elem_of_submseteq in Hk; [|apply sublist_submseteq, Hsub].
    rewrite Hperm in Hk. apply elem_of_seq in Hk. lia.
Qed.

Lemma greedy_feasible (demands : list Z) (utilities : list U) (capacity : Z) :
  (length demands <= length utilities)%nat ->
  Forall (fun d => d <> 0) demands ->
  Forall (converts U) demands ->
  0 <= capacity ->
  exists alloc total,
    greedy_bandwidth_allocation demands utilities capacity = Ok (alloc, total) /\
    feasible demands capacity alloc.
Proof.
  intros Hlen Hnz Hconv Hcap. rewrite greedy_run by assumption. simpl.
  eexists _, _. split; [reflexivity|].
  destruct (greedy_accepted demands utilities capacity 0) as [Hnd Hin].
  split; [|split].
  - now rewrite length_mark, length_replicate.
  - apply binary_mark. apply Forall_replicate. now left.
  - rewrite mark_demand.
    + rewrite allocation_demand_zeros.
      now apply (greedy_accept_fits demands capacity 0).
    + assumption.
    + intros k Hk. apply lookup_replicate_2. now apply Hin.
Qed.

Lemma greedy_accept_none (demands : list Z) (capacity used : Z) (idxs : list nat) :
  Forall (fun k => capacity < used + nth k demands 0) idxs ->
  greedy_accept demands capacity used idxs = [].
Proof.
  induction 1 as [|k idxs Hk _ IH]; simpl; [reflexivity|].
  destruct (Z.leb_spec (used + nth k demands 0) capacity); [lia|assumption].
Qed.

Lemma greedy_no_room (demands : list Z) (utilities : list U) (capacity : Z) :
  (length demands <= length utilities)%nat ->
  Forall (fun d => 1 <= d) demands ->
  Forall (converts U) demands ->
  capacity <= 0 ->
  greedy_bandwidth_allocation demands utilities capacity =
  Ok (replicate (length demands) 0, f_zero).
Proof.
  intros Hlen Hpos Hconv Hcap. rewrite greedy_run.
  - simpl. rewrite greedy_accept_none; [reflexivity|].
    apply List.Forall_forall. intros k Hk.
    apply (Permutation_in _ (greedy_order_perm demands utilities)) in Hk.
    apply in_seq in Hk. rewrite List.Forall_forall in Hpos.
    assert (1 <= nth k demands 0) by (apply Hpos, nth_In; lia). lia.
  - assumption.
  - eapply Forall_impl; [exact Hpos|]. simpl. intros d Hd. lia.
  - assumption.
Qed.

End GreedyResult.

(** ** The exact allocator *)

(** A loop over a range keeps an invariant. *)
Lemma foldM_seq {St : Type} (body : St -> Z -> result St) (P : nat -> St -> Prop)
    (len start : nat) (st : St) :
  P start st ->
  (forall k st0, (start <= k < start + len)%nat -> P k st0 ->
     exists st', body st0 (Z.of_nat k) = Ok st' /\ P (S k) st') ->
  exists st', foldM body (map Z.of_nat (seq start len)) st = Ok st' /\ P (start + len)%nat st'.
Proof.
  revert start st. induction len as [|len IH]; intros start st Hst Hbody; simpl.
  - exists st. split; [reflexivity|]. now rewrite Nat.add_0_r.
  - destruct (Hbody start st) as (st1 & -> & Hst1); [lia|assumption|]. simpl.
    destruct (IH (S start) st1 Hst1) as (st' & Hrun & Hst').
    + intros k st0 Hk. apply Hbody. lia.
    + exists st'. split; [assumption|]. now rewrite <- Nat.add_succ_comm.
Qed.

Lemma range_nat2 (a b : nat) :
  range (Z.of_nat a) (Z.of_nat b) = map Z.of_nat (seq a (b - a)).
Proof.
  unfold range. replace (Z.to_nat (Z.of_nat b - Z.of_nat a)) with (b - a)%nat by lia.
  assert (Hshift : forall m s,
             map (fun k => Z.of_nat a + Z.of_nat k) (seq s m) = map Z.of_nat (seq (a + s) m)).
  { induction m as [|m IH]; intros s; simpl; [reflexivity|].
    f_equal; [lia|]. rewrite IH. now rewrite Nat.add_succ_r. }
  rewrite Hshift. now rewrite Nat.add_0_r.
Qed.

Lemma range_down_S (i : nat) :
  range_down (Z.of_nat (S i)) 0 = Z.of_nat (S i) :: range_down (Z.of_nat i) 0.
Proof.
  unfold range_down. rewrite !Z.sub_0_r, !Nat2Z.id. simpl. f_equal; try lia.
  rewrite <- seq_shift, map_map. apply map_ext. intros k. lia.
Qed.

Section Table.
Context {U : Type} `{PyFloat U}.

Lemma dp_get_cell (dp : list (list U)) (k c : nat) (v : U) :
  cell dp k c = Some v -> dp_get dp (Z.of_nat k) (Z.of_nat c) = Ok v.
Proof.
  unfold cell, dp_get. destruct (dp !! k) as [row|] eqn:Hrow; [|discriminate].
  intros Hv. rewrite (getitem_nat _ _ _ Hrow). simpl. now apply getitem_nat.
Qed.

Lemma dp_set_cell (dp : list (list U)) (rows cols k c : nat) (v : U) :
  table_shape dp rows cols -> (k < rows)%nat -> (c < cols)%nat ->
  exists dp',
    dp_set dp (Z.of_nat k) (Z.of_nat c) v = Ok dp' /\
    table_shape dp' rows cols /\
    cell dp' k c = Some v /\
    (forall k' c', (k', c') <> (k, c) -> cell dp' k' c' = cell dp k' c').
Proof.
  intros [Hrows Hcols] Hk Hc.
  destruct (lookup_lt_is_Some_2 dp k) as [row Hrow]; [lia|].
  assert (Hlen : length row = cols).
  { rewrite Forall_lookup in Hcols. eauto. }
  exists (<[k := <[c := v]> row]> dp). unfold dp_set.
  rewrite (getitem_nat _ _ _ Hrow). simpl.
  rewrite setitem_nat by lia. simpl. rewrite setitem_nat by lia.
  split; [reflexivity|]. split; [|split].
  - split; [now rewrite length_insert|].
    apply Forall_insert; [assumption|]. now rewrite length_insert.
  - unfold cell. rewrite list_lookup_insert_eq by lia.
    apply list_lookup_insert_eq. lia.
  - intros k' c' Hne. unfold cell.
    destruct (Nat.eq_dec k k') as [<-|Hk'].
    + rewrite list_lookup_insert_eq by lia. rewrite Hrow.
      apply list_lookup_insert_ne. congruence.
    + now rewrite list_lookup_insert_ne.
Qed.

End Table.

Section Fill.
Context {U : Type} `{PyFloat U}.
Variables (demands : list Z) (utilities : list U) (cap : nat).
Hypothesis Hlen : (length demands <= length utilities)%nat.
Hypothesis Hnonneg : Forall (fun d => 0 <= d) demands.

Lemma nth_demand_nonneg (k : nat) : 0 <= nth k demands 0.
Proof.
  destruct (Nat.lt_ge_cases k (length demands)) as [Hk|Hk].
  - rewrite List.Forall_forall in Hnonneg. now apply Hnonneg, nth_In.
  - now rewrite nth_overflow.
Qed.

Lemma fill_cell_ok (dp : list (list U)) (i' c : nat) :
  table_shape dp (S (length demands)) (S cap) ->
  (i' < length demands)%nat -> (c <= cap)%nat ->
  row_done demands utilities cap dp i' ->
  exists dp',
    fill_cell demands utilities (Z.of_nat (S i')) dp (Z.of_nat c) = Ok dp' /\
    table_shape dp' (S (length demands)) (S cap) /\
    cell dp' (S i') c = Some (best demands utilities (S i') (Z.of_nat c)) /\
    (forall k' c', (k', c') <> (S i', c) -> cell dp' k' c' = cell dp k' c').
Proof.
  intros Hshape Hi Hc Hrow. unfold fill_cell.
  replace (Z.of_nat (S i') - 1) with (Z.of_nat i') by lia.
  rewrite (dp_get_cell _ _ _ _ (Hrow c Hc)). simpl.
  destruct (dp_set_cell dp _ _ (S i') c (best demands utilities i' (Z.of_nat c)) Hshape)
    as (dp1 & -> & Hshape1 & Hcell1 & Hother1); [lia|lia|]. simpl.
  rewrite getitem_nth by assumption. simpl.
  pose proof (nth_demand_nonneg i') as Hd.
  destruct (Z.leb_spec (nth i' demands 0) (Z.of_nat c)) as [Hfit|Hfit].
  - rewrite (dp_get_cell _ _ _ _ Hcell1). simpl.
    assert (Hprev : cell dp1 i' (Z.to_nat (Z.of_nat c - nth i' demands 0)) =
                    Some (best demands utilities i' (Z.of_nat c - nth i' demands 0))).
    { rewrite Hother1 by (intros [=]; lia). rewrite Hrow by lia. f_equal. f_equal. lia. }
    apply dp_get_cell in Hprev. rewrite Z2Nat.id in Hprev by lia.
    rewrite Hprev. simpl. rewrite getitem_nth_U by lia. simpl.
    destruct (dp_set_cell dp1 _ _ (S i') c
                (py_max (best demands utilities i' (Z.of_nat c))
                   (f_add (best demands utilities i' (Z.of_nat c - nth i' demands 0))
                          (nth i' utilities f_zero))) Hshape1)
      as (dp2 & -> & Hshape2 & Hcell2 & Hother2); [lia|lia|].
    exists dp2. split; [reflexivity|]. split; [assumption|]. split; [assumption|].
    intros k' c' Hne. now rewrite Hother2, Hother1.
  - exists dp1. split; [reflexivity|]. split; [assumption|]. split; assumption.
Qed.

Lemma fill_row_ok (dp : list (list U)) (i' : nat) :
  table_shape dp (S (length demands)) (S cap) ->
  (i' < length demands)%nat ->
  (forall k, (k <= i')%nat -> row_done demands utilities cap dp k) ->
  exists dp',
    fill_row demands utilities (Z.of_nat cap) dp (Z.of_nat (S i')) = Ok dp' /\
    table_shape dp' (S (length demands)) (S cap) /\
    (forall k, (k <= S i')%nat -> row_done demands utilities cap dp' k).
Proof.
  intros Hshape Hi Hrows. unfold fill_row.
  replace (Z.of_nat cap + 1) with (Z.of_nat (S cap)) by lia. rewrite range_nat.
  destruct (foldM_seq (fill_cell demands utilities (Z.of_nat (S i')))
              (fun c dp' =>
                 table_shape dp' (S (length demands)) (S cap) /\
                 (forall k, (k <= i')%nat -> row_done demands utilities cap dp' k) /\
                 (forall c', (c' < c)%nat ->
                    cell dp' (S i') c' = Some (best demands utilities (S i') (Z.of_nat c'))))
              (S cap) 0 dp) as (dp' & Hrun & Hshape' & Hrows' & Hrow').
  - split; [assumption|]. split; [assumption|]. intros c' Hc'. lia.
  - intros c dp0 Hc (Hshape0 & Hrows0 & Hrow0).
    destruct (fill_cell_ok dp0 i' c Hshape0 Hi) as (dp1 & Hrun & Hshape1 & Hcell1 & Hother1);
      [lia|now apply Hrows0|].
    exists dp1. split; [assumption|]. split; [assumption|]. split.
    + intros k Hk c' Hc'. rewrite Hother1 by (intros [=]; lia). now apply Hrows0.
    + intros c' Hc'. destruct (Nat.eq_dec c' c) as [->|Hne]; [assumption|].
      rewrite Hother1 by (intros [=]; lia). apply Hrow0. lia.
  - exists dp'. split; [assumption|]. split; [assumption|].
    intros k Hk. destruct (Nat.eq_dec k (S i')) as [->|Hne].
    + intros c Hc. apply Hrow'. lia.
    + apply Hrows'. lia.
Qed.

Lemma dp_init_shape :
  table_shape (dp_init (Z.of_nat (length demands)) (Z.of_nat cap)) (S (length demands)) (S cap).
Proof.
  clear Hlen Hnonneg. unfold dp_init.
  replace (Z.to_nat (Z.of_nat (length demands) + 1)) with (S (length demands)) by lia.
  replace (Z.to_nat (Z.of_nat cap + 1)) with (S cap) by lia.
  split; [apply length_replicate|].
  apply Forall_replicate, length_replicate.
Qed.

Lemma dp_init_row (k : nat) :
  (k <= length demands)%nat ->
  forall c, (c <= cap)%nat ->
    cell (dp_init (Z.of_nat (length demands)) (Z.of_nat cap)) k c = Some f_zero.
Proof.
  clear Hlen Hnonneg. intros Hk c Hc. unfold dp_init, cell.
  rewrite lookup_replicate_2 by lia. apply lookup_replicate_2. lia.
Qed.

Lemma fill_table_ok :
  exists dp,
    fill_table demands utilities (Z.of_nat cap) = Ok dp /\
    table_shape dp (S (length demands)) (S cap) /\
    (forall k, (k <= length demands)%nat -> row_done demands utilities cap dp k).
Proof.
  unfold fill_table, len.
  replace (Z.of_nat (length demands) + 1) with (Z.of_nat (S (length demands))) by lia.
  change 1 with (Z.of_nat 1). rewrite range_nat2.
  replace (S (length demands) - 1)%nat with (length demands) by lia.
  destruct (foldM_seq (fill_row demands utilities (Z.of_nat cap))
              (fun i dp =>
                 table_shape dp (S (length demands)) (S cap) /\
                 (forall k, (k < i)%nat -> row_done demands utilities cap dp k))
              (length demands) 1 (dp_init (Z.of_nat (length demands)) (Z.of_nat cap)))
    as (dp & Hrun & Hshape & Hrows).
  - split; [apply dp_init_shape|]. intros k Hk c Hc.
    replace k with 0%nat by lia. now apply dp_init_row; [lia|].
  - intros i dp [Hi1 Hi2] [Hshape Hrows]. destruct i as [|i']; [lia|].
    destruct (fill_row_ok dp i' Hshape) as (dp' & Hrun & Hshape' & Hrows');
      [lia|intros k Hk; apply Hrows; lia|].
    exists dp'. split; [assumption|]. split; [assumption|].
    intros k Hk. apply Hrows'. lia.
  - exists dp. split; [assumption|]. split; [assumption|].
    intros k Hk. apply Hrows. lia.
Qed.

End Fill.

Section Backtrack.
Context {U : Type} `{CmpLaws U}.
Variables (demands : list Z) (utilities : list U) (cap : nat).
Hypothesis Hlen : (length demands <= length utilities)%nat.
Hypothesis Hnonneg : Forall (fun d => 0 <= d) demands.

(** No table entry is a NaN: every entry equals itself. *)
Lemma best_valid (i : nat) (c : Z) :
  f_eq (best demands utilities i c) (best demands utilities i c) = true.
Proof.
  revert c. induction i as [|i' IH]; intros c; simpl; [apply f_eq_zero|].
  destruct (nth i' demands 0 <=? c); [|apply IH].
  unfold py_max. destruct (f_lt _ _) eqn:Hlt; [|apply IH].
  eapply f_lt_valid, Hlt.
Qed.

(** The walk takes candidate [i'] only when it fits, and then the entry is
    the sum the recurrence formed. *)
Lemma taken_fits (i' : nat) (c : Z) :
  f_ne (best demands utilities (S i') c) (best demands utilities i' c) = true ->
  nth i' demands 0 <= c /\
  best demands utilities (S i') c =
  f_add (best demands utilities i' (c - nth i' demands 0)) (nth i' utilities f_zero).
Proof.
  unfold f_ne. simpl. pose proof (best_valid i' c) as Hv.
  destruct (Z.leb_spec (nth i' demands 0) c) as [Hfit|Hfit].
  - unfold py_max. destruct (f_lt _ _) eqn:Hlt.
    + intros _. now split.
    + rewrite Hv. discriminate.
  - rewrite Hv. discriminate.
Qed.

(** When the walk passes over candidate [i'], the entry is the one above. *)
Lemma not_taken (i' : nat) (c : Z) :
  f_ne (best demands utilities (S i') c) (best demands utilities i' c) = false ->
  best demands utilities (S i') c = best demands utilities i' c.
Proof.
  unfold f_ne. simpl.
  destruct (nth i' demands 0 <=? c); [|reflexivity].
  unfold py_max. destruct (f_lt _ _) eqn:Hlt; [|reflexivity].
  rewrite (f_lt_ne _ _ Hlt). discriminate.
Qed.

Lemma replicate_snoc_app (i : nat) (a : Z) (rest : list Z) :
  <[i := a]> (replicate (S i) 0 ++ rest) = replicate i 0 ++ a :: rest.
Proof.
  rewrite replicate_S_end, <- app_assoc. simpl.
  rewrite <- (Nat.add_0_r i) at 1.
  rewrite <- (length_replicate i 0) at 1. now rewrite insert_app_r.
Qed.

Lemma backtrack_step_ok (dp : list (list U)) (i' : nat) (c : Z) (rest : list Z) :
  (forall k, (k <= length demands)%nat -> row_done demands utilities cap dp k) ->
  (S i' <= length demands)%nat ->
  0 <= c <= Z.of_nat cap ->
  backtrack_step demands dp (replicate (S i') 0 ++ rest, c) (Z.of_nat (S i')) =
  Ok (if f_ne (best demands utilities (S i') c) (best demands utilities i' c)
      then (replicate i' 0 ++ 1 :: rest, c - nth i' demands 0)
      else (replicate i' 0 ++ 0 :: rest, c)).
Proof.
  intros Hrows Hi Hc. unfold backtrack_step.
  replace (Z.of_nat (S i') - 1) with (Z.of_nat i') by lia.
  assert (Hget : forall k, (k <= length demands)%nat ->
             dp_get dp (Z.of_nat k) c = Ok (best demands utilities k c)).
  { intros k Hk. rewrite <- (Z2Nat.id c) at 1 by lia. apply dp_get_cell.
    rewrite Hrows by lia. now rewrite Z2Nat.id by lia. }
  rewrite !Hget by lia. cbn [bind].
  destruct (f_ne (best demands utilities (S i') c) (best demands utilities i' c)).
  - rewrite setitem_nat by (rewrite length_app, length_replicate; lia). cbn [bind].
    rewrite getitem_nth by lia. cbn [bind]. now rewrite replicate_snoc_app.
  - f_equal. f_equal. rewrite replicate_S_end, <- app_assoc. reflexivity.
Qed.

Lemma backtrack_loop (dp : list (list U)) (i : nat) :
  (forall k, (k <= length demands)%nat -> row_done demands utilities cap dp k) ->
  (i <= length demands)%nat ->
  forall (c : Z) (rest : list Z),
    0 <= c <= Z.of_nat cap ->
    exists c',
      foldM (backtrack_step demands dp) (range_down (Z.of_nat i) 0)
            (replicate i 0 ++ rest, c) =
      Ok (picked demands utilities i c ++ rest, c').
Proof.
  intros Hrows. induction i as [|i' IH]; intros Hi c rest Hc.
  - exists c. reflexivity.
  - rewrite range_down_S. cbn [foldM].
    rewrite backtrack_step_ok by assumption. cbn [bind picked].
    destruct (f_ne (best demands utilities (S i') c) (best demands utilities i' c)) eqn:Hne.
    + destruct (taken_fits _ _ Hne) as [Hfit _].
      pose proof (nth_demand_nonneg demands Hnonneg i') as Hd.
      destruct (IH ltac:(lia) (c - nth i' demands 0) (1 :: rest)) as [c' Hrun]; [lia|].
      exists c'. now rewrite Hrun, <- app_assoc.
    + destruct (IH ltac:(lia) c (0 :: rest)) as [c' Hrun]; [lia|].
      exists c'. now rewrite Hrun, <- app_assoc.
Qed.

Lemma optimal_run :
  optimal_bandwidth_allocation demands utilities (Z.of_nat cap) =
  Ok (picked demands utilities (length demands) (Z.of_nat cap),
      best demands utilities (length demands) (Z.of_nat cap)).
Proof.
  unfold optimal_bandwidth_allocation.
  destruct (fill_table_ok demands utilities cap Hlen Hnonneg) as (dp & -> & Hshape & Hrows).
  cbn [bind]. unfold backtrack, len. rewrite Nat2Z.id.
  destruct (backtrack_loop dp (length demands) Hrows ltac:(lia) (Z.of_nat cap) [])
    as [c' Hrun]; [lia|].
  rewrite app_nil_r in Hrun. rewrite Hrun. cbn [bind].
  rewrite (dp_get_cell dp _ _ (best demands utilities (length demands) (Z.of_nat cap))).
  - now rewrite app_nil_r.
  - now apply Hrows.
Qed.

End Backtrack.

(** *** What the exact allocator returns *)

Lemma allocation_demand_snoc (demands x : list Z) (a : Z) :
  allocation_demand demands (x ++ [a]) =
  allocation_demand demands x + (if a =? 1 then nth (length x) demands 0 else 0).
Proof.
  revert demands. induction x as [|b x IH]; intros [|d demands]; simpl;
    try (destruct (a =? 1); lia).
  - destruct (a =? 1), demands; simpl; lia.
  - rewrite IH. lia.
Qed.

Lemma allocation_demand_nonneg (demands x : list Z) :
  Forall (fun d => 0 <= d) demands -> 0 <= allocation_demand demands x.
Proof.
  intros Hd. revert x. induction Hd as [|d demands Hd _ IH]; intros [|a x]; simpl; try lia.
  specialize (IH x). destruct (a =? 1); lia.
Qed.

Section Picked.
Context {U : Type} `{CmpLaws U}.
Variables (demands : list Z) (utilities : list U).

Lemma utility_from_snoc (acc : U) (x : list Z) (a : Z) :
  (length x < length utilities)%nat ->
  utility_from acc utilities (x ++ [a]) =
  if a =? 1
  then f_add (utility_from acc utilities x) (nth (length x) utilities f_zero)
  else utility_from acc utilities x.
Proof.
  revert acc x. induction utilities as [|u us IH]; intros acc x Hx; simpl in Hx; [lia|].
  destruct x as [|b x]; simpl.
  - now destruct (a =? 1), us.
  - apply IH. simpl in Hx. lia.
Qed.

Lemma length_picked (i : nat) (c : Z) : length (picked demands utilities i c) = i.
Proof.
  revert c. induction i as [|i' IH]; intros c; [reflexivity|].
  cbn [picked]. destruct (f_ne _ _); rewrite length_app, IH; simpl; lia.
Qed.

Lemma binary_picked (i : nat) (c : Z) : binary (picked demands utilities i c).
Proof.
  revert c. induction i as [|i' IH]; intros c; [constructor|].
  cbn [picked]. destruct (f_ne _ _); apply Forall_app; split; try apply IH;
    constructor; auto.
Qed.

Lemma picked_demand (i : nat) (c : Z) :
  0 <= c -> allocation_demand demands (picked demands utilities i c) <= c.
Proof.
  revert c. induction i as [|i' IH]; intros c Hc; [now destruct demands|].
  cbn [picked]. destruct (f_ne _ _) eqn:Hne; rewrite allocation_demand_snoc, length_picked.
  - destruct (taken_fits _ _ _ _ Hne) as [Hfit _].
    specialize (IH (c - nth i' demands 0) ltac:(lia)).
    change (1 =? 1) with true. cbv iota. lia.
  - specialize (IH c Hc). change (0 =? 1) with false. cbv iota. lia.
Qed.

Lemma picked_utility (i : nat) (c : Z) :
  (i <= length utilities)%nat ->
  utility_from f_zero utilities (picked demands utilities i c) = best demands utilities i c.
Proof.
  revert c. induction i as [|i' IH]; intros c Hi.
  - simpl. now destruct utilities.
  - cbn [picked]. destruct (f_ne _ _) eqn:Hne;
      rewrite utility_from_snoc by (rewrite length_picked; lia); rewrite length_picked.
    + destruct (taken_fits _ _ _ _ Hne) as [_ ->]. simpl. now rewrite IH by lia.
    + rewrite (not_taken _ _ _ _ Hne). simpl. apply IH. lia.
Qed.

End Picked.

(** *** The recurrence bounds every allocation that fits *)

Section Optimality.
Context {U : Type} {F : PyFloat U} (ok : U -> Prop) {HO : OrderLaws U ok}.
Variables (demands : list Z) (utilities : list U).
Hypothesis Hnonneg : Forall (fun d => 0 <= d) demands.
Hypothesis Hok : Forall ok utilities.

Lemma f_le_refl (a : U) : ok a -> f_le a a.
Proof. apply f_lt_irrefl. Qed.

Lemma py_max_l (a b : U) : ok a -> ok b -> f_le a (py_max a b).
Proof.
  intros Ha Hb. unfold py_max. destruct (f_lt a b) eqn:Hlt; [|now apply f_le_refl].
  now apply f_lt_asym.
Qed.

Lemma py_max_r (a b : U) : ok a -> ok b -> f_le b (py_max a b).
Proof.
  intros Ha Hb. unfold py_max. destruct (f_lt a b) eqn:Hlt; [now apply f_le_refl|exact Hlt].
Qed.

Lemma ok_py_max (a b : U) : ok a -> ok b -> ok (py_max a b).
Proof. intros Ha Hb. unfold py_max. now destruct (f_lt a b). Qed.

Lemma ok_nth (k : nat) : ok (nth k utilities f_zero).
Proof.
  destruct (nth_in_or_default k utilities f_zero) as [Hin| ->]; [|apply f_ok_zero].
  rewrite List.Forall_forall in Hok. now apply Hok.
Qed.

Lemma ok_best (i : nat) : forall c : Z, ok (best demands utilities i c).
Proof.
  induction i as [|i' IH]; intros c; simpl; [apply f_ok_zero|].
  destruct (nth i' demands 0 <=? c); [|apply IH].
  apply ok_py_max; [apply IH|]. apply f_ok_add; [apply IH|apply ok_nth].
Qed.

Lemma ok_utility_from (us : list U) :
  Forall ok us -> forall (acc : U) (x : list Z), ok acc -> ok (utility_from acc us x).
Proof.
  induction 1 as [|u us Hu Hus IH]; intros acc [|a x] Hacc; simpl; try assumption.
  apply IH. destruct (a =? 1); [now apply f_ok_add|assumption].
Qed.

Lemma best_step_ge (i' : nat) (c : Z) :
  f_le (best demands utilities i' c) (best demands utilities (S i') c).
Proof.
  simpl. destruct (nth i' demands 0 <=? c).
  - apply py_max_l; [apply ok_best|]. apply f_ok_add; [apply ok_best|apply ok_nth].
  - apply f_le_refl, ok_best.
Qed.

Lemma best_upper (x : list Z) :
  forall c : Z,
    (length x <= length utilities)%nat ->
    allocation_demand demands x <= c ->
    f_le (utility_from f_zero utilities x) (best demands utilities (length x) c).
Proof.
  induction x as [|a x IH] using rev_ind; intros c Hlen Hfit.
  - simpl. destruct utilities; apply f_le_refl, f_ok_zero.
  - rewrite length_app in Hlen |- *. simpl in Hlen |- *. rewrite Nat.add_1_r.
    rewrite allocation_demand_snoc in Hfit.
    rewrite utility_from_snoc by lia.
    pose proof (allocation_demand_nonneg demands x Hnonneg) as Hx.
    pose proof (ok_utility_from utilities Hok f_zero x f_ok_zero) as Hsum.
    destruct (a =? 1).
    + cbn [best]. destruct (Z.leb_spec (nth (length x) demands 0) c) as [Hd|Hd]; [|lia].
      set (u := nth (length x) utilities f_zero).
      set (d := nth (length x) demands 0).
      assert (Hu : ok u) by apply ok_nth.
      assert (Hb : ok (best demands utilities (length x) (c - d))) by apply ok_best.
      apply f_le_trans with (f_add (best demands utilities (length x) (c - d)) u).
      * now apply f_ok_add.
      * now apply f_ok_add.
      * apply ok_py_max; [apply ok_best|now apply f_ok_add].
      * apply f_add_mono; try assumption. apply IH; unfold d; lia.
      * apply py_max_r; [apply ok_best|now apply f_ok_add].
    + apply f_le_trans with (best demands utilities (length x) c).
      * assumption.
      * apply ok_best.
      * apply ok_best.
      * apply IH; lia.
      * apply best_step_ge.
Qed.

End Optimality.

(** *** In exact arithmetic the order of accumulation does not matter *)

Section Exact.
Context {U : Type} `{ExactLaws U}.
Variable utilities : list U.

Lemma f_add_swap (t u v : U) : f_add (f_add t u) v = f_add (f_add t v) u.
Proof.
  now rewrite <- !f_add_assoc, (f_add_comm u v).
Qed.

Lemma utility_from_add (t u : U) (us : list U) (x : list Z) :
  utility_from (f_add t u) us x = f_add (utility_from t us x) u.
Proof.
  revert t x. induction us as [|u0 us IH]; intros t [|a x]; simpl; try reflexivity.
  destruct (a =? 1); [|apply IH]. now rewrite f_add_swap, IH.
Qed.

Lemma utility_from_insert (t : U) (us : list U) (a : list Z) (k : nat) :
  a !! k = Some 0 -> (k < length us)%nat ->
  utility_from t us (<[k := 1]> a) = f_add (utility_from t us a) (nth k us f_zero).
Proof.
  revert t a k. induction us as [|u us IH]; intros t a k Ha Hk; simpl in Hk; [lia|].
  destruct a as [|b a]; [discriminate|]. destruct k as [|k]; simpl in *.
  - injection Ha as ->. simpl. apply utility_from_add.
  - apply IH; [assumption|lia].
Qed.

Lemma mark_utility (t : U) (acc : list nat) (a : list Z) :
  NoDup acc ->
  (forall k, In k acc -> a !! k = Some 0 /\ (k < length utilities)%nat) ->
  utility_from t utilities (mark acc a) =
  utility_in_order utilities acc (utility_from t utilities a).
Proof.
  intros Hnd. revert a. induction Hnd as [|k acc Hk Hnd IH]; intros a Ha; [reflexivity|].
  simpl. fold (mark acc (<[k := 1]> a)).
  fold (utility_in_order utilities acc (f_add (utility_from t utilities a) (nth k utilities f_zero))).
  rewrite IH.
  - rewrite utility_from_insert; [reflexivity| |]; apply Ha; now left.
  - intros j Hj. split; [|apply Ha; now right].
    rewrite list_lookup_insert_ne; [apply Ha; now right|].
    intros ->. apply Hk. now apply list_elem_of_In.
Qed.

Lemma utility_from_zeros (t : U) (us : list U) (n : nat) :
  utility_from t us (replicate n 0) = t.
Proof.
  revert n. induction us as [|u us IH]; intros [|n]; simpl; try reflexivity. apply IH.
Qed.

End Exact.

(** ** The allocators on well-formed instances *)

Lemma positive_nonneg (demands : list Z) :
  Forall (fun d => 1 <= d) demands -> Forall (fun d => 0 <= d) demands.
Proof. intros Hd. eapply Forall_impl; [exact Hd|]. simpl. intros d Hd1. lia. Qed.

Lemma positive_nonzero (demands : list Z) :
  Forall (fun d => 1 <= d) demands -> Forall (fun d => d <> 0) demands.
Proof. intros Hd. eapply Forall_impl; [exact Hd|]. simpl. intros d Hd1. lia. Qed.

Lemma optimal_returns {U : Type} {F : PyFloat U} {HC : CmpLaws U}
    (demands : list Z) (utilities : list U) (capacity : Z) :
  (length demands <= length utilities)%nat ->
  Forall (fun d => 0 <= d) demands ->
  0 <= capacity ->
  optimal_bandwidth_allocation demands utilities capacity =
  Ok (picked demands utilities (length demands) capacity,
      best demands utilities (length demands) capacity).
Proof.
  intros Hlen Hnonneg Hcap. rewrite <- (Z2Nat.id capacity) by assumption.
  now apply optimal_run.
Qed.

Lemma optimal_feasible {U : Type} {F : PyFloat U} {HC : CmpLaws U}
    (demands : list Z) (utilities : list U) (capacity : Z) :
  0 <= capacity ->
  feasible demands capacity (picked demands utilities (length demands) capacity).
Proof.
  intros Hcap. split; [apply length_picked|]. split; [apply binary_picked|].
  now apply picked_demand.
Qed.

(** ** Ints as binary64 floats *)

Lemma rnd_below_limit (N : Z) :
  0 < N -> N < float_limit * 2 ^ 1074 -> rnd N < TOP.
Proof.
  intros HN Hlt.
  assert (Hle : N <= float_limit * 2 ^ 1074 - 1) by lia.
  apply (rnd_mono N _ HN) in Hle.
  assert (Hk : rnd (float_limit * 2 ^ 1074 - 1) < TOP) by (vm_compute; reflexivity).
  lia.
Qed.

Lemma rnd_from_limit (N : Z) :
  float_limit * 2 ^ 1074 <= N -> TOP <= rnd N.
Proof.
  intros Hle.
  assert (H0 : 0 < float_limit * 2 ^ 1074) by (vm_compute; reflexivity).
  apply (rnd_mono _ N H0) in Hle.
  assert (Hk : rnd (float_limit * 2 ^ 1074) = TOP) by (vm_compute; reflexivity).
  lia.
Qed.

Lemma rnd_pos (N : Z) : 0 < N -> 0 < rnd N.
Proof.
  intros HN. pose proof (digits_bounds N HN) as Hb. pose proof (digits_pos N) as Hd.
  pose proof (rnd_range N (digits N) Hd Hb) as [Hr _].
  pose proof (pow2_pos (digits N - 1) ltac:(lia)). lia.
Qed.

(** A float of the format that is not negative is finite and not zero when
    its value lies strictly between zero and infinity. *)
Lemma okSF_finite (x : spec_float) :
  okSF x -> 0 < Zval x < TOP -> exists m e, x = S754_finite false m e.
Proof.
  intros [Hn Hv] Hz. destruct x as [s|s| |s m e]; cbn [Zval] in Hz; try lia.
  destruct s; [discriminate Hn|]. now exists m, e.
Qed.

(** [float(d)] for a positive int below the limit: [d] rounded to 53
    significant bits, a finite positive float. *)
Lemma float_of_int_finite (d : Z) :
  1 <= d < float_limit ->
  exists m e,
    float_of_int d = Some (SF2Prim (S754_finite false m e)) /\
    valid_binary (S754_finite false m e) = true /\
    Z.pos m * 2 ^ (e + 1074) = rnd (d * 2 ^ 1074).
Proof.
  intros Hd. unfold float_of_int. destruct d as [|p|p]; try lia. cbn [binary_normalize].
  destruct (binary_round_full p 0 ltac:(lia)) as (Hn & Hz & Hv). cbv zeta in Hn, Hz, Hv.
  replace (0 + 1074) with 1074 in Hz by lia.
  assert (HN : 0 < Z.pos p * 2 ^ 1074) by (pose proof (pow2_pos 1074); lia).
  pose proof (rnd_below_limit _ HN) as Hlt. pose proof (rnd_pos _ HN) as Hpos.
  assert (Hlim : Z.pos p * 2 ^ 1074 < float_limit * 2 ^ 1074).
  { apply Z.mul_lt_mono_pos_r; [apply pow2_pos|]; lia. }
  specialize (Hlt Hlim).
  rewrite Z.min_l in Hz by lia.
  destruct (okSF_finite _ (conj Hn Hv)) as (m & e & Hx); [lia|].
  rewrite Hx in *. exists m, e. split; [reflexivity|]. split; [exact Hv|exact Hz].
Qed.

(** From the limit on there is no float. *)
Lemma float_of_int_overflow (d : Z) : float_limit <= d -> float_of_int d = None.
Proof.
  intros Hd. unfold float_of_int.
  assert (H0 : 0 < float_limit) by (vm_compute; reflexivity).
  destruct d as [|p|p]; try lia. cbn [binary_normalize].
  destruct (binary_round_full p 0 ltac:(lia)) as (Hn & Hz & Hv). cbv zeta in Hn, Hz, Hv.
  replace (0 + 1074) with 1074 in Hz by lia.
  assert (Hlim : float_limit * 2 ^ 1074 <= Z.pos p * 2 ^ 1074).
  { apply Z.mul_le_mono_nonneg_r; [apply Z.lt_le_incl, pow2_pos|]; lia. }
  pose proof (rnd_from_limit _ Hlim) as Hge.
  rewrite Z.min_r in Hz by lia.
  destruct (binary_round prec emax false p 0) as [s|s| |s m e]; cbn [Zval] in Hz.
  - pose proof TOP_pos. lia.
  - reflexivity.
  - discriminate Hn.
  - pose proof (Zval_finite s m e Hv) as [H1 _]. cbn [Zval] in H1. lia.
Qed.

(** On binary64 the ints from 1 on that have a float are those below
    2^1024 - 2^970. *)
Lemma float_converts (d : Z) : 1 <= d -> (converts float d <-> d < float_limit).
Proof.
  intros Hd. unfold converts, to_float. cbn [f_of_int float_PyFloat]. split.
  - intros Hc. destruct (Z_lt_ge_dec d float_limit) as [Hlt|Hge]; [exact Hlt|].
    rewrite float_of_int_overflow in Hc by lia. discriminate Hc.
  - intros Hlt. destruct (float_of_int_finite d ltac:(lia)) as (m & e & -> & _). reflexivity.
Qed.

Lemma float_converts_all (demands : list Z) :
  Forall (fun d => 1 <= d < float_limit) demands -> Forall (converts float) demands.
Proof.
  intros Hd. eapply Forall_impl; [exact Hd|]. simpl. intros d Hd1.
  apply float_converts; lia.
Qed.

(** [float(d)] as a float of the format. *)
Lemma to_float_finite (d : Z) :
  1 <= d < float_limit ->
  exists m e,
    Prim2SF (to_float d) = S754_finite false m e /\
    Z.pos m * 2 ^ (e + 1074) = rnd (d * 2 ^ 1074).
Proof.
  intros Hd. destruct (float_of_int_finite d Hd) as (m & e & Hf & Hv & Hz).
  exists m, e. unfold to_float. cbn [f_of_int float_PyFloat]. rewrite Hf.
  split; [now apply FloatAxioms.Prim2SF_SF2Prim|exact Hz].
Qed.

Lemma Prim2SF_inj (x y : float) : Prim2SF x = Prim2SF y -> x = y.
Proof.
  intros Hxy. rewrite <- (FloatAxioms.SF2Prim_Prim2SF x), <- (FloatAxioms.SF2Prim_Prim2SF y).
  now rewrite Hxy.
Qed.

(** A finite float divided by itself is 1.0: the quotient of the mantissas
    is exact. *)
Lemma SFdiv_self (m : positive) (e : Z) :
  SFdiv prec emax (S754_finite false m e) (S754_finite false m e) = Prim2SF 1%float.
Proof.
  cbn [SFdiv xorb]. unfold SFdiv_core_binary.
  replace (Zdigits2 (Z.pos m) + e - (Zdigits2 (Z.pos m) + e)) with 0 by lia.
  replace (e - e) with 0 by lia.
  change (IntDef.Z.min (fexp prec emax 0) 0) with (-53).
  change (0 - -53) with 53. cbv iota.
  change (IntDef.Z.shiftl (Z.pos m) 53) with (Z.shiftl (Z.pos m) 53).
  rewrite Z.shiftl_mul_pow2 by lia.
  change IntDef.Z.div_eucl with Z.div_eucl.
  pose proof (Z.div_mul (2 ^ 53) (Z.pos m) ltac:(lia)) as Hq.
  pose proof (Z.mod_mul (2 ^ 53) (Z.pos m) ltac:(lia)) as Hr.
  rewrite (Z.mul_comm (2 ^ 53)) in Hq, Hr. unfold Z.div, Z.modulo in Hq, Hr.
  destruct (Z.div_eucl (Z.pos m * 2 ^ 53) (Z.pos m)) as [q r]. subst q r.
  assert (Hloc : new_location (Z.pos m) 0 = loc_Exact).
  { unfold new_location, new_location_even, new_location_odd.
    now destruct (IntDef.Z.even (Z.pos m)). }
  rewrite Hloc. vm_compute. reflexivity.
Qed.

Lemma div_self (x : float) (m : positive) (e : Z) :
  Prim2SF x = S754_finite false m e -> (x / x)%float = 1%float.
Proof.
  intros Hx. apply Prim2SF_inj. rewrite FloatAxioms.div_spec, Hx. apply SFdiv_self.
Qed.

Lemma add_zero_l (x : float) (m : positive) (e : Z) :
  Prim2SF x = S754_finite false m e -> (0 + x)%float = x.
Proof.
  intros Hx. apply Prim2SF_inj. rewrite FloatAxioms.add_spec, Hx. reflexivity.
Qed.

(** [float(d)] is above 4.0, and so above 2.0, from 5 on. *)
Lemma four_lt_to_float (d : Z) :
  5 <= d < float_limit ->
  (4 <? to_float d)%float = true /\ (2 <? to_float d)%float = true.
Proof.
  intros Hd. destruct (to_float_finite d ltac:(lia)) as (m & e & Hx & Hz).
  rewrite !float_ltb_Zval; try reflexivity; try (unfold nonneg_float; now rewrite Hx).
  rewrite Hx. cbn [Zval]. rewrite Hz. rewrite !Z.ltb_lt.
  assert (H2 : Zval (Prim2SF 2) = 2 * 2 ^ 1074) by (vm_compute; reflexivity).
  assert (H4 : Zval (Prim2SF 4) = 4 * 2 ^ 1074) by (vm_compute; reflexivity).
  rewrite H2, H4.
  assert (H5 : rnd (5 * 2 ^ 1074) = 5 * 2 ^ 1074) by (apply rnd_fix; [lia|cbv; congruence|lia]).
  pose proof (pow2_pos 1074 ltac:(lia)) as Hp.
  assert (Hm : rnd (5 * 2 ^ 1074) <= rnd (d * 2 ^ 1074)) by (apply rnd_mono; nia).
  lia.
Qed.

(** ** Efficiencies on binary64 are ordered by [<] *)

Lemma shr_iter_nonneg (n : nat) (mrs : shr_record) :
  0 <= shr_m mrs -> 0 <= shr_m (Nat.iter n shr_1 mrs).
Proof.
  intros Hm. induction n as [|n IH]; [exact Hm|].
  rewrite Nat.iter_succ. destruct (Nat.iter n shr_1 mrs) as [m r s]. cbn [shr_m] in IH.
  rewrite shr_1_nonneg by assumption. cbn [shr_m]. apply Z.div_pos; lia.
Qed.

Lemma shr_fexp_nonneg_any (m e : Z) (l : location) :
  0 <= m -> 0 <= shr_m (fst (shr_fexp prec emax m e l)).
Proof.
  intros Hm. unfold shr_fexp, shr.
  assert (H0 : 0 <= shr_m (shr_record_of_loc m l)) by (destruct l as [|[| |]]; exact Hm).
  destruct (fexp prec emax (Zdigits2 m + e) - e) as [|p|p]; cbn [fst]; try exact H0.
  rewrite iter_pos_nat. now apply shr_iter_nonneg.
Qed.

Lemma round_nearest_even_nonneg (m : Z) (l : location) :
  0 <= m -> 0 <= round_nearest_even m l.
Proof.
  intros Hm. unfold round_nearest_even.
  destruct l as [|[| |]]; try lia. destruct (IntDef.Z.even m); lia.
Qed.

(** Rounding a mantissa that is not negative gives no negative float and
    no NaN, whatever was cut off before. *)
Lemma binary_round_aux_nonneg_any (m e : Z) (l : location) :
  0 <= m -> nonneg (binary_round_aux prec emax false m e l) = true.
Proof.
  intros Hm. unfold binary_round_aux.
  pose proof (shr_fexp_nonneg_any m e l Hm) as H1.
  destruct (shr_fexp prec emax m e l) as [R1 e1]. cbn [fst] in H1.
  pose proof (shr_fexp_nonneg_any _ e1 loc_Exact
                (round_nearest_even_nonneg (shr_m R1) (loc_of_shr_record R1) H1)) as H2.
  destruct (shr_fexp prec emax _ e1 loc_Exact) as [R2 e2]. cbn [fst] in H2.
  destruct (shr_m R2) as [|p|p]; [reflexivity| |lia].
  now destruct (e2 <=? emax - prec).
Qed.

(** A float that is not negative, divided by a finite positive float, is
    not negative. *)
Lemma SFdiv_nonneg (x : spec_float) (m : positive) (e : Z) :
  nonneg x = true -> nonneg (SFdiv prec emax x (S754_finite false m e)) = true.
Proof.
  destruct x as [s|s| |s mx ex]; cbn [nonneg SFdiv]; intros Hx; try discriminate Hx.
  - reflexivity.
  - now destruct s.
  - destruct s; [discriminate Hx|]. cbn [xorb]. unfold SFdiv_core_binary.
    set (m' := match _ with 0 => _ | Z.pos _ => _ | Z.neg _ => _ end).
    assert (Hm' : 0 <= m').
    { unfold m'. destruct (_ - _ - _) as [|p|p]; try lia.
      change (IntDef.Z.shiftl (Z.pos mx) (Z.pos p)) with (Z.shiftl (Z.pos mx) (Z.pos p)).
      apply Z.shiftl_nonneg. lia. }
    change IntDef.Z.div_eucl with Z.div_eucl.
    pose proof (Z.div_pos m' (Z.pos m) Hm' ltac:(lia)) as Hq. unfold Z.div in Hq.
    destruct (Z.div_eucl m' (Z.pos m)) as [q r]. cbn [fst] in Hq.
    now apply binary_round_aux_nonneg_any.
Qed.

Lemma efficiency_nonneg (demands : list Z) (utilities : list float) (k : nat) :
  Forall (fun d => 1 <= d < float_limit) demands ->
  Forall nonneg_float utilities ->
  (k < length demands)%nat ->
  nonneg_float (efficiency demands utilities k).
Proof.
  intros Hd Hu Hk. unfold efficiency, nonneg_float.
  change (f_div ?a ?b) with (a / b)%float. rewrite FloatAxioms.div_spec.
  rewrite List.Forall_forall in Hd.
  destruct (to_float_finite (nth k demands 0)) as (m & e & -> & _);
    [apply Hd, nth_In; exact Hk|].
  apply SFdiv_nonneg. apply (ok_nth nonneg_float utilities Hu).
Qed.

(** On values that satisfy the order laws [<] orders every list of keys. *)
Lemma ordered_by_ok {U : Type} {F : PyFloat U} (ok : U -> Prop) {HO : OrderLaws U ok}
    (ks : list U) :
  Forall ok ks -> ordered_by f_lt ks.
Proof.
  intros Hks a b c Ha Hb Hc. rewrite List.Forall_forall in Hks.
  pose proof (Hks a Ha). pose proof (Hks b Hb). pose proof (Hks c Hc).
  split; [now apply (f_lt_irrefl (ok := ok))|]. split.
  - now apply (f_lt_asym (ok := ok)).
  - intros Hba Hcb. now apply (f_le_trans (ok := ok) a b c).
Qed.

(** On binary64, with demands from 1 to below the float limit and utilities
    that are neither NaN nor negative, [<] orders the efficiencies. *)
Lemma float_efficiencies_ordered (demands : list Z) (utilities : list float) :
  Forall (fun d => 1 <= d < float_limit) demands ->
  Forall nonneg_float utilities ->
  ordered_by f_lt (map (efficiency demands utilities) (seq 0 (length demands))).
Proof.
  intros Hd Hu. apply (ordered_by_ok nonneg_float).
  apply List.Forall_forall. intros x Hx. apply in_map_iff in Hx.
  destruct Hx as (k & <- & Hk). apply in_seq in Hk.
  apply efficiency_nonneg; [assumption|assumption|lia].
Qed.

(** ** The sort on keys that [<] orders *)

Lemma orderedb_spec {K : Type} (lt : K -> K -> bool) (ks : list K) :
  orderedb lt ks = true -> ordered_by lt ks.
Proof.
  unfold orderedb, ordered_by. intros Hb a b c Ha Hb' Hc.
  rewrite forallb_forall in Hb. specialize (Hb a Ha).
  rewrite forallb_forall in Hb. specialize (Hb b Hb').
  rewrite forallb_forall in Hb. specialize (Hb c Hc).
  destruct (lt a a), (lt a b), (lt b a), (lt c b), (lt c a); simpl in Hb;
    try discriminate Hb; repeat split; intros; congruence.
Qed.

Section SortOrder.
Context {A K : Type} (lt : K -> K -> bool) (key : A -> K) (dom : list A).
Hypothesis Hord : ordered_by lt (map key dom).

Lemma insert_sorted_sorted (x : A) (l : list A) :
  In x dom -> incl l dom ->
  StronglySorted (fun a b => lt (key b) (key a) = false) l ->
  StronglySorted (fun a b => lt (key b) (key a) = false) (insert_sorted lt key x l).
Proof.
  intros Hx Hl Hs. induction Hs as [|y l Hs IH Hy]; simpl.
  - repeat constructor.
  - assert (Hyd : In y dom) by (apply Hl; now left).
    assert (Hld : incl l dom) by (intros z Hz; apply Hl; now right).
    destruct (lt (key y) (key x)) eqn:Hlt.
    + constructor; [now apply IH|].
      rewrite (insert_sorted_perm lt key x l). constructor; [|assumption].
      destruct (Hord (key y) (key x) (key x)) as (_ & Hasym & _); try now apply in_map.
      now apply Hasym.
    + constructor; [now constructor|]. constructor; [exact Hlt|].
      rewrite List.Forall_forall in Hy. apply List.Forall_forall. intros z Hz.
      destruct (Hord (key x) (key y) (key z)) as (_ & _ & Htrans); try now apply in_map.
      { apply in_map, Hld. exact Hz. }
      apply Htrans; [exact Hlt|now apply Hy].
Qed.

Lemma list_sort_sorted (l : list A) :
  incl l dom ->
  StronglySorted (fun a b => lt (key b) (key a) = false) (list_sort lt key l).
Proof.
  induction l as [|x l IH]; intros Hl; simpl; [constructor|].
  apply insert_sorted_sorted.
  - apply Hl. now left.
  - intros z Hz. apply Hl. right.
    now apply (Permutation_in _ (list_sort_perm lt key l)).
  - apply IH. intros z Hz. apply Hl. now right.
Qed.

End SortOrder.

Lemma StronglySorted_rev {A : Type} (R : A -> A -> Prop) (l : list A) :
  StronglySorted R l -> StronglySorted (fun a b => R b a) (rev l).
Proof.
  induction 1 as [|x l Hl IH Hx]; simpl; [constructor|].
  apply StronglySorted_app_2; [|assumption|repeat constructor].
  intros a b Ha Hb. apply list_elem_of_singleton in Hb. subst b.
  rewrite List.Forall_forall in Hx. apply Hx. apply in_rev. now apply list_elem_of_In.
Qed.

(** On keys that [<] orders, no element of the stable descending
    arrangement has a smaller key than an element after it. *)
Lemma list_sort_reverse_sorted {A K : Type} (lt : K -> K -> bool) (key : A -> K)
    (l : list A) :
  ordered_by lt (map key l) ->
  StronglySorted (fun a b => lt (key a) (key b) = false) (list_sort_reverse lt key l).
Proof.
  intros Hord. unfold list_sort_reverse.
  apply (StronglySorted_rev (fun a b => lt (key b) (key a) = false)).
  apply (list_sort_sorted lt key l Hord). intros z Hz. now apply in_rev.
Qed.

Lemma StronglySorted_map {A B : Type} (f : A -> B) (R1 : A -> A -> Prop)
    (R2 : B -> B -> Prop) (l : list A) :
  (forall a b, In a l -> In b l -> R1 a b -> R2 (f a) (f b)) ->
  StronglySorted R1 l -> StronglySorted R2 (map f l).
Proof.
  intros Hf Hs. induction Hs as [|x l Hs IH Hx]; simpl; [constructor|].
  constructor.
  - apply IH. intros a b Ha Hb. apply Hf; now right.
  - rewrite List.Forall_forall in Hx. apply List.Forall_forall. intros y Hy.
    apply in_map_iff in Hy. destruct Hy as (b & <- & Hb).
    apply Hf; [now left|now right|now apply Hx].
Qed.

Section OrderedKeys.
Context {U : Type} {F : PyFloat U} {Srt : PySort} {HS : SortLaws}.

Lemma users_of_keys (demands : list Z) (utilities : list U) :
  map snd (users_of demands utilities) =
  map (efficiency demands utilities) (seq 0 (length demands)).
Proof. unfold users_of. now rewrite map_map. Qed.

(** On efficiencies that [<] orders the sort is the stable descending
    arrangement. *)
Lemma greedy_order_stable (demands : list Z) (utilities : list U) :
  ordered_by f_lt (map (efficiency demands utilities) (seq 0 (length demands))) ->
  greedy_order demands utilities = greedy_order (Srt := stable_sort) demands utilities.
Proof.
  intros Hord. unfold greedy_order. rewrite sort_stable; [reflexivity|].
  now rewrite users_of_keys.
Qed.

Lemma greedy_stable (demands : list Z) (utilities : list U) (capacity : Z) :
  (forall users, make_users demands utilities = Ok users ->
                 ordered_by f_lt (map snd users)) ->
  greedy_bandwidth_allocation demands utilities capacity =
  greedy_bandwidth_allocation (Srt := stable_sort) demands utilities capacity.
Proof.
  intros Hord. unfold greedy_bandwidth_allocation.
  destruct (make_users demands utilities) as [users|e]; [|reflexivity].
  simpl. rewrite sort_stable by now apply Hord. reflexivity.
Qed.

(** On efficiencies that [<] orders the candidates are visited by falling
    efficiency. *)
Lemma greedy_order_sorted (demands : list Z) (utilities : list U) :
  ordered_by f_lt (map (efficiency demands utilities) (seq 0 (length demands))) ->
  StronglySorted (fun a b => f_lt (efficiency demands utilities a)
                                  (efficiency demands utilities b) = false)
                 (greedy_order demands utilities).
Proof.
  intros Hord. rewrite greedy_order_stable by assumption.
  unfold greedy_order. cbn [sort_reverse stable_sort].
  rewrite <- users_of_keys in Hord.
  eapply StronglySorted_map; [|exact (list_sort_reverse_sorted f_lt snd _ Hord)].
  intros a b Ha Hb Hab.
  apply (Permutation_in _ (list_sort_reverse_perm _ _ _)) in Ha, Hb.
  unfold users_of in Ha, Hb. apply in_map_iff in Ha, Hb.
  destruct Ha as (ka & <- & _). destruct Hb as (kb & <- & _).
  simpl in *. now rewrite !Nat2Z.id.
Qed.

End OrderedKeys.

(** Settles a goal that the efficiencies of a literal instance are ordered. *)
#[local] Ltac ordered_keys :=
  let users := fresh "users" in
  let Hu := fresh "Hu" in
  intros users Hu; vm_compute in Hu; injection Hu as <-;
  apply orderedb_spec; vm_compute; reflexivity.

(** ** The first demand the greedy allocator cannot divide by *)

Section FirstFailure.
Context {U : Type} {F : PyFloat U} {Srt : PySort}.

Lemma mapM_first_failure {A B : Type} (body : A -> result B) (xs : list A) (y : A)
    (ys : list A) (e : exn) :
  (forall x, In x xs -> exists b, body x = Ok b) ->
  body y = Raise e ->
  mapM body (xs ++ y :: ys) = Raise e.
Proof.
  intros Hxs Hy. induction xs as [|x xs IH]; simpl.
  - now rewrite Hy.
  - destruct (Hxs x ltac:(now left)) as [b ->]. simpl.
    rewrite IH; [reflexivity|]. intros x' Hx'. apply Hxs. now right.
Qed.

(** The exception is that of the first demand that is zero or beyond the
    float range; the sort is not reached. *)
Lemma greedy_first_failure (demands : list Z) (utilities : list U) (capacity : Z)
    (before after : list Z) (d : Z) (e : exn) :
  (length demands <= length utilities)%nat ->
  demands = before ++ d :: after ->
  Forall (fun d' => d' <> 0 /\ converts U d') before ->
  (forall u, truediv u d = Raise e) ->
  greedy_bandwidth_allocation demands utilities capacity = Raise e.
Proof.
  intros Hlen -> Hbefore Hd. unfold greedy_bandwidth_allocation, make_users, len.
  rewrite range_nat, length_app. cbn [length].
  replace (length before + S (length after))%nat
    with (length before + (1 + length after))%nat by lia.
  rewrite seq_app, map_app. cbn [seq map Nat.add].
  rewrite length_app in Hlen. cbn [length] in Hlen.
  erewrite mapM_first_failure; [reflexivity| |].
  - intros i Hi. apply in_map_iff in Hi. destruct Hi as (k & <- & Hk). apply in_seq in Hk.
    rewrite getitem_nth_U by lia. simpl.
    rewrite getitem_nth by (rewrite length_app; simpl; lia). simpl.
    rewrite app_nth1 by lia.
    rewrite List.Forall_forall in Hbefore.
    destruct (Hbefore (nth k before 0)) as [Hnz Hconv]; [apply nth_In; lia|].
    rewrite truediv_ok by assumption. simpl. now eexists.
  - rewrite getitem_nth_U by lia. simpl.
    rewrite getitem_nth by (rewrite length_app; simpl; lia). simpl.
    rewrite app_nth2 by lia. rewrite Nat.sub_diag. simpl.
    now rewrite Hd.
Qed.

Lemma truediv_overflow (u : U) (d : Z) : f_of_int d = None -> truediv u d = Raise OverflowError.
Proof. intros Hd. unfold truediv, int_to_float. now rewrite Hd. Qed.

Lemma truediv_zero (u : U) : converts U 0 -> truediv u 0 = Raise ZeroDivisionError.
Proof. intros Hc. unfold truediv, int_to_float. now rewrite Hc. Qed.

(** The first demand without a float. *)
Lemma first_unconverted (demands : list Z) :
  Exists (fun d => f_of_int d = None) demands ->
  exists before d after,
    demands = before ++ d :: after /\ Forall (converts U) before /\ f_of_int d = None.
Proof.
  induction demands as [|d demands IH]; intros Hex; [inversion Hex|].
  destruct (f_of_int d) as [x|] eqn:Hd.
  - destruct IH as (before & d' & after & -> & Hb & Hd').
    { inversion Hex as [? ? Hnone|]; [congruence|assumption]. }
    exists (d :: before), d', after. split; [reflexivity|]. split; [|assumption].
    constructor; [|assumption]. unfold converts, to_float. now rewrite Hd.
  - exists [], d, demands. split; [reflexivity|]. split; [constructor|assumption].
Qed.

(** With no zero demand, a demand beyond the float range raises
    [OverflowError]. *)
Lemma greedy_overflow (demands : list Z) (utilities : list U) (capacity : Z) :
  (length demands <= length utilities)%nat ->
  Forall (fun d => d <> 0) demands ->
  Exists (fun d => f_of_int d = None) demands ->
  greedy_bandwidth_allocation demands utilities capacity = Raise OverflowError.
Proof.
  intros Hlen Hnz Hex.
  destruct (first_unconverted demands Hex) as (before & d & after & Hsplit & Hb & Hd).
  apply (greedy_first_failure demands utilities capacity before after d); try assumption.
  - subst demands. apply Forall_app in Hnz as [Hnz _].
    rewrite List.Forall_forall in *. intros d' Hd'. split; [now apply Hnz|now apply Hb].
  - intros u. now apply truediv_overflow.
Qed.

End FirstFailure.

(** C2, as stated, fails: demands are Python ints, which have no largest
    value, and the greedy allocator divides a float by each of them.  On
    demands [2^1024, 1], utilities [1.0, 1.0] and capacity 10 the division
    [utilities[0] / demands[0]] raises OverflowError, and nothing is
    returned.  The sort is not reached, so that it plays no part. *)
Lemma large_demand_overflows :
  Forall (fun d => 1 <= d) [2 ^ 1024; 1] /\ 0 <= 10 /\
  greedy_bandwidth_allocation (Srt := stable_sort) [2 ^ 1024; 1] [1; 1]%float 10
    = Raise OverflowError.
Proof.
  split; [|split].
  - repeat constructor; intros H; vm_compute in H; discriminate H.
  - intros H; discriminate H.
  - vm_compute. reflexivity.
Qed.

(** C2, amended: for every instance with all demands >= 1 and capacity >= 0,
    the exact allocator returns an allocation in which the demands of the
    indices marked 1 sum to at most the capacity, and so does the greedy
    allocator when every demand is within the float range (on binary64:
    below 2^1024 - 2^970); when some demand is not, the greedy allocator
    raises OverflowError. *)
Theorem allocators_within_capacity {U : Type} {F : PyFloat U} {HC : CmpLaws U}
    {Srt : PySort} {HS : SortLaws}
    (demands : list Z) (utilities : list U) (capacity : Z) :
  length utilities = length demands ->
  Forall (fun d => 1 <= d) demands ->
  0 <= capacity ->
  (Forall (converts U) demands ->
   exists alloc total,
      greedy_bandwidth_allocation demands utilities capacity = Ok (alloc, total) /\
      allocation_demand demands alloc <= capacity) /\
  (Exists (fun d => f_of_int d = None) demands ->
   greedy_bandwidth_allocation demands utilities capacity = Raise OverflowError) /\
  (exists alloc total,
      optimal_bandwidth_allocation demands utilities capacity = Ok (alloc, total) /\
      allocation_demand demands alloc <= capacity).
Proof.
  intros Hlen Hpos Hcap. split; [|split].
  - intros Hconv.
    destruct (greedy_feasible demands utilities capacity) as (alloc & total & Hrun & Hfeas);
      [lia|now apply positive_nonzero|assumption|assumption|].
    exists alloc, total. split; [assumption|apply Hfeas].
  - apply greedy_overflow; [lia|now apply positive_nonzero].
  - eexists _, _. split.
    + apply optimal_returns; [lia|now apply positive_nonneg|assumption].
    + now apply picked_demand.
Qed.

Lemma allocators_within_capacity_witness :
  (exists alloc total,
      greedy_bandwidth_allocation (Srt := stable_sort)
        [5; 3; 4; 6; 2] [10; 6; 8; 15; 5]%float 10 = Ok (alloc, total) /\
      allocation_demand [5; 3; 4; 6; 2] alloc <= 10) /\
  greedy_bandwidth_allocation (Srt := stable_sort)
    [2 ^ 1024; 1] [1; 1]%float 10 = Raise OverflowError /\
  (exists alloc total,
      optimal_bandwidth_allocation [5; 3; 4; 6; 2] [10; 6; 8; 15; 5]%float 10 = Ok (alloc, total) /\
      allocation_demand [5; 3; 4; 6; 2] alloc <= 10).
Proof.
  split; [|split].
  - refine (proj1 (allocators_within_capacity (U := float) (HS := stable_sort_laws)
                     [5; 3; 4; 6; 2] [10; 6; 8; 15; 5]%float 10 _ _ _) _).
    + reflexivity.
    + repeat constructor; lia.
    + lia.
    + repeat constructor.
  - refine (proj1 (proj2 (allocators_within_capacity (U := float) (HS := stable_sort_laws)
                     [2 ^ 1024; 1] [1; 1]%float 10 _ _ _)) _).
    + reflexivity.
    + repeat constructor; intros H; vm_compute in H; discriminate H.
    + lia.
    + left. vm_compute. reflexivity.
  - refine (proj2 (proj2 (allocators_within_capacity (U := float) (HS := stable_sort_laws)
                     [5; 3; 4; 6; 2] [10; 6; 8; 15; 5]%float 10 _ _ _))).
    + reflexivity.
    + repeat constructor; lia.
    + lia.
Defined.

(** C1: for every instance with all demands >= 1, capacity >= 0 and
    utilities in a carrier on which the order laws hold (on binary64: every
    utility neither NaN nor negative), the allocation the exact allocator
    returns is feasible, the total it returns is the total utility of that
    allocation, and no feasible 0/1 allocation has a total utility strictly
    above it. *)
Theorem optimal_is_optimal {U : Type} {F : PyFloat U} {HC : CmpLaws U}
    (ok : U -> Prop) {HO : OrderLaws U ok}
    (demands : list Z) (utilities : list U) (capacity : Z) :
  length utilities = length demands ->
  Forall (fun d => 1 <= d) demands ->
  Forall ok utilities ->
  0 <= capacity ->
  exists alloc total,
    optimal_bandwidth_allocation demands utilities capacity = Ok (alloc, total) /\
    feasible demands capacity alloc /\
    total = allocation_utility utilities alloc /\
    forall x, feasible demands capacity x ->
              f_lt total (allocation_utility utilities x) = false.
Proof.
  intros Hlen Hpos Hok Hcap. apply positive_nonneg in Hpos. eexists _, _.
  split; [|split; [|split]].
  - apply optimal_returns; [lia|assumption|assumption].
  - now apply optimal_feasible.
  - symmetry. apply picked_utility. lia.
  - intros x (Hx & _ & Hfit). rewrite <- Hx.
    apply (best_upper ok demands utilities Hpos Hok x capacity); [lia|assumption].
Qed.

Lemma optimal_is_optimal_witness :
  exists alloc total,
    optimal_bandwidth_allocation [5; 3; 4; 6; 2] scenario4_floats 10 = Ok (alloc, total) /\
    feasible [5; 3; 4; 6; 2] 10 alloc /\
    total = allocation_utility scenario4_floats alloc /\
    forall x, feasible [5; 3; 4; 6; 2] 10 x ->
              f_lt total (allocation_utility scenario4_floats x) = false.
Proof.
  apply (optimal_is_optimal (U := float) nonneg_float).
  - reflexivity.
  - repeat constructor; lia.
  - repeat constructor.
  - lia.
Defined.

(** C8, as stated, fails: with capacity 0 too the greedy allocator first
    divides by every demand.  On demands [2^1024, 1], utilities [1.0, 1.0]
    and capacity 0 it raises OverflowError. *)
Lemma large_demand_overflows_at_zero_capacity :
  Forall (fun d => 1 <= d) [2 ^ 1024; 1] /\
  greedy_bandwidth_allocation (Srt := stable_sort) [2 ^ 1024; 1] [1; 1]%float 0
    = Raise OverflowError.
Proof.
  split.
  - repeat constructor; intros H; vm_compute in H; discriminate H.
  - vm_compute. reflexivity.
Qed.

Lemma best_zero_capacity {U : Type} {F : PyFloat U} (demands : list Z) (utilities : list U) :
  Forall (fun d => 1 <= d) demands ->
  forall i, (i <= length demands)%nat -> best demands utilities i 0 = f_zero.
Proof.
  intros Hpos. induction i as [|i' IH]; intros Hi; [reflexivity|]. simpl.
  rewrite List.Forall_forall in Hpos.
  assert (1 <= nth i' demands 0) by (apply Hpos, nth_In; lia).
  destruct (Z.leb_spec (nth i' demands 0) 0); [lia|]. apply IH. lia.
Qed.

(** C8, amended: with all demands >= 1 and capacity 0, the exact allocator
    returns the all-zero allocation and total utility 0.0, and so does the
    greedy allocator when every demand is within the float range (on
    binary64: below 2^1024 - 2^970); when some demand is not, the greedy
    allocator raises OverflowError. *)
Theorem zero_capacity_allocates_nothing {U : Type} {F : PyFloat U} {HC : CmpLaws U}
    {Srt : PySort} {HS : SortLaws}
    (demands : list Z) (utilities : list U) :
  length utilities = length demands ->
  Forall (fun d => 1 <= d) demands ->
  (Forall (converts U) demands ->
   greedy_bandwidth_allocation demands utilities 0 = Ok (replicate (length demands) 0, f_zero)) /\
  (Exists (fun d => f_of_int d = None) demands ->
   greedy_bandwidth_allocation demands utilities 0 = Raise OverflowError) /\
  optimal_bandwidth_allocation demands utilities 0 = Ok (replicate (length demands) 0, f_zero).
Proof.
  intros Hlen Hpos. split; [|split].
  - intros Hconv. apply greedy_no_room; [lia|assumption|assumption|lia].
  - apply greedy_overflow; [lia|now apply positive_nonzero].
  - rewrite optimal_returns; [|lia|now apply positive_nonneg|lia].
    pose proof (best_zero_capacity demands utilities Hpos) as Hbest.
    assert (Hpicked : forall i, (i <= length demands)%nat ->
               picked demands utilities i 0 = replicate i 0).
    { induction i as [|i' IH]; intros Hi; [reflexivity|]. cbn [picked].
      rewrite !Hbest by lia. unfold f_ne. rewrite f_eq_zero. cbn [negb].
      rewrite IH by lia. symmetry. apply replicate_S_end. }
    now rewrite Hbest, Hpicked.
Qed.

Lemma zero_capacity_allocates_nothing_witness :
  greedy_bandwidth_allocation (Srt := stable_sort) [5; 3; 4; 6; 2] [10; 6; 8; 15; 5]%float 0
    = Ok ([0; 0; 0; 0; 0], 0%float) /\
  greedy_bandwidth_allocation (Srt := stable_sort) [2 ^ 1024; 1] [1; 1]%float 0
    = Raise OverflowError /\
  optimal_bandwidth_allocation [5; 3; 4; 6; 2] [10; 6; 8; 15; 5]%float 0
    = Ok ([0; 0; 0; 0; 0], 0%float).
Proof.
  split; [|split].
  - refine (proj1 (zero_capacity_allocates_nothing (U := float) (HS := stable_sort_laws)
                     [5; 3; 4; 6; 2] [10; 6; 8; 15; 5]%float _ _) _).
    + reflexivity.
    + repeat constructor; lia.
    + repeat constructor.
  - refine (proj1 (proj2 (zero_capacity_allocates_nothing (U := float) (HS := stable_sort_laws)
                     [2 ^ 1024; 1] [1; 1]%float _ _)) _).
    + reflexivity.
    + repeat constructor; intros H; vm_compute in H; discriminate H.
    + left. vm_compute. reflexivity.
  - refine (proj2 (proj2 (zero_capacity_allocates_nothing (U := float) (HS := stable_sort_laws)
                     [5; 3; 4; 6; 2] [10; 6; 8; 15; 5]%float _ _))).
    + reflexivity.
    + repeat constructor; lia.
Defined.

(** C10, as stated, fails: with a negative capacity too the greedy allocator
    first divides by every demand.  On demands [2^1024], utilities [1.0] and
    capacity -1 it raises OverflowError. *)
Lemma large_demand_overflows_at_negative_capacity :
  Forall (fun d => 1 <= d) [2 ^ 1024] /\
  greedy_bandwidth_allocation (Srt := stable_sort) [2 ^ 1024] [1]%float (-1)
    = Raise OverflowError.
Proof.
  split.
  - repeat constructor; intros H; vm_compute in H; discriminate H.
  - vm_compute. reflexivity.
Qed.

(** C10, amended: with all demands >= 1 and within the float range (on
    binary64: below 2^1024 - 2^970) and a negative capacity, the greedy
    allocator does not fail: no demand fits, and it returns the all-zero
    allocation and total utility 0.0. *)
Theorem greedy_negative_capacity {U : Type} {F : PyFloat U}
    {Srt : PySort} {HS : SortLaws}
    (demands : list Z) (utilities : list U) (capacity : Z) :
  length utilities = length demands ->
  Forall (fun d => 1 <= d) demands ->
  Forall (converts U) demands ->
  capacity < 0 ->
  greedy_accept demands capacity 0 (greedy_order demands utilities) = [] /\
  greedy_bandwidth_allocation demands utilities capacity =
  Ok (replicate (length demands) 0, f_zero).
Proof.
  intros Hlen Hpos Hconv Hcap. split.
  - apply greedy_accept_none. apply List.Forall_forall. intros k Hk.
    apply (Permutation_in _ (greedy_order_perm demands utilities)) in Hk.
    apply in_seq in Hk. rewrite List.Forall_forall in Hpos.
    assert (1 <= nth k demands 0) by (apply Hpos, nth_In; lia). lia.
  - apply greedy_no_room; [lia|assumption|assumption|lia].
Qed.

Lemma greedy_negative_capacity_witness :
  greedy_accept [5; 3; 4] (-3) 0
    (greedy_order (Srt := stable_sort) [5; 3; 4] [10; 6; 8]%float) = [] /\
  greedy_bandwidth_allocation (Srt := stable_sort) [5; 3; 4] [10; 6; 8]%float (-3)
    = Ok ([0; 0; 0], 0%float).
Proof.
  refine (greedy_negative_capacity (U := float) (HS := stable_sort_laws)
            [5; 3; 4] [10; 6; 8]%float (-3) _ _ _ _).
  - reflexivity.
  - repeat constructor; lia.
  - repeat constructor.
  - lia.
Defined.

(** The greedy total is the index-order sum of its allocation when addition
    is exact. *)
Lemma greedy_total_exact {U : Type} {F : PyFloat U} {HE : ExactLaws U}
    {Srt : PySort} {HS : SortLaws}
    (demands : list Z) (utilities : list U) (capacity : Z) :
  length utilities = length demands ->
  let acc := greedy_accept demands capacity 0 (greedy_order demands utilities) in
  utility_in_order utilities acc f_zero =
  allocation_utility utilities (mark acc (replicate (length demands) 0)).
Proof.
  intros Hlen acc. unfold allocation_utility.
  destruct (greedy_accepted demands utilities capacity 0) as [Hnd Hin].
  rewrite mark_utility.
  - now rewrite utility_from_zeros.
  - assumption.
  - intros k Hk. apply Hin in Hk. split; [|lia]. now apply lookup_replicate_2.
Qed.

(** C3, as stated, fails on floats: on demands [6, 3, 1], utilities
    [0.3, 0.2, 0.1] and capacity 10 both allocators accept everything, the
    greedy one adds 0.1 + 0.2 + 0.3 and returns 0.6000000000000001, the exact
    one adds 0.3 + 0.2 + 0.1 and returns 0.6.  (The efficiencies 0.05, 0.066..
    and 0.1 are ordered by [<], so that the sort is the stable one.) *)
Lemma greedy_exceeds_optimal_by_rounding :
  greedy_bandwidth_allocation (Srt := stable_sort) [6; 3; 1] rounding_utilities 10
    = Ok ([1; 1; 1], 0x1.3333333333334p-1%float) /\
  optimal_bandwidth_allocation [6; 3; 1] rounding_utilities 10
    = Ok ([1; 1; 1], 0x1.3333333333333p-1%float) /\
  f_lt 0x1.3333333333333p-1%float 0x1.3333333333334p-1%float = true.
Proof. vm_compute. repeat split; reflexivity. Qed.

(** C3, amended: for every instance with all demands >= 1 and capacity >= 0,
    in exact arithmetic (addition associative and commutative, [<] a total
    order that addition respects) the total utility the greedy allocator
    returns is at most the total the exact allocator returns. *)
Theorem greedy_le_optimal_exact {U : Type} {F : PyFloat U} {HC : CmpLaws U}
    {HO : OrderLaws U every} {HE : ExactLaws U} {Srt : PySort} {HS : SortLaws}
    (demands : list Z) (utilities : list U) (capacity : Z) :
  length utilities = length demands ->
  Forall (fun d => 1 <= d) demands ->
  0 <= capacity ->
  exists greedy_alloc greedy_total optimal_alloc optimal_total,
    greedy_bandwidth_allocation demands utilities capacity = Ok (greedy_alloc, greedy_total) /\
    optimal_bandwidth_allocation demands utilities capacity = Ok (optimal_alloc, optimal_total) /\
    f_le greedy_total optimal_total.
Proof.
  intros Hlen Hpos Hcap. eexists _, _, _, _. split; [|split].
  - apply greedy_run; [lia|now apply positive_nonzero|].
    apply List.Forall_forall. intros d _. apply f_of_int_exact.
  - apply optimal_returns; [lia|now apply positive_nonneg|assumption].
  - simpl. rewrite greedy_total_exact by assumption.
    destruct (greedy_accepted demands utilities capacity 0) as [Hnd Hin].
    set (alloc := mark _ _).
    assert (Halloc : length alloc = length demands)
      by (unfold alloc; now rewrite length_mark, length_replicate).
    rewrite <- Halloc.
    assert (Hany : Forall every utilities) by (apply List.Forall_forall; intros u _; exact I).
    apply (best_upper every demands utilities (positive_nonneg _ Hpos) Hany alloc capacity); [lia|].
    unfold alloc. rewrite mark_demand.
    + rewrite allocation_demand_zeros.
      now apply (greedy_accept_fits demands capacity 0).
    + assumption.
    + intros k Hk. apply lookup_replicate_2. now apply Hin.
Qed.

Lemma greedy_le_optimal_exact_witness :
  exists greedy_alloc greedy_total optimal_alloc optimal_total,
    greedy_bandwidth_allocation (Srt := stable_sort) [5; 3; 4; 6; 2] scenario4_utilities 10
      = Ok (greedy_alloc, greedy_total) /\
    optimal_bandwidth_allocation [5; 3; 4; 6; 2] scenario4_utilities 10
      = Ok (optimal_alloc, optimal_total) /\
    f_le greedy_total optimal_total.
Proof.
  apply (greedy_le_optimal_exact (U := Qc) (HS := stable_sort_laws)).
  - reflexivity.
  - repeat constructor; lia.
  - lia.
Defined.

(** C9, as stated, fails for the greedy allocator on floats: on demands
    [6, 3, 1], utilities [0.3, 0.2, 0.1] and capacity 10 it marks every index
    and returns 0.6000000000000001, while the utilities of the marked indices
    sum, in index order, to 0.6.  (The efficiencies are ordered by [<], so
    that the sort is the stable one.)  And on demands [2^1024, 1] it returns
    no allocation at all: the first division raises OverflowError. *)
Lemma greedy_total_is_not_index_sum :
  greedy_bandwidth_allocation (Srt := stable_sort) [6; 3; 1] rounding_utilities 10
    = Ok ([1; 1; 1], 0x1.3333333333334p-1%float) /\
  allocation_utility rounding_utilities [1; 1; 1] = 0x1.3333333333333p-1%float /\
  f_eq 0x1.3333333333334p-1%float 0x1.3333333333333p-1%float = false /\
  greedy_bandwidth_allocation (Srt := stable_sort) [2 ^ 1024; 1] [1; 1]%float 10
    = Raise OverflowError.
Proof. vm_compute. repeat split; reflexivity. Qed.

(** C9, amended: for every instance with all demands >= 1 and capacity >= 0,
    the exact allocator returns exactly n values, each 0 or 1, and the total
    it returns is the sum of the utilities of the indices it marks,
    accumulated from 0.0 in index order.  When every demand is within the
    float range (on binary64: below 2^1024 - 2^970) the greedy allocator
    returns exactly n values, each 0 or 1, and the total it returns is the
    sum of the utilities of the indices it marks, accumulated from 0.0 in
    the order it accepted them: a subsequence of the order the sort leaves
    the candidates in, which is by falling efficiency wherever [<] orders
    the efficiencies. *)
Theorem allocations_are_binary_and_totals_sum {U : Type} {F : PyFloat U} {HC : CmpLaws U}
    {Srt : PySort} {HS : SortLaws}
    (demands : list Z) (utilities : list U) (capacity : Z) :
  length utilities = length demands ->
  Forall (fun d => 1 <= d) demands ->
  0 <= capacity ->
  (exists optimal_alloc optimal_total,
    optimal_bandwidth_allocation demands utilities capacity = Ok (optimal_alloc, optimal_total) /\
    length optimal_alloc = length demands /\ binary optimal_alloc /\
    optimal_total = allocation_utility utilities optimal_alloc) /\
  (Forall (converts U) demands ->
   exists greedy_alloc greedy_total order,
    greedy_bandwidth_allocation demands utilities capacity = Ok (greedy_alloc, greedy_total) /\
    length greedy_alloc = length demands /\ binary greedy_alloc /\
    NoDup order /\
    (forall k, In k order <-> greedy_alloc !! k = Some 1) /\
    sublist order (greedy_order demands utilities) /\
    Permutation (greedy_order demands utilities) (seq 0 (length demands)) /\
    (ordered_by f_lt (map (efficiency demands utilities) (seq 0 (length demands))) ->
     StronglySorted (fun a b => f_lt (efficiency demands utilities a)
                                     (efficiency demands utilities b) = false)
                    (greedy_order demands utilities)) /\
    greedy_total = utility_in_order utilities order f_zero).
Proof.
  intros Hlen Hpos Hcap. split.
  - eexists _, _.
    split; [apply optimal_returns; [lia|now apply positive_nonneg|assumption]|].
    split; [apply length_picked|]. split; [apply binary_picked|].
    symmetry. apply picked_utility. lia.
  - intros Hconv.
    destruct (greedy_accepted demands utilities capacity 0) as [Hnd Hin].
    eexists _, _, (greedy_accept demands capacity 0 (greedy_order demands utilities)).
    split; [apply greedy_run; [lia|now apply positive_nonzero|assumption]|].
    simpl. split; [now rewrite length_mark, length_replicate|].
    split; [apply binary_mark, Forall_replicate; now left|].
    split; [assumption|]. split; [|split; [|split; [|split]]].
    + intros k. split.
      * intros Hk. apply mark_lookup_in; [assumption|].
        rewrite length_replicate. now apply Hin.
      * intros Hk. destruct (in_dec Nat.eq_dec k
          (greedy_accept demands capacity 0 (greedy_order demands utilities))) as [Hacc|Hacc];
          [assumption|].
        rewrite mark_lookup_notin in Hk by assumption.
        apply lookup_replicate in Hk. destruct Hk as [Hk _]. discriminate.
    + apply greedy_accept_sublist.
    + apply greedy_order_perm.
    + apply greedy_order_sorted.
    + reflexivity.
Qed.

Lemma allocations_are_binary_and_totals_sum_witness :
  (exists optimal_alloc optimal_total,
    optimal_bandwidth_allocation [6; 3; 1] rounding_utilities 10
      = Ok (optimal_alloc, optimal_total) /\
    length optimal_alloc = length [6; 3; 1] /\ binary optimal_alloc /\
    optimal_total = allocation_utility rounding_utilities optimal_alloc) /\
  (exists greedy_alloc greedy_total order,
    greedy_bandwidth_allocation (Srt := stable_sort) [6; 3; 1] rounding_utilities 10
      = Ok (greedy_alloc, greedy_total) /\
    length greedy_alloc = length [6; 3; 1] /\ binary greedy_alloc /\
    NoDup order /\
    (forall k, In k order <-> greedy_alloc !! k = Some 1) /\
    sublist order (greedy_order (Srt := stable_sort) [6; 3; 1] rounding_utilities) /\
    Permutation (greedy_order (Srt := stable_sort) [6; 3; 1] rounding_utilities)
                (seq 0 (length [6; 3; 1])) /\
    StronglySorted (fun a b => f_lt (efficiency [6; 3; 1] rounding_utilities a)
                                    (efficiency [6; 3; 1] rounding_utilities b) = false)
                   (greedy_order (Srt := stable_sort) [6; 3; 1] rounding_utilities) /\
    greedy_total = utility_in_order rounding_utilities order f_zero).
Proof.
  destruct (allocations_are_binary_and_totals_sum (U := float) (HS := stable_sort_laws)
              [6; 3; 1] rounding_utilities 10 eq_refl
              ltac:(repeat constructor; lia) ltac:(lia)) as [Hopt Hgreedy].
  split; [exact Hopt|].
  destruct (Hgreedy ltac:(repeat constructor))
    as (ga & gt & order & H1 & H2 & H3 & H4 & H5 & H6 & H7 & H8 & H9).
  exists ga, gt, order. repeat (split; [assumption|]). split; [|assumption].
  apply H8. apply orderedb_spec. vm_compute. reflexivity.
Defined.

(** ** Inputs outside the data model *)

Lemma getitem_nil {A : Type} (i : Z) : getitem (@nil A) i = Raise IndexError.
Proof.
  unfold getitem, position, len. simpl.
  now destruct (_ && _).
Qed.

Lemma getitem_ge {A : Type} (l : list A) (k : nat) :
  (length l <= k)%nat -> getitem l (Z.of_nat k) = Raise IndexError.
Proof.
  intros Hk. unfold getitem, position, len.
  destruct (Z.ltb_spec (Z.of_nat k) 0); [lia|].
  destruct (Z.leb_spec 0 (Z.of_nat k)); [|lia].
  destruct (Z.ltb_spec (Z.of_nat k) (Z.of_nat (length l))); [lia|reflexivity].
Qed.

Lemma mapM_raise_some {A B : Type} (f : A -> result B) (xs : list A) :
  Exists (fun x => exists e, f x = Raise e) xs -> exists e, mapM f xs = Raise e.
Proof.
  induction 1 as [x xs [e Hx]|x xs _ [e IH]]; simpl.
  - exists e. now rewrite Hx.
  - destruct (f x) as [y|e']; simpl; [|now exists e'].
    exists e. now rewrite IH.
Qed.

Lemma foldM_skip {A St : Type} (body : St -> A -> result St) (xs : list A) (st : St) :
  (forall st0 x, body st0 x = Ok st0) -> foldM body xs st = Ok st.
Proof.
  intros Hbody. induction xs as [|x xs IH]; simpl; [reflexivity|].
  now rewrite Hbody.
Qed.

Section Invalid.
Context {U : Type} {F : PyFloat U} {Srt : PySort}.

(** With a negative capacity the rows of the table are empty, nothing is
    filled in, and the first read of the table is out of range. *)
Lemma optimal_negative_capacity (demands : list Z) (utilities : list U) (capacity : Z) :
  capacity < 0 ->
  optimal_bandwidth_allocation demands utilities capacity = Raise IndexError.
Proof.
  intros Hcap. unfold optimal_bandwidth_allocation, fill_table.
  rewrite foldM_skip.
  2:{ intros dp i. unfold fill_row. now rewrite range_empty by lia. }
  cbn [bind]. unfold dp_init, len.
  replace (Z.to_nat (capacity + 1)) with 0%nat by lia.
  replace (Z.to_nat (Z.of_nat (length demands) + 1)) with (S (length demands)) by lia.
  assert (Hrow : forall k, (k <= length demands)%nat ->
             dp_get (replicate (S (length demands)) (@nil U)) (Z.of_nat k) capacity
             = Raise IndexError).
  { intros k Hk. unfold dp_get.
    rewrite (getitem_nat _ _ []) by (apply lookup_replicate_2; lia).
    simpl. apply getitem_nil. }
  unfold backtrack, len. destruct (length demands) as [|n'] eqn:Hn.
  - simpl. change 0 with (Z.of_nat 0). now rewrite Hrow.
  - rewrite range_down_S. cbn [foldM]. unfold backtrack_step at 1.
    now rewrite Hrow.
Qed.

Lemma greedy_short_utilities (demands : list Z) (utilities : list U) (capacity : Z) :
  (length utilities < length demands)%nat ->
  exists e, greedy_bandwidth_allocation demands utilities capacity = Raise e.
Proof.
  intros Hlen. unfold greedy_bandwidth_allocation, make_users.
  destruct (mapM_raise_some
              (fun i => u <- getitem utilities i ;; d <- getitem demands i ;;
                        e <- truediv u d ;; Ok (i, e))
              (range 0 (len demands))) as [e He].
  - apply List.Exists_exists. exists (Z.of_nat (length utilities)). split.
    + unfold len. rewrite range_nat. apply in_map, in_seq. lia.
    + exists IndexError. now rewrite getitem_ge.
  - exists e. now rewrite He.
Qed.

End Invalid.

(** C5, as stated, fails: neither allocator checks its input, and on each
    kind of input the claim calls invalid some allocator returns a result.
    A negative capacity: the greedy allocator returns the all-zero
    allocation.  A zero demand: the exact allocator accepts the candidate.
    Mismatched lengths: both allocators ignore a surplus utility.  (Each
    greedy call has a single candidate, which no sort can rearrange.) *)
Lemma invalid_input_is_not_rejected :
  greedy_bandwidth_allocation (Srt := stable_sort) [1] [1]%float (-3) = Ok ([0], 0%float) /\
  optimal_bandwidth_allocation [0] [1]%float 3 = Ok ([1], 1%float) /\
  greedy_bandwidth_allocation (Srt := stable_sort) [1] [1; 2]%float 3 = Ok ([1], 1%float) /\
  optimal_bandwidth_allocation [1] [1; 2]%float 3 = Ok ([1], 1%float).
Proof. vm_compute. repeat split; reflexivity. Qed.

(** C5, amended: the allocators have no input check and no error of their
    own; invalid input surfaces only as the exception of the operation that
    trips over it, and then no result is returned.  With a negative capacity
    the exact allocator raises IndexError, while the greedy allocator returns
    the all-zero allocation and 0.0 (demands >= 1 and within the float
    range).  With utilities as long as demands, the greedy allocator raises
    the exception of the first demand it cannot divide by: ZeroDivisionError
    when that demand is zero, OverflowError when it is beyond the float
    range.  With fewer utilities than demands the greedy allocator raises an
    exception. *)
Theorem invalid_input_behaviour {U : Type} {F : PyFloat U} {Srt : PySort} {HS : SortLaws}
    (demands : list Z) (utilities : list U) (capacity : Z) :
  (capacity < 0 ->
   optimal_bandwidth_allocation demands utilities capacity = Raise IndexError) /\
  (capacity < 0 ->
   length utilities = length demands ->
   Forall (fun d => 1 <= d) demands ->
   Forall (converts U) demands ->
   greedy_bandwidth_allocation demands utilities capacity =
   Ok (replicate (length demands) 0, f_zero)) /\
  (forall (before after : list Z) (d : Z),
   length utilities = length demands ->
   demands = before ++ d :: after ->
   Forall (fun d' => d' <> 0 /\ converts U d') before ->
   (d = 0 -> converts U 0 ->
    greedy_bandwidth_allocation demands utilities capacity = Raise ZeroDivisionError) /\
   (f_of_int d = None ->
    greedy_bandwidth_allocation demands utilities capacity = Raise OverflowError)) /\
  ((length utilities < length demands)%nat ->
   exists e, greedy_bandwidth_allocation demands utilities capacity = Raise e).
Proof.
  split; [|split; [|split]].
  - apply optimal_negative_capacity.
  - intros Hcap Hlen Hpos Hconv. apply greedy_no_room; [lia|assumption|assumption|lia].
  - intros before after d Hlen Hsplit Hbefore. split.
    + intros -> Hzero.
      apply (greedy_first_failure demands utilities capacity before after 0);
        [lia|assumption|assumption|].
      intros u. now apply truediv_zero.
    + intros Hd.
      apply (greedy_first_failure demands utilities capacity before after d);
        [lia|assumption|assumption|].
      intros u. now apply truediv_overflow.
  - apply greedy_short_utilities.
Qed.

Lemma invalid_input_behaviour_witness :
  optimal_bandwidth_allocation [5; 3] [10; 6]%float (-1) = Raise IndexError /\
  greedy_bandwidth_allocation (Srt := stable_sort) [5; 3] [10; 6]%float (-1)
    = Ok ([0; 0], 0%float) /\
  greedy_bandwidth_allocation (Srt := stable_sort) [5; 0; 2 ^ 1024] [10; 6; 1]%float 10
    = Raise ZeroDivisionError /\
  greedy_bandwidth_allocation (Srt := stable_sort) [5; 2 ^ 1024; 0] [10; 6; 1]%float 10
    = Raise OverflowError /\
  (exists e, greedy_bandwidth_allocation (Srt := stable_sort) [5; 3] [10]%float 10 = Raise e).
Proof.
  split; [|split; [|split; [|split]]].
  - refine (proj1 (invalid_input_behaviour (U := float) (HS := stable_sort_laws)
                     [5; 3] [10; 6]%float (-1)) _). lia.
  - refine (proj1 (proj2 (invalid_input_behaviour (U := float) (HS := stable_sort_laws)
                     [5; 3] [10; 6]%float (-1))) _ _ _ _).
    + lia.
    + reflexivity.
    + repeat constructor; lia.
    + repeat constructor.
  - refine (proj1 (proj1 (proj2 (proj2 (invalid_input_behaviour (U := float)
                     (HS := stable_sort_laws) [5; 0; 2 ^ 1024] [10; 6; 1]%float 10)))
                     [5] [2 ^ 1024] 0 _ _ _) _ _).
    + reflexivity.
    + reflexivity.
    + repeat constructor. lia.
    + reflexivity.
    + reflexivity.
  - refine (proj2 (proj1 (proj2 (proj2 (invalid_input_behaviour (U := float)
                     (HS := stable_sort_laws) [5; 2 ^ 1024; 0] [10; 6; 1]%float 10)))
                     [5] [0] (2 ^ 1024) _ _ _) _).
    + reflexivity.
    + reflexivity.
    + repeat constructor. lia.
    + vm_compute. reflexivity.
  - refine (proj2 (proj2 (proj2 (invalid_input_behaviour (U := float) (HS := stable_sort_laws)
                     [5; 3] [10]%float 10))) _).
    simpl. lia.
Defined.

(** C4, as stated, fails: on demands [1, 10], utilities [2.0, 10.0] and
    capacity 10 the greedy allocator takes the more efficient candidate 0,
    candidate 1 no longer fits, and it returns 2.0; the exact allocator
    returns 10.0, and twice 2.0 is below 10.0.  (The efficiencies 2.0 and 1.0
    are ordered by [<], so that the sort is the stable one.) *)
Lemma greedy_below_half_of_optimal :
  greedy_bandwidth_allocation (Srt := stable_sort) [1; 10] [2; 10]%float 10
    = Ok ([1; 0], 2%float) /\
  optimal_bandwidth_allocation [1; 10] [2; 10]%float 10 = Ok ([0; 1], 10%float) /\
  f_lt (f_add 2 2)%float 10%float = true.
Proof. vm_compute. repeat split; reflexivity. Qed.

(** C4, amended: no fraction of the optimal total bounds the greedy total
    from below.  For every int M with 5 <= M < 2^1024 - 2^970, on demands
    [1, M], utilities [2.0, float(M)] and capacity M, in binary64, the
    greedy allocator returns [1, 0] and 2.0 while the exact allocator returns
    [0, 1] and float(M), which is M rounded to 53 significant bits; twice the
    greedy total is below the exact total. *)
Theorem greedy_total_unbounded_below {Srt : PySort} {HS : SortLaws} (M : Z) :
  5 <= M < float_limit ->
  converts float M /\
  Zval (Prim2SF (to_float M)) = rnd (M * 2 ^ 1074) /\
  nonneg_float (to_float M) /\
  greedy_bandwidth_allocation [1; M] [2%float; to_float M] M = Ok ([1; 0], 2%float) /\
  optimal_bandwidth_allocation [1; M] [2%float; to_float M] M = Ok ([0; 1], to_float M) /\
  f_lt (f_add 2%float 2%float) (to_float M) = true.
Proof.
  intros HM.
  assert (Hconv : converts float M) by (apply float_converts; lia).
  destruct (to_float_finite M ltac:(lia)) as (m & e & Hx & Hz).
  destruct (four_lt_to_float M HM) as [Hlt4 Hlt].
  split; [exact Hconv|]. split; [rewrite Hx; exact Hz|].
  split; [unfold nonneg_float; now rewrite Hx|].
  split; [|split; [|exact Hlt4]].
  - assert (Husers : users_of [1; M] [2%float; to_float M] = [(0, 2%float); (1, 1%float)]).
    { unfold users_of, efficiency. cbn [length seq map nth Z.of_nat Pos.of_succ_nat].
      assert (Hdiv : f_div (to_float M) (to_float M) = 1%float) by exact (div_self _ m e Hx).
      rewrite Hdiv. reflexivity. }
    assert (Horder : greedy_order [1; M] [2%float; to_float M] = [0%nat; 1%nat]).
    { unfold greedy_order. rewrite Husers.
      rewrite sort_stable by (apply orderedb_spec; vm_compute; reflexivity).
      reflexivity. }
    rewrite greedy_run; [|simpl; lia|repeat constructor; lia|repeat constructor; assumption].
    rewrite Horder. cbn [greedy_accept nth].
    destruct (Z.leb_spec (0 + 1) M) as [_|Hbad]; [|lia].
    cbn [greedy_accept nth].
    destruct (Z.leb_spec (0 + 1 + M) M) as [Hbad|_]; [lia|].
    reflexivity.
  - rewrite optimal_returns; [|simpl; lia|repeat constructor; lia|lia].
    cbn [length best picked nth].
    destruct (Z.leb_spec M M) as [_|Hbad]; [|lia].
    destruct (Z.leb_spec 1 M) as [_|Hbad]; [|lia].
    replace (M - M) with 0 by lia.
    destruct (Z.leb_spec 1 0) as [Hbad|_]; [lia|].
    change (f_add f_zero 2%float) with 2%float.
    change (py_max f_zero 2%float) with 2%float.
    change (f_add f_zero (to_float M)) with (0 + to_float M)%float.
    rewrite (add_zero_l _ m e Hx).
    unfold py_max. change (f_lt 2%float (to_float M)) with (2 <? to_float M)%float.
    rewrite Hlt.
    assert (Hne : f_ne (to_float M) 2%float = true).
    { unfold f_ne. rewrite (f_lt_ne 2%float (to_float M)); [reflexivity|exact Hlt]. }
    rewrite Hne. cbn [app].
    change (f_ne f_zero f_zero) with false. reflexivity.
Qed.

Lemma greedy_total_unbounded_below_witness :
  converts float 10 /\
  Zval (Prim2SF (to_float 10)) = rnd (10 * 2 ^ 1074) /\
  nonneg_float (to_float 10) /\
  greedy_bandwidth_allocation (Srt := stable_sort) [1; 10] [2%float; to_float 10] 10
    = Ok ([1; 0], 2%float) /\
  optimal_bandwidth_allocation [1; 10] [2%float; to_float 10] 10 = Ok ([0; 1], to_float 10) /\
  f_lt (f_add 2%float 2%float) (to_float 10) = true.
Proof.
  apply (greedy_total_unbounded_below (HS := stable_sort_laws) 10).
  split; [lia|]. vm_compute. reflexivity.
Defined.

(** C6, as stated, fails: on Scenario 4 the exact allocator returns 23.0,
    which is the brute-force maximum, not 24.0; and the indices {1, 3} the
    claim names have total utility 21.0. *)
Lemma scenario4_optimum_is_not_24 :
  optimal_bandwidth_allocation [5; 3; 4; 6; 2] [10; 6; 8; 15; 5]%float 10
    = Ok ([0; 0; 1; 1; 0], 23%float) /\
  brute_force_max [5; 3; 4; 6; 2] [10; 6; 8; 15; 5]%float 10 = 23%float /\
  f_eq 23%float 24%float = false /\
  allocation_utility [10; 6; 8; 15; 5]%float [0; 1; 0; 1; 0] = 21%float.
Proof. vm_compute. repeat split; reflexivity. Qed.

(** C6, amended: on demands [5, 3, 4, 6, 2], utilities
    [10.0, 6.0, 8.0, 15.0, 5.0] and capacity 10 both allocators return a
    feasible allocation, and the total utility the exact allocator returns is
    the brute-force maximum over all feasible 0/1 allocations, which is 23.0,
    reached by accepting the indices {2, 3}. *)
Theorem scenario4_optimum {Srt : PySort} {HS : SortLaws} :
  (exists alloc total,
      greedy_bandwidth_allocation [5; 3; 4; 6; 2] [10; 6; 8; 15; 5]%float 10 = Ok (alloc, total) /\
      feasibleb [5; 3; 4; 6; 2] 10 alloc = true) /\
  optimal_bandwidth_allocation [5; 3; 4; 6; 2] [10; 6; 8; 15; 5]%float 10
    = Ok ([0; 0; 1; 1; 0], 23%float) /\
  feasibleb [5; 3; 4; 6; 2] 10 [0; 0; 1; 1; 0] = true /\
  brute_force_max [5; 3; 4; 6; 2] [10; 6; 8; 15; 5]%float 10 = 23%float /\
  allocation_utility [10; 6; 8; 15; 5]%float [0; 0; 1; 1; 0] = 23%float.
Proof.
  split.
  - exists [0; 0; 0; 1; 1], 20%float. rewrite greedy_stable by ordered_keys.
    vm_compute. split; reflexivity.
  - vm_compute. repeat split; reflexivity.
Qed.

Lemma scenario4_optimum_witness :
  (exists alloc total,
      greedy_bandwidth_allocation (Srt := stable_sort)
        [5; 3; 4; 6; 2] [10; 6; 8; 15; 5]%float 10 = Ok (alloc, total) /\
      feasibleb [5; 3; 4; 6; 2] 10 alloc = true) /\
  optimal_bandwidth_allocation [5; 3; 4; 6; 2] [10; 6; 8; 15; 5]%float 10
    = Ok ([0; 0; 1; 1; 0], 23%float) /\
  feasibleb [5; 3; 4; 6; 2] 10 [0; 0; 1; 1; 0] = true /\
  brute_force_max [5; 3; 4; 6; 2] [10; 6; 8; 15; 5]%float 10 = 23%float /\
  allocation_utility [10; 6; 8; 15; 5]%float [0; 0; 1; 1; 0] = 23%float.
Proof. exact (scenario4_optimum (HS := stable_sort_laws)). Defined.

(** C7: on demands [1, 2], utilities [1.0, 2.0] and capacity 2 both
    candidates have efficiency 1.0, the sort keeps them in input order, the
    greedy allocator returns [1, 0] with total utility 1.0 and the exact
    allocator returns [0, 1] with total utility 2.0. *)
Theorem pathological_tie_break {Srt : PySort} {HS : SortLaws} :
  make_users [1; 2] [1; 2]%float = Ok [(0, 1%float); (1, 1%float)] /\
  greedy_order [1; 2] [1; 2]%float = [0%nat; 1%nat] /\
  greedy_bandwidth_allocation [1; 2] [1; 2]%float 2 = Ok ([1; 0], 1%float) /\
  optimal_bandwidth_allocation [1; 2] [1; 2]%float 2 = Ok ([0; 1], 2%float).
Proof.
  split; [vm_compute; reflexivity|]. split; [|split].
  - rewrite greedy_order_stable by (apply orderedb_spec; vm_compute; reflexivity).
    vm_compute. reflexivity.
  - rewrite greedy_stable by ordered_keys. vm_compute. reflexivity.
  - vm_compute. reflexivity.
Qed.

Lemma pathological_tie_break_witness :
  make_users [1; 2] [1; 2]%float = Ok [(0, 1%float); (1, 1%float)] /\
  greedy_order (Srt := stable_sort) [1; 2] [1; 2]%float = [0%nat; 1%nat] /\
  greedy_bandwidth_allocation (Srt := stable_sort) [1; 2] [1; 2]%float 2
    = Ok ([1; 0], 1%float) /\
  optimal_bandwidth_allocation [1; 2] [1; 2]%float 2 = Ok ([0; 1], 2%float).
Proof. exact (pathological_tie_break (HS := stable_sort_laws)). Defined.

(** * Further properties: edge cases, invariants and the experiment drivers *)

(** ** The greedy allocator leaves out nothing that still fits *)

Lemma demand_of_accept_nonneg (demands : list Z) (acc : list nat) :
  Forall (fun d => 0 <= d) demands -> 0 <= demand_of demands acc.
Proof.
  intros Hd. induction acc as [|k acc IH]; simpl; [lia|].
  assert (0 <= nth k demands 0); [|lia].
  destruct (nth_in_or_default k demands 0) as [Hin| ->]; [|lia].
  rewrite List.Forall_forall in Hd. now apply Hd.
Qed.

(** A candidate the loop passed over did not fit then, and the capacity in
    use only grows. *)
Lemma greedy_accept_rejected (demands : list Z) (capacity : Z) (k : nat) (idxs : list nat) :
  Forall (fun d => 0 <= d) demands ->
  forall used : Z,
    In k idxs -> ~ In k (greedy_accept demands capacity used idxs) ->
    capacity < used + demand_of demands (greedy_accept demands capacity used idxs)
               + nth k demands 0.
Proof.
  intros Hd. induction idxs as [|j rest IH]; intros used Hin Hout; [destruct Hin|].
  cbn [greedy_accept] in *. cbv zeta in *.
  destruct (Z.leb_spec (used + nth j demands 0) capacity) as [Hfit|Hfit].
  - assert (Hkj : k <> j) by (intros ->; apply Hout; now left).
    destruct Hin as [Hin|Hin]; [congruence|].
    assert (Hout' : ~ In k (greedy_accept demands capacity (used + nth j demands 0) rest))
      by (intros Hk; apply Hout; now right).
    specialize (IH (used + nth j demands 0) Hin Hout').
    cbn [demand_of fold_right]. fold (demand_of demands
      (greedy_accept demands capacity (used + nth j demands 0) rest)). lia.
  - pose proof (demand_of_accept_nonneg demands
                  (greedy_accept demands capacity used rest) Hd) as Hnn.
    destruct Hin as [->|Hin]; [lia|]. now apply IH.
Qed.

Lemma greedy_allocation_demand {U : Type} {F : PyFloat U} {Srt : PySort} {HS : SortLaws}
    (demands : list Z) (utilities : list U) (capacity : Z) :
  let acc := greedy_accept demands capacity 0 (greedy_order demands utilities) in
  allocation_demand demands (mark acc (replicate (length demands) 0)) =
  demand_of demands acc.
Proof.
  intros acc. destruct (greedy_accepted demands utilities capacity 0) as [Hnd Hin].
  fold acc in Hnd, Hin. rewrite mark_demand.
  - now rewrite allocation_demand_zeros.
  - assumption.
  - intros k Hk. apply lookup_replicate_2. now apply Hin.
Qed.

Lemma greedy_zero_mark_too_big {U : Type} {F : PyFloat U} {Srt : PySort} {HS : SortLaws}
    (demands : list Z) (utilities : list U) (capacity : Z) (k : nat) :
  Forall (fun d => 0 <= d) demands ->
  let alloc := mark (greedy_accept demands capacity 0 (greedy_order demands utilities))
                    (replicate (length demands) 0) in
  alloc !! k = Some 0 ->
  capacity < allocation_demand demands alloc + nth k demands 0.
Proof.
  intros Hnn alloc Hk. unfold alloc in *. rewrite greedy_allocation_demand.
  set (acc := greedy_accept demands capacity 0 (greedy_order demands utilities)) in *.
  assert (Hkn : (k < length demands)%nat).
  { apply lookup_lt_Some in Hk. now rewrite length_mark, length_replicate in Hk. }
  assert (Hout : ~ In k acc).
  { intros Hin. rewrite (mark_lookup_in acc _ k Hin) in Hk; [discriminate Hk|].
    now rewrite length_replicate. }
  apply (greedy_accept_rejected demands capacity k (greedy_order demands utilities) Hnn 0);
    [|exact Hout].
  apply (Permutation_in k (Permutation_sym (greedy_order_perm demands utilities))).
  apply in_seq. lia.
Qed.

(** X1: with demands >= 1 and within the float range, the greedy allocator
    leaves out nothing that still fits: a candidate it marks 0 has a demand
    above the capacity its allocation leaves free. *)
Theorem greedy_leaves_no_room {U : Type} {F : PyFloat U} {Srt : PySort} {HS : SortLaws}
    (demands : list Z) (utilities : list U) (capacity : Z) :
  (length demands <= length utilities)%nat ->
  Forall (fun d => 1 <= d) demands ->
  Forall (converts U) demands ->
  exists alloc total,
    greedy_bandwidth_allocation demands utilities capacity = Ok (alloc, total) /\
    forall k : nat,
      alloc !! k = Some 0 ->
      capacity < allocation_demand demands alloc + nth k demands 0.
Proof.
  intros Hlen Hpos Hconv. eexists _, _. split.
  - apply greedy_run; [assumption|now apply positive_nonzero|assumption].
  - cbv zeta. intros k.
    apply (greedy_zero_mark_too_big demands utilities capacity k).
    now apply positive_nonneg.
Qed.

Lemma greedy_leaves_no_room_witness :
  exists alloc total,
    greedy_bandwidth_allocation (Srt := stable_sort) [6; 5; 5] [60; 45; 45]%float 10
      = Ok (alloc, total) /\
    forall k : nat,
      alloc !! k = Some 0 ->
      10 < allocation_demand [6; 5; 5] alloc + nth k [6; 5; 5] 0.
Proof.
  apply (greedy_leaves_no_room (U := float) (HS := stable_sort_laws)).
  - simpl. lia.
  - repeat constructor; lia.
  - repeat constructor.
Defined.

(** ** When every candidate fits, the greedy allocator accepts them all *)

Lemma allocation_demand_room (demands x : list Z) (k : nat) :
  Forall (fun d => 0 <= d) demands ->
  x !! k = Some 0 ->
  allocation_demand demands x + nth k demands 0 <= total_demand demands.
Proof.
  intros Hd. revert x k. induction Hd as [|d demands Hd0 Hd IH]; intros x k Hk.
  - destruct x, k; simpl; lia.
  - destruct x as [|a x]; [discriminate Hk|]. destruct k as [|k]; simpl in *.
    + injection Hk as ->. simpl.
      assert (allocation_demand demands x <= total_demand demands); [|lia].
      clear -Hd. revert x. induction Hd as [|d' demands Hd0 Hd IH]; intros [|a x]; simpl;
        try lia.
      * unfold total_demand. simpl. assert (0 <= fold_right Z.add 0 demands); [|lia].
        clear -Hd. induction Hd; simpl; lia.
      * specialize (IH x). unfold total_demand in *. simpl. destruct (a =? 1); lia.
    + specialize (IH x k Hk). unfold total_demand in *. simpl. destruct (a =? 1); lia.
Qed.

(** X2: when the demands (each >= 1 and within the float range) are
    together within the capacity, the greedy allocator marks every
    candidate. *)
Theorem greedy_accepts_all_when_all_fit {U : Type} {F : PyFloat U}
    {Srt : PySort} {HS : SortLaws}
    (demands : list Z) (utilities : list U) (capacity : Z) :
  (length demands <= length utilities)%nat ->
  Forall (fun d => 1 <= d) demands ->
  Forall (converts U) demands ->
  total_demand demands <= capacity ->
  exists total,
    greedy_bandwidth_allocation demands utilities capacity =
    Ok (replicate (length demands) 1, total).
Proof.
  intros Hlen Hpos Hconv Hfit. eexists.
  rewrite greedy_run by (try assumption; now apply positive_nonzero). cbv zeta.
  do 2 f_equal.
  set (alloc := mark _ _).
  assert (Hn : length alloc = length demands)
    by (unfold alloc; now rewrite length_mark, length_replicate).
  assert (Hbin : binary alloc)
    by (unfold alloc; apply binary_mark, Forall_replicate; now left).
  rewrite <- Hn.
  apply list_eq. intros k. destruct (alloc !! k) as [a|] eqn:Hk.
  - rewrite lookup_replicate_2 by (now apply lookup_lt_Some in Hk).
    f_equal. unfold binary in Hbin. rewrite List.Forall_forall in Hbin.
    destruct (Hbin a) as [-> | ->]; [| |reflexivity].
    + apply list_elem_of_In. now apply list_elem_of_lookup_2 in Hk.
    + pose proof (greedy_zero_mark_too_big demands utilities capacity k
                    (positive_nonneg _ Hpos) Hk) as Hroom.
      pose proof (allocation_demand_room demands alloc k (positive_nonneg _ Hpos) Hk).
      fold alloc in Hroom. lia.
  - apply lookup_ge_None in Hk. symmetry. apply lookup_ge_None.
    now rewrite length_replicate.
Qed.

Lemma greedy_accepts_all_when_all_fit_witness :
  exists total,
    greedy_bandwidth_allocation (Srt := stable_sort) [6; 3; 1] rounding_utilities 10 =
    Ok (replicate (length [6; 3; 1]) 1, total).
Proof.
  apply (greedy_accepts_all_when_all_fit (U := float) (HS := stable_sort_laws)).
  - simpl. lia.
  - repeat constructor; lia.
  - repeat constructor.
  - unfold total_demand. simpl. lia.
Defined.

(** ** Candidates listed by falling efficiency are visited in input order *)

Section SortedInput.
Context {A K : Type} (lt : K -> K -> bool) (key : A -> K).

Lemma list_sort_rev_id (l : list A) :
  never_rising lt key l -> list_sort lt key (rev l) = rev l.
Proof.
  induction l as [|x l IH] using rev_ind; intros Hl; [reflexivity|].
  rewrite rev_app_distr. cbn [rev app list_sort].
  rewrite IH.
  - destruct l as [|y l] using rev_ind; [reflexivity|].
    rewrite rev_app_distr. cbn [rev app insert_sorted].
    rewrite (Hl (length l) y x); [reflexivity| |].
    + rewrite <- app_assoc. now apply list_lookup_middle.
    + rewrite lookup_app_r by (rewrite length_app; simpl; lia).
      rewrite length_app. simpl. now replace (S (length l) - (length l + 1))%nat with 0%nat by lia.
  - intros i a b Ha Hb. apply (Hl i a b).
    + apply lookup_app_l_Some. exact Ha.
    + apply lookup_app_l_Some. exact Hb.
Qed.

(** The sort leaves a list alone whose keys never rise: equal keys keep
    their places. *)
Lemma list_sort_reverse_id (l : list A) :
  never_rising lt key l -> list_sort_reverse lt key l = l.
Proof.
  intros Hl. unfold list_sort_reverse. rewrite list_sort_rev_id by assumption.
  apply rev_involutive.
Qed.

End SortedInput.

Lemma greedy_order_input_order {U : Type} {F : PyFloat U} {Srt : PySort} {HS : SortLaws}
    (demands : list Z) (utilities : list U) :
  ordered_by f_lt (map (efficiency demands utilities) (seq 0 (length demands))) ->
  (forall k : nat, (S k < length demands)%nat ->
     f_lt (efficiency demands utilities k) (efficiency demands utilities (S k)) = false) ->
  greedy_order demands utilities = seq 0 (length demands).
Proof.
  intros Hord Hfall. rewrite greedy_order_stable by assumption.
  unfold greedy_order. cbn [sort_reverse stable_sort]. rewrite list_sort_reverse_id.
  - unfold users_of. rewrite map_map. simpl. rewrite <- (map_id (seq 0 (length demands))) at 2.
    apply map_ext. intros k. apply Nat2Z.id.
  - intros i a b Ha Hb. unfold users_of in Ha, Hb.
    rewrite list_lookup_fmap in Ha, Hb.
    destruct (seq 0 (length demands) !! i) as [j|] eqn:Hj; [|discriminate Ha].
    destruct (seq 0 (length demands) !! S i) as [j'|] eqn:Hj'; [|discriminate Hb].
    apply lookup_seq in Hj as [-> _]. apply lookup_seq in Hj' as [-> Hlt].
    injection Ha as <-. injection Hb as <-. simpl. now apply Hfall.
Qed.

Lemma greedy_accept_app (demands : list Z) (capacity : Z) (l1 l2 : list nat) :
  forall used : Z,
    greedy_accept demands capacity used (l1 ++ l2) =
    greedy_accept demands capacity used l1 ++
    greedy_accept demands capacity
      (used + demand_of demands (greedy_accept demands capacity used l1)) l2.
Proof.
  induction l1 as [|k l1 IH]; intros used; simpl.
  - now rewrite Z.add_0_r.
  - destruct (used + nth k demands 0 <=? capacity); simpl.
    + rewrite IH. do 3 f_equal. lia.
    + apply IH.
Qed.

Lemma demand_of_app (demands : list Z) (l1 l2 : list nat) :
  demand_of demands (l1 ++ l2) = demand_of demands l1 + demand_of demands l2.
Proof.
  induction l1 as [|k l1 IH]; simpl; [reflexivity|].
  fold (demand_of demands (l1 ++ l2)). fold (demand_of demands l1). lia.
Qed.

Lemma length_first_fit (demands : list Z) (capacity : Z) (m : nat) :
  length (first_fit demands capacity m) = m.
Proof.
  induction m as [|m IH]; simpl; [reflexivity|]. rewrite length_app, IH. simpl. lia.
Qed.

(** Visiting the candidates in input order is first fit. *)
Lemma greedy_accept_first_fit {U : Type} {F : PyFloat U}
    (demands : list Z) (utilities : list U) (capacity : Z) (n m : nat) (t : U) :
  (m <= n)%nat -> (m <= length utilities)%nat ->
  let acc := greedy_accept demands capacity 0 (seq 0 m) in
  demand_of demands acc = allocation_demand demands (first_fit demands capacity m) /\
  mark acc (replicate n 0) = first_fit demands capacity m ++ replicate (n - m) 0 /\
  utility_in_order utilities acc t = utility_from t utilities (first_fit demands capacity m).
Proof.
  induction m as [|m IH]; intros Hmn Hmu; cbv zeta.
  - simpl. rewrite Nat.sub_0_r. repeat split; [now destruct demands|now destruct utilities].
  - destruct IH as (Hd & Hm & Hu); [lia|lia|]. cbv zeta in Hd, Hm, Hu.
    rewrite seq_S, greedy_accept_app. cbn [first_fit Nat.add].
    set (acc := greedy_accept demands capacity 0 (seq 0 m)) in *.
    set (x := first_fit demands capacity m) in *.
    assert (Hx : length x = m) by apply length_first_fit.
    rewrite Z.add_0_l, Hd. cbn [greedy_accept].
    rewrite allocation_demand_snoc, Hx.
    rewrite (utility_from_snoc utilities t x) by lia. rewrite Hx.
    unfold mark, utility_in_order. rewrite !fold_left_app.
    fold (mark acc (replicate n 0)). fold (utility_in_order utilities acc t).
    rewrite Hm, Hu, demand_of_app, Hd.
    replace (n - m)%nat with (S (n - S m)) by lia.
    destruct (allocation_demand demands x + nth m demands 0 <=? capacity); simpl.
    + repeat split; try lia.
      rewrite <- Hx at 1. rewrite insert_app_r_alt, Nat.sub_diag by lia. simpl.
      now rewrite <- app_assoc.
    + repeat split; try lia. now rewrite <- app_assoc.
Qed.

Lemma greedy_sorted_result {U : Type} {F : PyFloat U}
    (demands : list Z) (utilities : list U) (capacity : Z) :
  (length demands <= length utilities)%nat ->
  let acc := greedy_accept demands capacity 0 (seq 0 (length demands)) in
  (mark acc (replicate (length demands) 0), utility_in_order utilities acc f_zero) =
  (first_fit demands capacity (length demands),
   allocation_utility utilities (first_fit demands capacity (length demands))).
Proof.
  intros Hlen. cbv zeta.
  destruct (greedy_accept_first_fit demands utilities capacity
              (length demands) (length demands) f_zero) as (_ & Hm & Hu); [lia|lia|].
  cbv zeta in Hm, Hu. rewrite Hm, Hu, Nat.sub_diag. simpl. now rewrite app_nil_r.
Qed.

(** X3: with demands >= 1 and within the float range and efficiencies that
    [<] orders (none is NaN), when no candidate is less efficient than the
    one after it (all equally efficient, for one), the greedy allocator is
    first fit in input order, and the total it returns is the sum of the
    utilities it marks in index order, on floats too. *)
Theorem greedy_first_fit_when_sorted {U : Type} {F : PyFloat U}
    {Srt : PySort} {HS : SortLaws}
    (demands : list Z) (utilities : list U) (capacity : Z) :
  (length demands <= length utilities)%nat ->
  Forall (fun d => 1 <= d) demands ->
  Forall (converts U) demands ->
  ordered_by f_lt (map (efficiency demands utilities) (seq 0 (length demands))) ->
  (forall k : nat, (S k < length demands)%nat ->
     f_lt (efficiency demands utilities k) (efficiency demands utilities (S k)) = false) ->
  greedy_bandwidth_allocation demands utilities capacity =
  Ok (first_fit demands capacity (length demands),
      allocation_utility utilities (first_fit demands capacity (length demands))).
Proof.
  intros Hlen Hpos Hconv Hord Hfall.
  rewrite greedy_run by (try assumption; now apply positive_nonzero).
  rewrite greedy_order_input_order by assumption.
  f_equal. now apply greedy_sorted_result.
Qed.

Lemma greedy_first_fit_when_sorted_witness :
  greedy_bandwidth_allocation (Srt := stable_sort) [1; 2] [1; 2]%float 2 =
  Ok (first_fit [1; 2] 2 (length [1; 2]),
      allocation_utility [1; 2]%float (first_fit [1; 2] 2 (length [1; 2]))).
Proof.
  apply (greedy_first_fit_when_sorted (U := float) (HS := stable_sort_laws)).
  - simpl. lia.
  - repeat constructor; lia.
  - repeat constructor.
  - apply orderedb_spec. vm_compute. reflexivity.
  - intros [|[|k]] Hk; simpl in Hk; try lia. reflexivity.
Defined.

(** X4: on candidates listed by falling efficiency (demands >= 1 and
    within the float range, efficiencies that [<] orders) the greedy total
    is at most the exact total in floating point as well: both are
    index-order sums. *)
Theorem greedy_le_optimal_when_sorted {U : Type} {F : PyFloat U} {HC : CmpLaws U}
    (ok : U -> Prop) {HO : OrderLaws U ok} {Srt : PySort} {HS : SortLaws}
    (demands : list Z) (utilities : list U) (capacity : Z) :
  length utilities = length demands ->
  Forall (fun d => 1 <= d) demands ->
  Forall (converts U) demands ->
  Forall ok utilities ->
  0 <= capacity ->
  ordered_by f_lt (map (efficiency demands utilities) (seq 0 (length demands))) ->
  (forall k : nat, (S k < length demands)%nat ->
     f_lt (efficiency demands utilities k) (efficiency demands utilities (S k)) = false) ->
  exists greedy_alloc greedy_total optimal_alloc optimal_total,
    greedy_bandwidth_allocation demands utilities capacity = Ok (greedy_alloc, greedy_total) /\
    optimal_bandwidth_allocation demands utilities capacity = Ok (optimal_alloc, optimal_total) /\
    f_lt optimal_total greedy_total = false.
Proof.
  intros Hlen Hpos Hconv Hok Hcap Hord Hfall.
  assert (Hrun : greedy_bandwidth_allocation demands utilities capacity =
                 Ok (first_fit demands capacity (length demands),
                     allocation_utility utilities (first_fit demands capacity (length demands)))).
  { rewrite greedy_run by (try (now apply positive_nonzero); try assumption; lia).
    rewrite greedy_order_input_order by assumption.
    f_equal. apply greedy_sorted_result. lia. }
  eexists _, _, _, _. split; [exact Hrun|]. split.
  - apply optimal_returns; [lia|now apply positive_nonneg|assumption].
  - destruct (greedy_feasible demands utilities capacity) as (alloc & total & Hrun' & Hfeas);
      [lia|now apply positive_nonzero|assumption|assumption|].
    rewrite Hrun in Hrun'. injection Hrun' as <- _. destruct Hfeas as (Hx & _ & Hfit).
    pose proof (best_upper ok demands utilities (positive_nonneg _ Hpos) Hok
                  (first_fit demands capacity (length demands)) capacity
                  ltac:(lia) Hfit) as Hbest.
    rewrite Hx in Hbest. exact Hbest.
Qed.

Lemma greedy_le_optimal_when_sorted_witness :
  exists greedy_alloc greedy_total optimal_alloc optimal_total,
    greedy_bandwidth_allocation (Srt := stable_sort) [6; 3; 1] [60; 27; 8]%float 9
      = Ok (greedy_alloc, greedy_total) /\
    optimal_bandwidth_allocation [6; 3; 1] [60; 27; 8]%float 9 = Ok (optimal_alloc, optimal_total) /\
    f_lt optimal_total greedy_total = false.
Proof.
  apply (greedy_le_optimal_when_sorted (U := float) nonneg_float (HS := stable_sort_laws)).
  - reflexivity.
  - repeat constructor; lia.
  - repeat constructor.
  - repeat constructor.
  - lia.
  - apply orderedb_spec. vm_compute. reflexivity.
  - intros [|[|[|k]]] Hk; simpl in Hk; try lia; reflexivity.
Defined.

(** ** When no candidate fits, nothing is allocated *)

Lemma best_none_fit {U : Type} {F : PyFloat U}
    (demands : list Z) (utilities : list U) (capacity : Z) (i : nat) :
  Forall (fun d => capacity < d) demands ->
  (i <= length demands)%nat ->
  best demands utilities i capacity = f_zero.
Proof.
  intros Hd. induction i as [|i IH]; intros Hi; [reflexivity|]. simpl.
  rewrite List.Forall_forall in Hd.
  assert (capacity < nth i demands 0) by (apply Hd, nth_In; lia).
  destruct (Z.leb_spec (nth i demands 0) capacity); [lia|]. apply IH. lia.
Qed.

(** X5: when every demand is above the capacity, the exact allocator
    returns the all-zero allocation and 0.0, and so does the greedy
    allocator when the demands are within the float range; so they do on the
    empty instance. *)
Theorem nothing_fits {U : Type} {F : PyFloat U} {HC : CmpLaws U}
    {Srt : PySort} {HS : SortLaws}
    (demands : list Z) (utilities : list U) (capacity : Z) :
  (length demands <= length utilities)%nat ->
  0 <= capacity ->
  Forall (fun d => capacity < d) demands ->
  (Forall (converts U) demands ->
   greedy_bandwidth_allocation demands utilities capacity =
     Ok (replicate (length demands) 0, f_zero)) /\
  optimal_bandwidth_allocation demands utilities capacity =
    Ok (replicate (length demands) 0, f_zero).
Proof.
  intros Hlen Hcap Hd.
  assert (Hpos : Forall (fun d => 1 <= d) demands)
    by (eapply Forall_impl; [exact Hd|]; simpl; intros d Hc; lia).
  split.
  - intros Hconv.
    rewrite greedy_run by (try assumption; now apply positive_nonzero). cbv zeta.
    rewrite greedy_accept_none; [reflexivity|].
    apply List.Forall_forall. intros k Hk.
    apply (Permutation_in k (greedy_order_perm demands utilities)) in Hk.
    apply in_seq in Hk. rewrite List.Forall_forall in Hd.
    assert (capacity < nth k demands 0) by (apply Hd, nth_In; lia). lia.
  - rewrite optimal_returns by (try assumption; now apply positive_nonneg).
    assert (Hpicked : forall i, (i <= length demands)%nat ->
               picked demands utilities i capacity = replicate i 0).
    { induction i as [|i IH]; intros Hi; [reflexivity|]. cbn [picked].
      rewrite !best_none_fit by (try assumption; lia).
      unfold f_ne. rewrite f_eq_zero. cbn [negb].
      rewrite IH by lia. symmetry. apply replicate_S_end. }
    now rewrite Hpicked, best_none_fit.
Qed.

Lemma nothing_fits_witness :
  greedy_bandwidth_allocation (Srt := stable_sort) [7; 6; 6] [35; 24; 24]%float 5 =
    Ok (replicate (length [7; 6; 6]) 0, f_zero) /\
  optimal_bandwidth_allocation [7; 6; 6] [35; 24; 24]%float 5 =
    Ok (replicate (length [7; 6; 6]) 0, f_zero).
Proof.
  destruct (nothing_fits (U := float) (HS := stable_sort_laws)
              [7; 6; 6] [35; 24; 24]%float 5
              ltac:(simpl; lia) ltac:(lia) ltac:(repeat constructor; lia)) as [Hgreedy Hopt].
  split; [|exact Hopt]. apply Hgreedy. repeat constructor.
Defined.

(** ** The exact allocator on zero demands and surplus utilities *)

(** X6: the exact allocator needs neither positive demands nor as many
    utilities as demands: with demands >= 0 and at least as many utilities
    it returns a feasible allocation, its total is the sum of the utilities
    it marks in index order, and no feasible allocation has a total above
    it. *)
Theorem optimal_with_zero_demands {U : Type} {F : PyFloat U} {HC : CmpLaws U}
    (ok : U -> Prop) {HO : OrderLaws U ok}
    (demands : list Z) (utilities : list U) (capacity : Z) :
  (length demands <= length utilities)%nat ->
  Forall (fun d => 0 <= d) demands ->
  Forall ok utilities ->
  0 <= capacity ->
  exists alloc total,
    optimal_bandwidth_allocation demands utilities capacity = Ok (alloc, total) /\
    feasible demands capacity alloc /\
    total = allocation_utility utilities alloc /\
    forall x, feasible demands capacity x ->
              f_lt total (allocation_utility utilities x) = false.
Proof.
  intros Hlen Hnn Hok Hcap. eexists _, _. split; [|split; [|split]].
  - now apply optimal_returns.
  - now apply optimal_feasible.
  - symmetry. now apply picked_utility.
  - intros x (Hx & _ & Hfit). rewrite <- Hx.
    apply (best_upper ok demands utilities Hnn Hok x capacity); [lia|assumption].
Qed.

Lemma optimal_with_zero_demands_witness :
  exists alloc total,
    optimal_bandwidth_allocation [0; 3; 0] [1; 6; 2; 9]%float 2 = Ok (alloc, total) /\
    feasible [0; 3; 0] 2 alloc /\
    total = allocation_utility [1; 6; 2; 9]%float alloc /\
    forall x, feasible [0; 3; 0] 2 x ->
              f_lt total (allocation_utility [1; 6; 2; 9]%float x) = false.
Proof.
  apply (optimal_with_zero_demands (U := float) nonneg_float).
  - simpl. lia.
  - repeat constructor; lia.
  - repeat constructor.
  - lia.
Defined.

(** ** More capacity never lowers the exact total *)

Lemma py_max_mono {U : Type} {F : PyFloat U} (ok : U -> Prop) {HO : OrderLaws U ok}
    (a b a' b' : U) :
  ok a -> ok b -> ok a' -> ok b' ->
  f_le a a' -> f_le b b' -> f_le (py_max a b) (py_max a' b').
Proof.
  intros Ha Hb Ha' Hb' Haa Hbb.
  assert (Hm : ok (py_max a' b')) by now apply ok_py_max.
  unfold py_max at 1. destruct (f_lt a b).
  - apply f_le_trans with b'; try assumption. now apply (py_max_r ok).
  - apply f_le_trans with a'; try assumption. now apply (py_max_l ok).
Qed.

Lemma best_mono_capacity {U : Type} {F : PyFloat U} (ok : U -> Prop) {HO : OrderLaws U ok}
    (demands : list Z) (utilities : list U) (i : nat) :
  Forall ok utilities ->
  forall c c' : Z, c <= c' ->
    f_le (best demands utilities i c) (best demands utilities i c').
Proof.
  intros Hok. induction i as [|i IH]; intros c c' Hc.
  - simpl. apply (f_le_refl ok). apply f_ok_zero.
  - cbn [best]. set (d := nth i demands 0). set (u := nth i utilities f_zero).
    assert (Hu : ok u) by apply (ok_nth ok utilities Hok).
    assert (Hb : forall z, ok (best demands utilities i z))
      by (intros z; apply (ok_best ok demands utilities Hok)).
    destruct (Z.leb_spec d c) as [Hdc|Hdc], (Z.leb_spec d c') as [Hdc'|Hdc']; try lia.
    + apply (py_max_mono ok); try apply Hb; try (apply f_ok_add; [apply Hb|exact Hu]).
      * apply IH. lia.
      * apply f_add_mono; try apply Hb; try exact Hu. apply IH. lia.
    + apply f_le_trans with (best demands utilities i c'); try apply Hb.
      * apply ok_py_max; [apply Hb|]. apply f_ok_add; [apply Hb|exact Hu].
      * apply IH. lia.
      * apply (py_max_l ok); [apply Hb|]. apply f_ok_add; [apply Hb|exact Hu].
    + apply IH. lia.
Qed.

(** X7: raising the capacity never lowers the total the exact allocator
    returns. *)
Theorem optimal_monotone_in_capacity {U : Type} {F : PyFloat U} {HC : CmpLaws U}
    (ok : U -> Prop) {HO : OrderLaws U ok}
    (demands : list Z) (utilities : list U) (capacity capacity' : Z) :
  (length demands <= length utilities)%nat ->
  Forall (fun d => 0 <= d) demands ->
  Forall ok utilities ->
  0 <= capacity <= capacity' ->
  exists alloc total alloc' total',
    optimal_bandwidth_allocation demands utilities capacity = Ok (alloc, total) /\
    optimal_bandwidth_allocation demands utilities capacity' = Ok (alloc', total') /\
    f_lt total' total = false.
Proof.
  intros Hlen Hnn Hok Hcap. eexists _, _, _, _. split; [|split].
  - apply optimal_returns; [assumption|assumption|lia].
  - apply optimal_returns; [assumption|assumption|lia].
  - apply (best_mono_capacity ok); [assumption|lia].
Qed.

Lemma optimal_monotone_in_capacity_witness :
  exists alloc total alloc' total',
    optimal_bandwidth_allocation [5; 3; 4; 6; 2] scenario4_floats 7 = Ok (alloc, total) /\
    optimal_bandwidth_allocation [5; 3; 4; 6; 2] scenario4_floats 10 = Ok (alloc', total') /\
    f_lt total' total = false.
Proof.
  apply (optimal_monotone_in_capacity (U := float) nonneg_float).
  - simpl. lia.
  - repeat constructor; lia.
  - repeat constructor.
  - lia.
Defined.

(** ** One more candidate never lowers the exact total *)

Lemma best_prefix {U : Type} {F : PyFloat U}
    (demands more_demands : list Z) (utilities more_utilities : list U) (i : nat) :
  (i <= length demands)%nat -> (i <= length utilities)%nat ->
  forall c : Z,
    best (demands ++ more_demands) (utilities ++ more_utilities) i c =
    best demands utilities i c.
Proof.
  induction i as [|i IH]; intros Hd Hu c; [reflexivity|]. cbn [best].
  rewrite !app_nth1 by lia. rewrite !IH by lia. reflexivity.
Qed.

(** X8: appending a candidate never lowers the total the exact allocator
    returns. *)
Theorem optimal_monotone_in_candidates {U : Type} {F : PyFloat U} {HC : CmpLaws U}
    (ok : U -> Prop) {HO : OrderLaws U ok}
    (demands : list Z) (utilities : list U) (capacity d : Z) (u : U) :
  length utilities = length demands ->
  Forall (fun d' => 0 <= d') demands -> 0 <= d ->
  Forall ok utilities -> ok u ->
  0 <= capacity ->
  exists alloc total alloc' total',
    optimal_bandwidth_allocation demands utilities capacity = Ok (alloc, total) /\
    optimal_bandwidth_allocation (demands ++ [d]) (utilities ++ [u]) capacity
      = Ok (alloc', total') /\
    f_lt total' total = false.
Proof.
  intros Hlen Hnn Hd Hok Hu Hcap. eexists _, _, _, _. split; [|split].
  - apply optimal_returns; [lia|assumption|assumption].
  - apply optimal_returns.
    + rewrite !length_app. simpl. lia.
    + apply Forall_app. split; [assumption|]. now constructor.
    + assumption.
  - rewrite length_app. simpl. rewrite Nat.add_1_r.
    rewrite <- (best_prefix demands [d] utilities [u] (length demands)) by lia.
    apply (best_step_ge ok). apply Forall_app. split; [assumption|]. now constructor.
Qed.

Lemma optimal_monotone_in_candidates_witness :
  exists alloc total alloc' total',
    optimal_bandwidth_allocation [5; 3; 4] [10; 6; 8]%float 10 = Ok (alloc, total) /\
    optimal_bandwidth_allocation ([5; 3; 4] ++ [6]) ([10; 6; 8] ++ [15])%float 10
      = Ok (alloc', total') /\
    f_lt total' total = false.
Proof.
  apply (optimal_monotone_in_candidates (U := float) nonneg_float).
  - reflexivity.
  - repeat constructor; lia.
  - lia.
  - repeat constructor.
  - reflexivity.
  - lia.
Defined.

(** ** The totals on floats that are not negative *)

Lemma ok_utility_in_order {U : Type} {F : PyFloat U} (ok : U -> Prop) {HO : OrderLaws U ok}
    (utilities : list U) (acc : list nat) :
  Forall ok utilities ->
  forall t : U, ok t -> ok (utility_in_order utilities acc t).
Proof.
  intros Hok. induction acc as [|k acc IH]; intros t Ht; [exact Ht|].
  cbn [utility_in_order fold_left]. apply IH.
  apply f_ok_add; [exact Ht|]. now apply (ok_nth ok).
Qed.

(** X12: on binary64, with demands from 1 to below 2^1024 - 2^970 and
    utilities that are neither NaN nor negative, the totals both allocators
    return are neither NaN nor negative. *)
Theorem totals_are_not_nan_or_negative {Srt : PySort} {HS : SortLaws}
    (demands : list Z) (utilities : list float) (capacity : Z) :
  length utilities = length demands ->
  Forall (fun d => 1 <= d < float_limit) demands ->
  Forall nonneg_float utilities ->
  0 <= capacity ->
  exists greedy_alloc greedy_total optimal_alloc optimal_total,
    greedy_bandwidth_allocation demands utilities capacity = Ok (greedy_alloc, greedy_total) /\
    optimal_bandwidth_allocation demands utilities capacity = Ok (optimal_alloc, optimal_total) /\
    nonneg_float greedy_total /\ nonneg_float optimal_total.
Proof.
  intros Hlen Hd Hok Hcap.
  assert (Hpos : Forall (fun d => 1 <= d) demands)
    by (eapply Forall_impl; [exact Hd|]; simpl; intros d Hd1; lia).
  eexists _, _, _, _. split; [|split; [|split]].
  - apply greedy_run; [lia|now apply positive_nonzero|now apply float_converts_all].
  - apply optimal_returns; [lia|now apply positive_nonneg|assumption].
  - cbv zeta. apply (ok_utility_in_order nonneg_float); [assumption|].
    apply (f_ok_zero (ok := nonneg_float)).
  - now apply (ok_best nonneg_float).
Qed.

Lemma totals_are_not_nan_or_negative_witness :
  exists greedy_alloc greedy_total optimal_alloc optimal_total,
    greedy_bandwidth_allocation (Srt := stable_sort) [6; 3; 1] rounding_utilities 10
      = Ok (greedy_alloc, greedy_total) /\
    optimal_bandwidth_allocation [6; 3; 1] rounding_utilities 10
      = Ok (optimal_alloc, optimal_total) /\
    nonneg_float greedy_total /\ nonneg_float optimal_total.
Proof.
  apply (totals_are_not_nan_or_negative (HS := stable_sort_laws)).
  - reflexivity.
  - repeat constructor; vm_compute; congruence.
  - repeat constructor.
  - lia.
Defined.

(** ** The exact total and the allocation of the greedy allocator *)

(** X13: with demands >= 1 and within the float range, the total the exact
    allocator returns is not below the utilities of the allocation the
    greedy allocator returns, summed in index order; on floats as well. *)
Theorem optimal_bounds_greedy_allocation {U : Type} {F : PyFloat U} {HC : CmpLaws U}
    (ok : U -> Prop) {HO : OrderLaws U ok} {Srt : PySort} {HS : SortLaws}
    (demands : list Z) (utilities : list U) (capacity : Z) :
  length utilities = length demands ->
  Forall (fun d => 1 <= d) demands ->
  Forall (converts U) demands ->
  Forall ok utilities ->
  0 <= capacity ->
  exists greedy_alloc greedy_total optimal_alloc optimal_total,
    greedy_bandwidth_allocation demands utilities capacity = Ok (greedy_alloc, greedy_total) /\
    optimal_bandwidth_allocation demands utilities capacity = Ok (optimal_alloc, optimal_total) /\
    f_lt optimal_total (allocation_utility utilities greedy_alloc) = false.
Proof.
  intros Hlen Hpos Hconv Hok Hcap.
  destruct (greedy_feasible demands utilities capacity) as (alloc & total & Hrun & Hfeas);
    [lia|now apply positive_nonzero|assumption|assumption|].
  exists alloc, total. eexists _, _. split; [exact Hrun|]. split.
  - apply optimal_returns; [lia|now apply positive_nonneg|assumption].
  - destruct Hfeas as (Hx & _ & Hfit). rewrite <- Hx.
    exact (best_upper ok demands utilities (positive_nonneg _ Hpos) Hok alloc capacity
             ltac:(lia) Hfit).
Qed.

Lemma optimal_bounds_greedy_allocation_witness :
  exists greedy_alloc greedy_total optimal_alloc optimal_total,
    greedy_bandwidth_allocation (Srt := stable_sort) [6; 3; 1] rounding_utilities 10
      = Ok (greedy_alloc, greedy_total) /\
    optimal_bandwidth_allocation [6; 3; 1] rounding_utilities 10
      = Ok (optimal_alloc, optimal_total) /\
    f_lt optimal_total (allocation_utility rounding_utilities greedy_alloc) = false.
Proof.
  apply (optimal_bounds_greedy_allocation (U := float) nonneg_float (HS := stable_sort_laws)).
  - reflexivity.
  - repeat constructor; lia.
  - repeat constructor.
  - repeat constructor.
  - lia.
Defined.

(** ** Utilities beyond the last demand are never read *)

Lemma nth_app_surplus {U : Type} (us extra : list U) (k : nat) (x : U) :
  (k < length us)%nat -> nth k (us ++ extra) x = nth k us x.
Proof. intros Hk. now apply app_nth1. Qed.

Lemma best_surplus {U : Type} {F : PyFloat U}
    (demands : list Z) (utilities extra : list U) (i : nat) :
  (i <= length utilities)%nat ->
  forall c : Z,
    best demands (utilities ++ extra) i c = best demands utilities i c.
Proof.
  induction i as [|i IH]; intros Hi c; [reflexivity|]. cbn [best].
  rewrite nth_app_surplus by lia. rewrite !IH by lia. reflexivity.
Qed.

Lemma picked_surplus {U : Type} {F : PyFloat U}
    (demands : list Z) (utilities extra : list U) (i : nat) :
  (i <= length utilities)%nat ->
  forall c : Z,
    picked demands (utilities ++ extra) i c = picked demands utilities i c.
Proof.
  induction i as [|i IH]; intros Hi c; [reflexivity|]. cbn [picked].
  rewrite !(best_surplus demands utilities extra) by lia.
  rewrite !IH by lia. reflexivity.
Qed.

Lemma greedy_order_surplus {U : Type} {F : PyFloat U} {Srt : PySort}
    (demands : list Z) (utilities extra : list U) :
  (length demands <= length utilities)%nat ->
  greedy_order demands (utilities ++ extra) = greedy_order demands utilities.
Proof.
  intros Hlen. unfold greedy_order, users_of, efficiency. do 2 f_equal.
  apply map_ext_in. intros k Hk. apply in_seq in Hk.
  now rewrite nth_app_surplus by lia.
Qed.

(** Every demand has a float, or some demand has none. *)
Lemma converts_or_not {U : Type} {F : PyFloat U} (demands : list Z) :
  Forall (converts U) demands \/ Exists (fun d => f_of_int d = None) demands.
Proof.
  induction demands as [|d demands [IH|IH]].
  - left. constructor.
  - destruct (f_of_int d) as [x|] eqn:Hd.
    + left. constructor; [|assumption]. unfold converts, to_float. now rewrite Hd.
    + right. now left.
  - right. now right.
Qed.

Lemma utility_in_order_surplus {U : Type} {F : PyFloat U}
    (utilities extra : list U) (acc : list nat) :
  Forall (fun k => (k < length utilities)%nat) acc ->
  forall t : U,
    utility_in_order (utilities ++ extra) acc t = utility_in_order utilities acc t.
Proof.
  induction 1 as [|k acc Hk Hacc IH]; intros t; [reflexivity|].
  cbn [utility_in_order fold_left].
  rewrite nth_app_surplus by assumption. apply IH.
Qed.

(** X9: both allocators read the first n utilities only: with more
    utilities than demands they return what they return without the
    surplus. *)
Theorem surplus_utilities_ignored {U : Type} {F : PyFloat U} {HC : CmpLaws U}
    {Srt : PySort} {HS : SortLaws}
    (demands : list Z) (utilities extra : list U) (capacity : Z) :
  length utilities = length demands ->
  Forall (fun d => 1 <= d) demands ->
  0 <= capacity ->
  greedy_bandwidth_allocation demands (utilities ++ extra) capacity =
    greedy_bandwidth_allocation demands utilities capacity /\
  optimal_bandwidth_allocation demands (utilities ++ extra) capacity =
    optimal_bandwidth_allocation demands utilities capacity.
Proof.
  intros Hlen Hpos Hcap. split.
  - destruct (converts_or_not (U := U) demands) as [Hconv|Hnone].
    + rewrite !greedy_run
        by (try (now apply positive_nonzero); try assumption; rewrite ?length_app; lia).
      cbv zeta. rewrite greedy_order_surplus by lia.
      rewrite utility_in_order_surplus; [reflexivity|].
      destruct (greedy_accepted demands utilities capacity 0) as [_ Hin].
      apply List.Forall_forall. intros k Hk. rewrite Hlen. now apply Hin.
    + rewrite !greedy_overflow
        by (try (now apply positive_nonzero); try assumption; rewrite ?length_app; lia).
      reflexivity.
  - rewrite !optimal_returns
      by (try (now apply positive_nonneg); rewrite ?length_app; lia).
    now rewrite picked_surplus, best_surplus by lia.
Qed.

Lemma surplus_utilities_ignored_witness :
  greedy_bandwidth_allocation (Srt := stable_sort) [6; 5; 5] ([60; 45; 45] ++ [7; 7])%float 10 =
    greedy_bandwidth_allocation (Srt := stable_sort) [6; 5; 5] [60; 45; 45]%float 10 /\
  optimal_bandwidth_allocation [6; 5; 5] ([60; 45; 45] ++ [7; 7])%float 10 =
    optimal_bandwidth_allocation [6; 5; 5] [60; 45; 45]%float 10.
Proof.
  apply (surplus_utilities_ignored (U := float) (HS := stable_sort_laws)).
  - reflexivity.
  - repeat constructor; lia.
  - lia.
Defined.

(** ** The exceptions of the exact allocator *)

Section OnlyIndexError.
Context (e : exn) (He : e <> IndexError).

Lemma bind_never {A B : Type} (m : result A) (k : A -> result B) :
  m <> Raise e -> (forall a, k a <> Raise e) -> bind m k <> Raise e.
Proof.
  intros Hm Hk. destruct m as [a|e']; simpl; [apply Hk|].
  intros Heq. injection Heq as ->. now apply Hm.
Qed.

Lemma getitem_never {A : Type} (l : list A) (i : Z) : getitem l i <> Raise e.
Proof.
  unfold getitem. destruct (position l i) as [j|]; [|congruence].
  destruct (l !! j); congruence.
Qed.

Lemma setitem_never {A : Type} (l : list A) (i : Z) (v : A) : setitem l i v <> Raise e.
Proof. unfold setitem. destruct (position l i); congruence. Qed.

Lemma foldM_never {A St : Type} (body : St -> A -> result St) (xs : list A) :
  (forall st x, body st x <> Raise e) ->
  forall st, foldM body xs st <> Raise e.
Proof.
  intros Hbody. induction xs as [|x xs IH]; intros st; simpl; [discriminate|].
  apply bind_never; [apply Hbody|apply IH].
Qed.

Lemma dp_get_never {U : Type} (dp : list (list U)) (i c : Z) : dp_get dp i c <> Raise e.
Proof.
  unfold dp_get. apply bind_never; [apply getitem_never|].
  intros row. apply getitem_never.
Qed.

Lemma dp_set_never {U : Type} (dp : list (list U)) (i c : Z) (v : U) :
  dp_set dp i c v <> Raise e.
Proof.
  unfold dp_set. apply bind_never; [apply getitem_never|].
  intros row. apply bind_never; [apply setitem_never|].
  intros row'. apply setitem_never.
Qed.

#[local] Ltac never_raised :=
  repeat first
    [ apply getitem_never | apply setitem_never
    | apply dp_get_never | apply dp_set_never
    | discriminate
    | apply bind_never; [|intros ?]
    | match goal with |- (if ?b then _ else _) <> _ => destruct b end
    | match goal with |- (let '(_, _) := ?p in _) <> _ => destruct p end ].

Lemma fill_table_never {U : Type} {F : PyFloat U}
    (demands : list Z) (utilities : list U) (capacity : Z) :
  fill_table demands utilities capacity <> Raise e.
Proof.
  unfold fill_table. cbv zeta. apply foldM_never. intros dp i.
  unfold fill_row. apply foldM_never. intros dp' c.
  unfold fill_cell. never_raised.
Qed.

Lemma backtrack_never {U : Type} {F : PyFloat U}
    (demands : list Z) (dp : list (list U)) (capacity : Z) :
  backtrack demands dp capacity <> Raise e.
Proof.
  unfold backtrack. cbv zeta. apply foldM_never. intros st i.
  unfold backtrack_step. never_raised.
Qed.

Lemma optimal_never {U : Type} {F : PyFloat U}
    (demands : list Z) (utilities : list U) (capacity : Z) :
  optimal_bandwidth_allocation demands utilities capacity <> Raise e.
Proof.
  unfold optimal_bandwidth_allocation. cbv zeta.
  apply bind_never; [apply fill_table_never|]. intros dp.
  apply bind_never; [apply backtrack_never|]. intros st.
  apply bind_never; [apply dp_get_never|]. intros v. discriminate.
Qed.

End OnlyIndexError.

(** X10: the exact allocator divides nowhere and converts no int to a
    float: whatever the input, it raises neither [ZeroDivisionError] nor
    [OverflowError]; an exception it raises is [IndexError]. *)
Theorem optimal_never_divides {U : Type} {F : PyFloat U}
    (demands : list Z) (utilities : list U) (capacity : Z) :
  optimal_bandwidth_allocation demands utilities capacity <> Raise ZeroDivisionError /\
  optimal_bandwidth_allocation demands utilities capacity <> Raise OverflowError.
Proof. split; apply optimal_never; discriminate. Qed.

Lemma foldM_Ok_inv {A St : Type} (body : St -> A -> result St) (xs : list A) :
  forall st st' x,
    foldM body xs st = Ok st' -> In x xs ->
    exists st0 st1, body st0 x = Ok st1.
Proof.
  induction xs as [|y xs IH]; intros st st' x Hrun Hin; [destruct Hin|].
  simpl in Hrun. destruct (body st y) as [st1|e] eqn:Hy; [|discriminate Hrun].
  destruct Hin as [->|Hin]; [now exists st, st1|]. simpl in Hrun. eauto.
Qed.

Lemma bind_Ok_inv {A B : Type} (m : result A) (k : A -> result B) (b : B) :
  bind m k = Ok b -> exists a, m = Ok a /\ k a = Ok b.
Proof. destruct m as [a|e]; simpl; [eauto|discriminate]. Qed.

(** X11: with fewer utilities than demands the exact allocator raises
    [IndexError] as soon as a candidate without a utility fits the
    capacity. *)
Theorem optimal_short_utilities {U : Type} {F : PyFloat U}
    (demands : list Z) (utilities : list U) (capacity : Z) (k : nat) :
  (length utilities <= k < length demands)%nat ->
  nth k demands 0 <= capacity ->
  0 <= capacity ->
  optimal_bandwidth_allocation demands utilities capacity = Raise IndexError.
Proof.
  intros Hk Hfit Hcap.
  destruct (optimal_bandwidth_allocation demands utilities capacity) as [r|e] eqn:Hrun.
  - exfalso. unfold optimal_bandwidth_allocation in Hrun. cbv zeta in Hrun.
    apply bind_Ok_inv in Hrun as (dp & Hfill & _).
    unfold fill_table in Hfill. cbv zeta in Hfill.
    destruct (foldM_Ok_inv _ _ _ _ (Z.of_nat (S k)) Hfill) as (dp0 & dp1 & Hrow).
    { unfold range. apply in_map_iff. exists k. split; [lia|].
      apply in_seq. unfold len. lia. }
    unfold fill_row in Hrow.
    destruct (foldM_Ok_inv _ _ _ _ capacity Hrow) as (dp2 & dp3 & Hcell).
    { unfold range. apply in_map_iff. exists (Z.to_nat capacity). split; [lia|].
      apply in_seq. lia. }
    unfold fill_cell in Hcell.
    replace (Z.of_nat (S k) - 1) with (Z.of_nat k) in Hcell by lia.
    apply bind_Ok_inv in Hcell as (v & _ & Hcell).
    apply bind_Ok_inv in Hcell as (dp4 & _ & Hcell).
    rewrite (getitem_nth demands k) in Hcell by lia. cbn [bind] in Hcell.
    destruct (Z.leb_spec (nth k demands 0) capacity) as [_|Hno]; [|lia].
    apply bind_Ok_inv in Hcell as (a & _ & Hcell).
    cbn [bind] in Hcell.
    apply bind_Ok_inv in Hcell as (b & _ & Hcell).
    rewrite (getitem_ge utilities k) in Hcell by lia. discriminate Hcell.
  - destruct e; [reflexivity| |]; exfalso; revert Hrun; apply optimal_never; discriminate.
Qed.

Lemma optimal_short_utilities_witness :
  optimal_bandwidth_allocation [5; 3] [10]%float 4 = Raise IndexError.
Proof.
  apply (optimal_short_utilities (U := float) [5; 3] [10]%float 4 1).
  - simpl. lia.
  - simpl. lia.
  - lia.
Defined.

(** ** The random instance generator *)

(** *** The floats it builds are not negative *)

Lemma SFmul_nonneg (x : spec_float) (m : positive) (e : Z) :
  nonneg x = true ->
  nonneg (SFmul prec emax x (S754_finite false m e)) = true.
Proof.
  destruct x as [s|s| |s mx ex]; cbn [nonneg SFmul]; intros Hx; try discriminate Hx.
  - reflexivity.
  - now destruct s.
  - destruct s; [discriminate Hx|]. now apply binary_round_aux_nonneg_any.
Qed.

(** [float(d)] for an int [d] that is not negative. *)
Lemma to_float_nonneg (d : Z) : 0 <= d -> nonneg_float (to_float d).
Proof.
  intros Hd. unfold nonneg_float, to_float. cbn [f_of_int float_PyFloat].
  unfold float_of_int.
  destruct d as [|p|p]; [reflexivity| |lia]. cbn [binary_normalize].
  destruct (binary_round_full p 0 ltac:(lia)) as (Hn & _ & Hv). cbv zeta in Hn, Hv.
  destruct (binary_round prec emax false p 0) as [s|s| |s m e];
    try reflexivity; now rewrite FloatAxioms.Prim2SF_SF2Prim.
Qed.

(** A float between 0.5 and 2.0 is finite and positive. *)
Lemma between_half_and_two (x : float) :
  (0.5 <=? x)%float = true -> (x <=? 2)%float = true ->
  exists m e, Prim2SF x = S754_finite false m e.
Proof.
  rewrite !FloatAxioms.leb_spec. intros Hlo Hhi.
  destruct (Prim2SF x) as [s|s| |s m e].
  - vm_compute in Hlo. discriminate Hlo.
  - destruct s; [vm_compute in Hlo; discriminate Hlo|vm_compute in Hhi; discriminate Hhi].
  - vm_compute in Hlo. discriminate Hlo.
  - destruct s; [|now exists m, e]. vm_compute in Hlo. discriminate Hlo.
Qed.

Lemma generated_utility_nonneg (d : Z) (x : float) :
  0 <= d -> (0.5 <=? x)%float = true -> (x <=? 2)%float = true ->
  nonneg_float (to_float d * x).
Proof.
  intros Hd Hlo Hhi. unfold nonneg_float. rewrite FloatAxioms.mul_spec.
  destruct (between_half_and_two x Hlo Hhi) as (m & e & ->).
  apply SFmul_nonneg. now apply to_float_nonneg.
Qed.

(** *** The demands it draws are within the float range *)

Lemma demand_bound (capacity : Z) :
  capacity < 10 * float_limit -> Z.max 1 (capacity / 10) < float_limit.
Proof.
  intros Hcap.
  assert (H1 : 1 < float_limit) by (vm_compute; reflexivity).
  assert (Hdiv : capacity / 10 < float_limit) by (apply Z.div_lt_upper_bound; lia).
  lia.
Qed.

Lemma float_limit_tenfold : 2 ^ 1024 <= 10 * float_limit.
Proof. intros H. vm_compute in H. discriminate H. Qed.

Lemma float_limit_twofold : 2 ^ 1024 <= 2 * float_limit.
Proof. intros H. vm_compute in H. discriminate H. Qed.

Lemma int_to_float_ok {U : Type} {F : PyFloat U} (d : Z) :
  converts U d -> int_to_float d = Ok (to_float d).
Proof. intros Hd. unfold int_to_float. now rewrite Hd. Qed.

(** *** The instances it returns are well formed *)

Lemma map_drawing_ok {A B G : Type} (P : B -> Prop) (f : A -> G -> result B * G)
    (xs : list A) :
  (forall x g, In x xs -> exists y, fst (f x g) = Ok y /\ P y) ->
  forall g : G,
    exists ys g', map_drawing f xs g = (Ok ys, g') /\ length ys = length xs /\ Forall P ys.
Proof.
  induction xs as [|x xs IH]; intros Hf g; simpl.
  - exists [], g. repeat split. constructor.
  - destruct (Hf x g (or_introl eq_refl)) as (y & Hy & HP).
    destruct (f x g) as [r g1]. cbn [fst] in Hy. subst r.
    destruct (IH (fun x' g' Hin => Hf x' g' (or_intror Hin)) g1)
      as (ys & g2 & -> & Hlen & HPs).
    exists (y :: ys), g2. repeat split; [simpl; lia|now constructor].
Qed.

Lemma length_range (n : Z) : length (range 0 n) = Z.to_nat n.
Proof. unfold range. now rewrite length_map, length_seq, Z.sub_0_r. Qed.

Section Generator.
Context {G : Type} (R : random_module G) (HR : random_contract R).

Lemma generated_instance (n capacity : Z) (s : option Z) (g : G) :
  Z.max 1 (capacity / 10) < float_limit ->
  exists demands utilities g',
    generate_random_instance R n capacity s g = (Ok (demands, utilities, capacity), g') /\
    length demands = Z.to_nat n /\
    length utilities = length demands /\
    Forall (fun d => 1 <= d <= Z.max 1 (capacity / 10)) demands /\
    Forall nonneg_float utilities.
Proof.
  intros Hmax. unfold generate_random_instance. cbv zeta.
  set (g0 := match s with Some s' => seed R s' | None => g end).
  destruct (map_drawing_ok (fun d => 1 <= d <= Z.max 1 (capacity / 10))
              (fun (_ : Z) (g' : G) =>
                 let '(d, g'') := randint R 1 (Z.max 1 (capacity / 10)) g' in (Ok d, g''))
              (range 0 n)) with (g := g0) as (demands & g1 & -> & Hlen & Hdem).
  { intros k g' _.
    pose proof (randint_range R HR 1 (Z.max 1 (capacity / 10)) g' ltac:(lia)) as Hd.
    destruct (randint R 1 (Z.max 1 (capacity / 10)) g') as [d g'']. cbn [fst] in *.
    now exists d. }
  destruct (map_drawing_ok nonneg_float
              (fun (d : Z) (g' : G) =>
                 let '(x, g'') := uniform R 0.5 2 g' in
                 (y <- int_to_float d ;; Ok (y * x)%float, g''))
              demands) with (g := g1) as (utilities & g2 & -> & Hlen' & Hut).
  { intros d g' Hin. rewrite List.Forall_forall in Hdem. specialize (Hdem d Hin).
    destruct (uniform_range R HR 0.5 2 g' eq_refl) as [Hlo Hhi].
    destruct (uniform R 0.5 2 g') as [x g'']. cbn [fst] in *.
    rewrite int_to_float_ok by (apply float_converts; lia). cbn [bind].
    eexists. split; [reflexivity|].
    apply generated_utility_nonneg; [lia|assumption|assumption]. }
  exists demands, utilities, g2. rewrite length_range in Hlen. repeat split; assumption.
Qed.

End Generator.

Lemma SFleb_refl (x y : spec_float) : SFleb x y = true -> SFleb x x = true.
Proof.
  unfold SFleb.
  destruct x as [sx|sx| |sx mx ex], y as [sy|sy| |sy my ey]; simpl;
    try discriminate; intros _; try (destruct sx; reflexivity).
  all: change (PosDef.Pos.compare_cont Eq mx mx) with (mx ?= mx)%positive;
    rewrite Z.compare_refl, Pos.compare_refl; destruct sx; reflexivity.
Qed.

Lemma least_random_contract : random_contract least_random.
Proof.
  split; simpl.
  - intros a b _ Hab. lia.
  - intros a b _ Hab. split; [|exact Hab].
    rewrite FloatAxioms.leb_spec in *. now apply SFleb_refl with (Prim2SF b).
Qed.

(** X14: whatever the module [random] draws within its documented ranges,
    the generated instance is well formed: [max(n, 0)] demands, each between 1
    and [max(1, capacity // 10)], as many utilities, none of them NaN or
    negative, and the capacity it was given.  (The capacity is within the
    float range, so that every demand converts to a float.) *)
Theorem generate_random_instance_well_formed {G : Type} (R : random_module G)
    (n capacity : Z) (s : option Z) (g : G) :
  random_contract R ->
  capacity < 2 ^ 1024 ->
  exists demands utilities g',
    generate_random_instance R n capacity s g = (Ok (demands, utilities, capacity), g') /\
    length demands = Z.to_nat n /\
    length utilities = length demands /\
    Forall (fun d => 1 <= d <= Z.max 1 (capacity / 10)) demands /\
    Forall nonneg_float utilities.
Proof.
  intros HR Hcap. apply (generated_instance R HR). apply demand_bound.
  pose proof float_limit_tenfold. lia.
Qed.

Lemma generate_random_instance_well_formed_witness :
  exists demands utilities g',
    generate_random_instance least_random 3 50 (Some 0) tt
      = (Ok (demands, utilities, 50), g') /\
    length demands = Z.to_nat 3 /\
    length utilities = length demands /\
    Forall (fun d => 1 <= d <= Z.max 1 (50 / 10)) demands /\
    Forall nonneg_float utilities.
Proof.
  apply (generate_random_instance_well_formed least_random 3 50 (Some 0) tt).
  - exact least_random_contract.
  - apply Z.lt_trans with (2 ^ 6); [reflexivity|]. apply Z.pow_lt_mono_r; lia.
Defined.

(** ** The quality comparison *)

Lemma positive_is_not_zero (x : float) : (0 <? x)%float = true -> (x =? 0)%float = false.
Proof. exact (f_lt_ne (U := float) 0%float x). Qed.

Lemma ratio_defined (greedy_utility optimal_utility : float) :
  exists ratio,
    (if (0 <? optimal_utility)%float
     then r <- percent_of greedy_utility optimal_utility ;; Ok (Float r)
     else Ok (Int 0)) = Ok ratio.
Proof.
  destruct (0 <? optimal_utility)%float eqn:Hpos; [|eauto].
  unfold percent_of, float_truediv. rewrite (positive_is_not_zero _ Hpos).
  rewrite (int_to_float_ok (U := float) 100) by reflexivity. simpl. eauto.
Qed.

Section Comparison.
Context {G : Type} (R : random_module G) (HR : random_contract R).
Context {Srt : PySort} {HS : SortLaws}.

(** On what the generator returns for a size that is not negative, the
    greedy allocator returns. *)
Lemma generated_runs (n : Z) (g : G) :
  0 <= n < 2 ^ 1024 ->
  exists demands utilities g' greedy_alloc greedy_total,
    generate_random_instance R n (n * 5) (Some 42) g
      = (Ok (demands, utilities, n * 5), g') /\
    length utilities = length demands /\
    Forall (fun d => 1 <= d) demands /\
    Forall nonneg_float utilities /\
    greedy_bandwidth_allocation demands utilities (n * 5) = Ok (greedy_alloc, greedy_total).
Proof.
  intros Hn.
  assert (Hmax : Z.max 1 (n * 5 / 10) < float_limit)
    by (apply demand_bound; pose proof float_limit_twofold; lia).
  destruct (generated_instance R HR n (n * 5) (Some 42) g Hmax)
    as (demands & utilities & g' & Hgen & _ & Hlen & Hd & Hu).
  assert (Hpos : Forall (fun d => 1 <= d) demands)
    by (eapply Forall_impl; [exact Hd|]; simpl; intros d Hd1; lia).
  assert (Hconv : Forall (converts float) demands).
  { apply float_converts_all. eapply Forall_impl; [exact Hd|]. simpl. intros d Hd1. lia. }
  exists demands, utilities, g'.
  destruct (greedy_feasible demands utilities (n * 5)) as (ga & gt & Hrun & _);
    [lia|now apply positive_nonzero|assumption|lia|].
  now exists ga, gt.
Qed.

End Comparison.

(** X15: for a size from 0 to 100 and whatever [random] draws within its
    ranges, the comparison raises nothing: both allocators return on the generated
    instance, the ratio is guarded against a zero divisor, and the optimal
    utility it reports is one that no feasible allocation of that instance
    exceeds. *)
Theorem compare_solution_quality_returns {G : Type} {Srt : PySort} {HS : SortLaws}
    (R : random_module G) (n : Z) (g : G) :
  random_contract R ->
  0 <= n <= 100 ->
  exists demands utilities g' greedy_alloc greedy_total optimal_alloc optimal_total ratio,
    generate_random_instance R n (n * 5) (Some 42) g
      = (Ok (demands, utilities, n * 5), g') /\
    greedy_bandwidth_allocation demands utilities (n * 5) = Ok (greedy_alloc, greedy_total) /\
    optimal_bandwidth_allocation demands utilities (n * 5) = Ok (optimal_alloc, optimal_total) /\
    compare_solution_quality R n g = (Ok (optimal_total, greedy_total, ratio), g') /\
    forall x, feasible demands (n * 5) x ->
              (optimal_total <? allocation_utility utilities x)%float = false.
Proof.
  intros HR Hn.
  assert (Hsmall : 100 < 2 ^ 1024)
    by (apply Z.lt_trans with (2 ^ 7); [reflexivity|]; apply Z.pow_lt_mono_r; lia).
  destruct (generated_runs R HR n g) as (demands & utilities & g' & ga & gt &
                                         Hgen & Hlen & Hpos & Hu & Hgreedy); [lia|].
  pose proof (optimal_returns demands utilities (n * 5) ltac:(lia)
                (positive_nonneg _ Hpos) ltac:(lia)) as Hopt.
  destruct (ratio_defined gt (best demands utilities (length demands) (n * 5)))
    as (ratio & Hratio).
  exists demands, utilities, g', ga, gt. eexists _, _, ratio.
  split; [exact Hgen|]. split; [exact Hgreedy|]. split; [exact Hopt|]. split.
  - unfold compare_solution_quality. cbv zeta. rewrite Hgen. cbn [bind].
    rewrite Hgreedy. cbn [bind snd].
    destruct (Z.leb_spec n 100) as [_|Hbig]; [|lia].
    rewrite Hopt. cbn [bind snd]. rewrite Hratio. reflexivity.
  - intros x (Hx & _ & Hfit). rewrite <- Hx.
    exact (best_upper nonneg_float demands utilities (positive_nonneg _ Hpos) Hu x (n * 5)
             ltac:(lia) Hfit).
Qed.

Lemma compare_solution_quality_returns_witness :
  exists demands utilities g' greedy_alloc greedy_total optimal_alloc optimal_total ratio,
    generate_random_instance least_random 4 (4 * 5) (Some 42) tt =
      (Ok (demands, utilities, 4 * 5), g') /\
    greedy_bandwidth_allocation (Srt := stable_sort) demands utilities (4 * 5)
      = Ok (greedy_alloc, greedy_total) /\
    optimal_bandwidth_allocation demands utilities (4 * 5) = Ok (optimal_alloc, optimal_total) /\
    compare_solution_quality (Srt := stable_sort) least_random 4 tt
      = (Ok (optimal_total, greedy_total, ratio), g') /\
    forall x, feasible demands (4 * 5) x ->
              (optimal_total <? allocation_utility utilities x)%float = false.
Proof.
  apply (compare_solution_quality_returns (HS := stable_sort_laws) least_random 4 tt).
  - exact least_random_contract.
  - lia.
Defined.

(** X16: for a size above 100 (and within the float range) the exact
    allocator is not run: the comparison returns, and reports the greedy
    total as the optimal utility as well. *)
Theorem compare_solution_quality_large {G : Type} {Srt : PySort} {HS : SortLaws}
    (R : random_module G) (n : Z) (g : G) :
  random_contract R ->
  100 < n < 2 ^ 1024 ->
  exists demands utilities g' greedy_alloc greedy_total ratio,
    generate_random_instance R n (n * 5) (Some 42) g
      = (Ok (demands, utilities, n * 5), g') /\
    greedy_bandwidth_allocation demands utilities (n * 5) = Ok (greedy_alloc, greedy_total) /\
    compare_solution_quality R n g = (Ok (greedy_total, greedy_total, ratio), g').
Proof.
  intros HR Hn.
  destruct (generated_runs R HR n g) as (demands & utilities & g' & ga & gt &
                                         Hgen & Hlen & Hpos & Hu & Hgreedy); [lia|].
  destruct (ratio_defined gt gt) as (ratio & Hratio).
  exists demands, utilities, g', ga, gt, ratio.
  split; [exact Hgen|]. split; [exact Hgreedy|].
  unfold compare_solution_quality. cbv zeta. rewrite Hgen. cbn [bind].
  rewrite Hgreedy. cbn [bind snd].
  destruct (Z.leb_spec n 100) as [Hsmall|_]; [lia|].
  cbn [bind]. rewrite Hratio. reflexivity.
Qed.

Lemma compare_solution_quality_large_witness :
  exists demands utilities g' greedy_alloc greedy_total ratio,
    generate_random_instance least_random 101 (101 * 5) (Some 42) tt =
      (Ok (demands, utilities, 101 * 5), g') /\
    greedy_bandwidth_allocation (Srt := stable_sort) demands utilities (101 * 5)
      = Ok (greedy_alloc, greedy_total) /\
    compare_solution_quality (Srt := stable_sort) least_random 101 tt
      = (Ok (greedy_total, greedy_total, ratio), g').
Proof.
  apply (compare_solution_quality_large (HS := stable_sort_laws) least_random 101 tt).
  - exact least_random_contract.
  - split; [lia|]. apply Z.lt_trans with (2 ^ 7); [reflexivity|].
    apply Z.pow_lt_mono_r; lia.
Defined.

Lemma range_empty_nonpos (n : Z) : n <= 0 -> range 0 n = [].
Proof. intros Hn. unfold range. now replace (Z.to_nat (n - 0)) with 0%nat by lia. Qed.

(** On the empty instance the greedy allocator returns nothing and 0.0. *)
Lemma greedy_empty {U : Type} {F : PyFloat U} {Srt : PySort} {HS : SortLaws}
    (utilities : list U) (capacity : Z) :
  greedy_bandwidth_allocation [] utilities capacity = Ok ([], f_zero).
Proof.
  unfold greedy_bandwidth_allocation. cbn [len length Z.of_nat].
  change (make_users [] utilities) with (Ok (@nil (Z * U))). cbn [bind].
  rewrite (proj1 (Permutation_nil_r _) (sort_permutes _ _ f_lt snd [])). reflexivity.
Qed.

(** X17: for a negative size the comparison raises [IndexError]: the generated
    instance is empty and the capacity negative, which the exact allocator
    does not survive.  For size 0 it returns zeros, with the int 0 for the
    ratio: the division is skipped. *)
Theorem compare_solution_quality_small_sizes {G : Type} {Srt : PySort} {HS : SortLaws}
    (R : random_module G) (n : Z) (g : G) :
  (n < 0 -> compare_solution_quality R n g = (Raise IndexError, seed R 42)) /\
  (n = 0 -> compare_solution_quality R n g = (Ok (0%float, 0%float, Int 0), seed R 42)).
Proof.
  split; intros Hn.
  - unfold compare_solution_quality, generate_random_instance. cbv zeta.
    rewrite range_empty_nonpos by lia. cbn [map_drawing bind].
    rewrite greedy_empty.
    cbn [bind snd]. destruct (Z.leb_spec n 100) as [_|Hbig]; [|lia].
    rewrite optimal_negative_capacity by lia. reflexivity.
  - subst n. unfold compare_solution_quality, generate_random_instance. cbv zeta.
    change (range 0 0) with (@nil Z). cbn [map_drawing bind].
    rewrite greedy_empty. reflexivity.
Qed.

Lemma compare_solution_quality_small_sizes_witness :
  (-3 < 0 -> compare_solution_quality (Srt := stable_sort) least_random (-3) tt =
             (Raise IndexError, seed least_random 42)) /\
  (0 = 0 -> compare_solution_quality (Srt := stable_sort) least_random 0 tt =
            (Ok (0%float, 0%float, Int 0), seed least_random 42)).
Proof.
  split.
  - intros _.
    apply (compare_solution_quality_small_sizes (HS := stable_sort_laws) least_random (-3) tt).
    lia.
  - intros _.
    apply (compare_solution_quality_small_sizes (HS := stable_sort_laws) least_random 0 tt).
    reflexivity.
Defined.

(** ** The runtime measurement *)

Lemma range_from_zero (m : Z) : range 0 m = map Z.of_nat (seq 0 (Z.to_nat m)).
Proof.
  unfold range. rewrite Z.sub_0_r. apply map_ext. intros k. lia.
Qed.

(** One more pair of clock readings adds its difference at the end. *)
Lemma clock_differences_S {T : Type} (perf_counter : T -> float * T) (k : nat) (t : T) :
  clock_differences perf_counter (S k) t =
  (let '(times, t1) := clock_differences perf_counter k t in
   let '(start, t2) := perf_counter t1 in
   let '(finish, t3) := perf_counter t2 in
   (times ++ [(finish - start)%float], t3)).
Proof.
  revert t. induction k as [|k IH]; intros t.
  - cbn [clock_differences]. destruct (perf_counter t) as [start t2].
    now destruct (perf_counter t2) as [finish t3].
  - cbn [clock_differences] in *. destruct (perf_counter t) as [start t2].
    destruct (perf_counter t2) as [finish t3]. rewrite IH.
    destruct (clock_differences perf_counter k t3) as [times t1].
    destruct (perf_counter t1) as [start' t4].
    now destruct (perf_counter t4) as [finish' t5].
Qed.

Lemma length_clock_differences {T : Type} (perf_counter : T -> float * T) (k : nat) (t : T) :
  length (fst (clock_differences perf_counter k t)) = k.
Proof.
  revert t. induction k as [|k IH]; intros t; [reflexivity|]. cbn [clock_differences].
  destruct (perf_counter t) as [start t2]. destruct (perf_counter t2) as [finish t3].
  specialize (IH t3). destruct (clock_differences perf_counter k t3) as [times t1].
  simpl in *. now rewrite IH.
Qed.

(** X18: whatever [random] draws within its documented ranges and whatever
    the clock reads, the runtime measurement raises nothing, for every size
    within the float range, negative ones included: the greedy allocator
    returns on every generated instance, and what reaches [mean] and [std]
    are the [max(num_trials, 0)] differences of successive pairs of clock
    readings, in the order they were taken. *)
Theorem measure_runtime_returns {G T : Type} {Srt : PySort} {HS : SortLaws}
    (R : random_module G)
    (perf_counter : T -> float * T) (np_mean np_std : list float -> float)
    (n num_trials : Z) (g : G) (t : T) :
  random_contract R ->
  n * 50 < 2 ^ 1024 ->
  exists times g' t',
    measure_runtime R perf_counter np_mean np_std n num_trials g t =
      Ok (np_mean times, np_std times, g', t') /\
    clock_differences perf_counter (Z.to_nat num_trials) t = (times, t') /\
    length times = Z.to_nat num_trials.
Proof.
  intros HR Hn. unfold measure_runtime. cbv zeta. rewrite range_from_zero.
  assert (Hmax : Z.max 1 (n * 50 / 10) < float_limit)
    by (apply demand_bound; pose proof float_limit_tenfold; lia).
  set (body := fun (st : list float * G * T) (trial : Z) => _).
  destruct (foldM_seq body
              (fun k st => clock_differences perf_counter k t = (fst (fst st), snd st))
              (Z.to_nat num_trials) 0 ([], g, t)) as ([[times g'] t'] & Hrun & Hclock).
  - reflexivity.
  - intros k [[times0 g0] t0] _ Hk. cbn [fst snd] in Hk. unfold body.
    destruct (generated_instance R HR n (n * 50) (Some (Z.of_nat k)) g0 Hmax)
      as (demands & utilities & g1 & -> & _ & Hlen & Hd & _).
    cbn [bind]. rewrite clock_differences_S, Hk.
    destruct (perf_counter t0) as [start t1].
    rewrite greedy_run.
    + cbn [bind]. destruct (perf_counter t1) as [finish t2].
      eexists. split; reflexivity.
    + lia.
    + eapply Forall_impl; [exact Hd|]. simpl. intros d Hd1. lia.
    + apply float_converts_all. eapply Forall_impl; [exact Hd|]. simpl. intros d Hd1. lia.
  - rewrite Hrun. cbn [bind]. cbn [fst snd Nat.add] in Hclock.
    exists times, g', t'. split; [reflexivity|]. split; [exact Hclock|].
    pose proof (length_clock_differences perf_counter (Z.to_nat num_trials) t) as Hlen.
    now rewrite Hclock in Hlen.
Qed.

Lemma measure_runtime_returns_witness :
  exists times g' t',
    measure_runtime (Srt := stable_sort) least_random (fun t : Z => (to_float t, t + 1))
      (fun l => nth 0 l 0%float) (fun l => nth 1 l 0%float) 5 3 tt 0 =
      Ok (nth 0 times 0%float, nth 1 times 0%float, g', t') /\
    clock_differences (fun t : Z => (to_float t, t + 1)) (Z.to_nat 3) 0 = (times, t') /\
    length times = Z.to_nat 3.
Proof.
  apply (measure_runtime_returns (HS := stable_sort_laws) least_random
           (fun t : Z => (to_float t, t + 1))
           (fun l => nth 0 l 0%float) (fun l => nth 1 l 0%float) 5 3 tt 0).
  - exact least_random_contract.
  - apply Z.lt_trans with (2 ^ 8); [reflexivity|]. apply Z.pow_lt_mono_r; lia.
Defined.

(** ** The literal instances *)

(** X19: on the three literal instances the allocators return what the
    generators' docstrings say: the greedy allocator takes the first
    candidate only (60, 1 and 35), the exact allocator the other ones (90, 2
    and 48), and the ratios the demonstration prints are 66.67, 50 and
    72.92 percent, all defined. *)
Theorem literal_instances {Srt : PySort} {HS : SortLaws} :
  (let '(demands, utilities, capacity) := generate_worst_case_for_greedy in
   greedy_bandwidth_allocation demands utilities capacity = Ok ([1; 0; 0], 60%float) /\
   optimal_bandwidth_allocation demands utilities capacity = Ok ([0; 1; 1], 90%float) /\
   percent_of 60 90 = Ok 0x1.0aaaaaaaaaaaap+6%float) /\
  (let '(demands, utilities, capacity) := generate_pathological_case in
   greedy_bandwidth_allocation demands utilities capacity = Ok ([1; 0], 1%float) /\
   optimal_bandwidth_allocation demands utilities capacity = Ok ([0; 1], 2%float) /\
   percent_of 1 2 = Ok 50%float) /\
  (let '(demands, utilities, capacity) := generate_another_bad_case in
   greedy_bandwidth_allocation demands utilities capacity = Ok ([1; 0; 0], 35%float) /\
   optimal_bandwidth_allocation demands utilities capacity = Ok ([0; 1; 1], 48%float) /\
   percent_of 35 48 = Ok 0x1.23aaaaaaaaaaap+6%float).
Proof.
  unfold generate_worst_case_for_greedy, generate_pathological_case,
    generate_another_bad_case. cbv iota beta.
  repeat split; try (rewrite greedy_stable by ordered_keys); vm_compute; reflexivity.
Qed.

Lemma literal_instances_witness :
  (let '(demands, utilities, capacity) := generate_worst_case_for_greedy in
   greedy_bandwidth_allocation (Srt := stable_sort) demands utilities capacity
     = Ok ([1; 0; 0], 60%float) /\
   optimal_bandwidth_allocation demands utilities capacity = Ok ([0; 1; 1], 90%float) /\
   percent_of 60 90 = Ok 0x1.0aaaaaaaaaaaap+6%float) /\
  (let '(demands, utilities, capacity) := generate_pathological_case in
   greedy_bandwidth_allocation (Srt := stable_sort) demands utilities capacity
     = Ok ([1; 0], 1%float) /\
   optimal_bandwidth_allocation demands utilities capacity = Ok ([0; 1], 2%float) /\
   percent_of 1 2 = Ok 50%float) /\
  (let '(demands, utilities, capacity) := generate_another_bad_case in
   greedy_bandwidth_allocation (Srt := stable_sort) demands utilities capacity
     = Ok ([1; 0; 0], 35%float) /\
   optimal_bandwidth_allocation demands utilities capacity = Ok ([0; 1; 1], 48%float) /\
   percent_of 35 48 = Ok 0x1.23aaaaaaaaaaap+6%float).
Proof. exact (literal_instances (HS := stable_sort_laws)). Defined.
